(** * design_patterns_vibe: the interactive diagram viewer

    A shallow embedding of the three React components that carry the
    viewer's logic, and the properties the specification states of them:

    - [InteractiveDiagram] (src/components/InteractiveDiagram.tsx,
      lines 1-195): the pan/zoom transform and its mouse and wheel
      handlers;
    - [PatternViewer] (components/PatternViewer.tsx, found in
      src/unnamed/part_003 from line 31, after types.ts): hover and pin
      selection with the debounced hover-clear timer;
    - [CodePane] (components/CodePane.tsx, found in
      src/data/patterns/iterator.ts, lines 261-366): language tabs and
      snippet of the component on display.

    React state is threaded explicitly: a handler takes the state of the
    render it closes over and returns the state of the next render. One
    event is handled per render. *)

From Stdlib Require Import ZArith QArith Qfield Qabs Floats List String Ascii Bool Lia.
From stdpp Require Import gmap.
Import ListNotations.

Set Warnings "-inexact-float".
Close Scope Q_scope.
Local Open Scope Z_scope.

(* ===================================================================== *)
(** * JavaScript numbers *)
(* ===================================================================== *)

(** The handlers of [InteractiveDiagram] compute on JavaScript numbers.
    They are written once, over the operations they use, and read at two
    instances: IEEE 754 binary64, which is what the program runs on, and
    the rationals, which is the arithmetic the binary64 results round. *)
Class Number (num : Type) : Type := {
  num_add : num -> num -> num;
  num_sub : num -> num -> num;
  num_mul : num -> num -> num;
  num_div : num -> num -> num;
  (** [a < b] *)
  num_lt : num -> num -> bool;
  (** [Math.sign] *)
  Math_sign : num -> num;
  (** the numeric literals of the source: [0], [1], [3], [0.1], [0.5] *)
  lit_0 : num;
  lit_1 : num;
  lit_3 : num;
  lit_0_1 : num;
  lit_0_5 : num
}.

(** [a > b] is [b < a], also on NaN, where both are false. *)
Definition num_gt {num} `{Number num} (a b : num) : bool := num_lt b a.

Declare Scope num_scope.
Delimit Scope num_scope with num.
Infix "+" := num_add : num_scope.
Infix "-" := num_sub : num_scope.
Infix "*" := num_mul : num_scope.
Infix "/" := num_div : num_scope.
Infix "<?" := num_lt : num_scope.
Infix ">?" := num_gt : num_scope.

(** ** binary64 *)

(** ECMAScript [Math.sign]: NaN, +0 and -0 are returned as they are, a
    number below zero gives -1, any other 1. *)
Definition float_sign (n : float) : float :=
  if (PrimFloat.is_nan n || PrimFloat.eqb n 0%float)%bool then n
  else if PrimFloat.ltb n 0%float then (-1)%float
  else 1%float.

#[export] Instance float_Number : Number float := {
  num_add := PrimFloat.add;
  num_sub := PrimFloat.sub;
  num_mul := PrimFloat.mul;
  num_div := PrimFloat.div;
  num_lt := PrimFloat.ltb;
  Math_sign := float_sign;
  lit_0 := 0%float;
  lit_1 := 1%float;
  lit_3 := 3%float;
  lit_0_1 := 0.1%float;
  lit_0_5 := 0.5%float
}.

(** A binary64 value that is not NaN, and one that is neither NaN nor
    infinite nor a zero, read off its specification-level form. *)
Definition is_number (n : float) : Prop := Prim2SF n <> S754_nan.

Definition is_finite (n : float) : Prop :=
  exists s m e, Prim2SF n = S754_finite s m e.

(** [lo <= n && n <= hi] on binary64 *)
Definition between (lo hi n : float) : bool :=
  (PrimFloat.leb lo n && PrimFloat.leb n hi)%bool.

(** ** binary64 numbers as fractions *)

(** A binary64 value that is a number of the real line: neither NaN nor
    an infinity ([Number.isFinite]). *)
Definition SFfinite (x : spec_float) : bool :=
  match x with
  | S754_zero _ | S754_finite _ _ _ => true
  | _ => false
  end.

Definition isFinite (n : float) : bool := SFfinite (Prim2SF n).

(** A finite binary64 number is [m * 2^e] or its opposite, with
    [-1074 <= e]: a multiple of [2^-1074]. [scaled n] is that multiple
    and [value n] the number itself, as a fraction; NaN and the
    infinities, which are no numbers, are given 0. *)
Definition SFscaled (x : spec_float) : Z :=
  match x with
  | S754_finite s m e => cond_Zopp s (Zpos m * 2 ^ (e + 1074))
  | _ => 0
  end.

Definition scaled (n : float) : Z := SFscaled (Prim2SF n).

Definition value (n : float) : Q := Qmake (scaled n) (2 ^ 1074).

(** Vocabulary of the rounding proofs. [SFvalid]: the mantissa and the
    exponent are those of a binary64 value. [shr_inv M H mrs]: the record
    [mrs] is what is left of the mantissa [M] after the bits of weight
    below [H] were shifted out, the round bit weighing [H / 2] and the
    sticky bit telling whether anything lies below it. *)
Definition SFvalid (x : spec_float) : Prop := SpecFloat.valid_binary prec emax x = true.

Definition b2z (b : bool) : Z := if b then 1 else 0.

Definition shr_inv (M H : Z) (mrs : shr_record) : Prop :=
  0 <= shr_m mrs
  /\ exists t, 0 <= t < H
            /\ 2 * M = 2 * shr_m mrs * H + b2z (shr_r mrs) * H + t
            /\ shr_s mrs = negb (t =? 0).

(** ** exact arithmetic *)

Definition Qltb (a b : Q) : bool := negb (Qle_bool b a).

Definition Q_sign (n : Q) : Q := inject_Z (Z.sgn (Qnum n)).

#[export] Instance Q_Number : Number Q := {
  num_add := Qplus;
  num_sub := Qminus;
  num_mul := Qmult;
  num_div := Qdiv;
  num_lt := Qltb;
  Math_sign := Q_sign;
  lit_0 := 0%Q;
  lit_1 := 1%Q;
  lit_3 := 3%Q;
  lit_0_1 := (1 # 10)%Q;
  lit_0_5 := (1 # 2)%Q
}.

(* ===================================================================== *)
(** * InteractiveDiagram: pan and zoom *)
(* ===================================================================== *)

(** [{ x, y }]: [startPoint]. *)
Module Point.
Record t (num : Type) : Type := mk { x : num; y : num }.
Arguments mk {num} _ _.
Arguments x {num} _.
Arguments y {num} _.
End Point.

(** [{ x, y, k }]: the [transform] state; the diagram is drawn under
    [translate(x y) scale(k)]. *)
Module Transform.
Record t (num : Type) : Type := mk { x : num; y : num; k : num }.
Arguments mk {num} _ _ _.
Arguments x {num} _.
Arguments y {num} _.
Arguments k {num} _.
End Transform.

(** What [handleMouseDown] reads of [e.target]: whether it is the node
    [svgRef.current], and its class list. *)
Module EventTarget.
Record t : Type := mk { isSvgRefCurrent : bool; classList : list string }.
End EventTarget.

Module MouseEvent.
Record t (num : Type) : Type :=
  mk { clientX : num; clientY : num; target : EventTarget.t }.
Arguments mk {num} _ _ _.
Arguments clientX {num} _.
Arguments clientY {num} _.
Arguments target {num} _.
End MouseEvent.

Module WheelEvent.
Record t (num : Type) : Type :=
  mk { clientX : num; clientY : num; deltaY : num }.
Arguments mk {num} _ _ _.
Arguments clientX {num} _.
Arguments clientY {num} _.
Arguments deltaY {num} _.
End WheelEvent.

(** What [handleWheel] reads of [svg.getBoundingClientRect()]. *)
Module DOMRect.
Record t (num : Type) : Type := mk { left : num; top : num }.
Arguments mk {num} _ _.
Arguments left {num} _.
Arguments top {num} _.
End DOMRect.

Module InteractiveDiagram.

(** The three [useState] cells of the component. *)
Record State (num : Type) : Type := mkState {
  transform : Transform.t num;
  isPanning : bool;
  startPoint : Point.t num
}.
Arguments mkState {num} _ _ _.
Arguments transform {num} _.
Arguments isPanning {num} _.
Arguments startPoint {num} _.

Section Handlers.
Context {num : Type} `{Number num}.
Local Open Scope num_scope.

(** [useState({ x: 0, y: 0, k: 1 })], [useState(false)],
    [useState({ x: 0, y: 0 })] *)
Definition initial : State num :=
  mkState (Transform.mk lit_0 lit_0 lit_1) false (Point.mk lit_0 lit_0).

(** [classList.contains] *)
Definition contains (classList : list string) (token : string) : bool :=
  existsb (String.eqb token) classList.

(** [e.target === svgRef.current ||
     (e.target as SVGElement).classList.contains('diagram-bg')] *)
Definition onBackground (target : EventTarget.t) : bool :=
  (EventTarget.isSvgRefCurrent target
   || contains (EventTarget.classList target) "diagram-bg")%bool.

Definition handleMouseDown (e : MouseEvent.t num) (s : State num) : State num :=
  if onBackground (MouseEvent.target e)
  then mkState (transform s) true
         (Point.mk (MouseEvent.clientX e - Transform.x (transform s))
                   (MouseEvent.clientY e - Transform.y (transform s)))
  else s.

Definition handleMouseMove (e : MouseEvent.t num) (s : State num) : State num :=
  if negb (isPanning s) then s
  else
    let t := transform s in
    mkState (Transform.mk (MouseEvent.clientX e - Point.x (startPoint s))
                          (MouseEvent.clientY e - Point.y (startPoint s))
                          (Transform.k t))
            (isPanning s) (startPoint s).

Definition handleMouseUp (s : State num) : State num :=
  mkState (transform s) false (startPoint s).

Definition scaleAmount : num := lit_0_1.
Definition minScale : num := lit_0_5.
Definition maxScale : num := lit_3.

(** [transform.k * (1 - Math.sign(e.deltaY) * scaleAmount)] *)
Definition newScale (e : WheelEvent.t num) (s : State num) : num :=
  Transform.k (transform s)
  * (lit_1 - Math_sign (WheelEvent.deltaY e) * scaleAmount).

(** [newScale < minScale || newScale > maxScale] *)
Definition outOfBounds (scale : num) : bool :=
  ((scale <? minScale) || (scale >? maxScale))%bool.

(** [svg] is [svgRef.current]: [None] for [null], else the bounding
    rectangle of the node. *)
Definition handleWheel (svg : option (DOMRect.t num)) (e : WheelEvent.t num)
    (s : State num) : State num :=
  match svg with
  | None => s
  | Some rect =>
      let mouseX := WheelEvent.clientX e - DOMRect.left rect in
      let mouseY := WheelEvent.clientY e - DOMRect.top rect in
      let newScale := newScale e s in
      if outOfBounds newScale then s
      else
        let worldX := (mouseX - Transform.x (transform s)) / Transform.k (transform s) in
        let worldY := (mouseY - Transform.y (transform s)) / Transform.k (transform s) in
        let newX := mouseX - worldX * newScale in
        let newY := mouseY - worldY * newScale in
        mkState (Transform.mk newX newY newScale) (isPanning s) (startPoint s)
  end.

(** The events the [<svg>] element listens to; [onMouseLeave] is bound
    to [handleMouseUp] as [onMouseUp] is. *)
Inductive Event : Type :=
| MouseDown (e : MouseEvent.t num)
| MouseMove (e : MouseEvent.t num)
| MouseUp
| MouseLeave
| Wheel (svg : option (DOMRect.t num)) (e : WheelEvent.t num).

Definition step (s : State num) (ev : Event) : State num :=
  match ev with
  | MouseDown e => handleMouseDown e s
  | MouseMove e => handleMouseMove e s
  | MouseUp => handleMouseUp s
  | MouseLeave => handleMouseUp s
  | Wheel svg e => handleWheel svg e s
  end.

Definition run (s : State num) (evs : list Event) : State num :=
  fold_left step evs s.

(** A mouse-down that starts a pan, and a mouse-move. *)
Definition beginsPan (ev : Event) : bool :=
  match ev with
  | MouseDown e => onBackground (MouseEvent.target e)
  | _ => false
  end.

Definition isMouseMove (ev : Event) : bool :=
  match ev with
  | MouseMove _ => true
  | _ => false
  end.

(** The point of the screen at which the transform [t] draws the
    world coordinate [w], per axis: [translate] after [scale]. *)
Definition screenX (t : Transform.t num) (w : num) : num :=
  Transform.x t + w * Transform.k t.
Definition screenY (t : Transform.t num) (w : num) : num :=
  Transform.y t + w * Transform.k t.

End Handlers.
Arguments Event : clear implicits.

(** [deltaY] of a wheel event is a WebIDL [double]: never NaN. (The
    zoom of the specification takes a direction, +1 or -1: the sign of
    such a [deltaY].) *)
Definition deltaY_is_number (ev : Event float) : Prop :=
  match ev with
  | Wheel _ e => PrimFloat.is_nan (WheelEvent.deltaY e) = false
  | _ => True
  end.

(** [minScale <= k && k <= maxScale] *)
Definition scaleInBounds (s : State float) : bool :=
  between minScale maxScale (Transform.k (transform s)).

End InteractiveDiagram.

(* ===================================================================== *)
(** * The pattern catalog's types (src/types.ts) *)
(* ===================================================================== *)

Inductive PatternCategory : Type := Creational | Structural | Behavioral.

(** ['class' | 'interface' | 'arrow' | 'note'] *)
Inductive ComponentType : Type := type_class | type_interface | type_arrow | type_note.

(** ['implementation' | 'dependency'] *)
Inductive ArrowType : Type := implementation | dependency.

(** [code: Record<string, string>] is kept as the list of its entries in
    the order [Object.keys] enumerates them; a key occurs once. *)
Module DiagramComponent.
Record t : Type := mk {
  id : string;
  type : ComponentType;
  label : string;
  code : list (string * string);
  x : float;
  y : float;
  width : option float;
  height : option float;
  points : option string;
  arrowType : option ArrowType
}.
End DiagramComponent.

Module Diagram.
Record t : Type := mk {
  components : list DiagramComponent.t;
  viewBox : string
}.
End Diagram.

Module DesignPattern.
Record t : Type := mk {
  id : string;
  name : string;
  category : PatternCategory;
  description : string;
  whenToUse : list string;
  whenNotToUse : list string;
  comparison : string;
  diagram : Diagram.t;
  sequenceDiagram : option string;
  useCaseDiagram : option string
}.
End DesignPattern.

(** Sample data in the shape of the catalog's: a class box with the
    given id and snippets, and a pattern with the given components. *)
Definition classBox (id : string) (code : list (string * string)) : DiagramComponent.t :=
  DiagramComponent.mk id type_class id code 200 20 (Some 200%float) (Some 80%float)
                      None None.

Definition patternOf (components : list DiagramComponent.t) : DesignPattern.t :=
  DesignPattern.mk "sample" "Sample" Behavioral "" [] [] ""
                   (Diagram.mk components "0 0 600 400") None None.

(** A string is truthy when it is not empty, a number when it is neither
    0 nor NaN (timer handles are integers). *)
Definition truthy_string (s : string) : bool := negb (String.eqb s "").
Definition truthy_handle (n : Z) : bool := negb (n =? 0).

(* ===================================================================== *)
(** * PatternViewer: hover, pin and the hover-clear timer *)
(* ===================================================================== *)

Module PatternViewer.

(** The one function the component hands to [window.setTimeout]:
    [() => { setHoveredComponent(null); }]. *)
Inductive TimerCallback : Type := ClearHovered.

(** [hoveredComponent], [pinnedComponent] and [hoverTimeoutRef.current]
    are the component's; [timers] and [nextHandle] are the window's: its
    map of active timers and the handle the next [setTimeout] returns.
    Handles are handed out in increasing order, as browsers do; no other
    code of the application sets a timer. The full-screen and modal
    cells, which none of the handlers below reads or writes, are left
    out. *)
Record State : Type := mkState {
  hoveredComponent : option DiagramComponent.t;
  pinnedComponent : option DiagramComponent.t;
  hoverTimeoutRef : option Z;
  timers : gmap Z TimerCallback;
  nextHandle : Z
}.

(** First render, in a window that has handed out no timer yet. Handles
    are integers greater than zero. *)
Definition initial : State := mkState None None None ∅ 1.

(** [window.setTimeout(callback, 200)]: the handle returned, and the
    window with the timer pending. *)
Definition setTimeout (callback : TimerCallback) (s : State) : Z * State :=
  (nextHandle s,
   mkState (hoveredComponent s) (pinnedComponent s) (hoverTimeoutRef s)
           (<[nextHandle s := callback]> (timers s)) (nextHandle s + 1)).

(** [clearTimeout(handle)]: a handle that is not pending is ignored. *)
Definition clearTimeout (handle : Z) (s : State) : State :=
  mkState (hoveredComponent s) (pinnedComponent s) (hoverTimeoutRef s)
          (delete handle (timers s)) (nextHandle s).

Definition set_hoverTimeoutRef (r : option Z) (s : State) : State :=
  mkState (hoveredComponent s) (pinnedComponent s) r (timers s) (nextHandle s).

Definition setHoveredComponent (c : option DiagramComponent.t) (s : State) : State :=
  mkState c (pinnedComponent s) (hoverTimeoutRef s) (timers s) (nextHandle s).

(** [setPinnedComponent(prev => f(prev))] *)
Definition setPinnedComponent
    (f : option DiagramComponent.t -> option DiagramComponent.t) (s : State) : State :=
  mkState (hoveredComponent s) (f (pinnedComponent s)) (hoverTimeoutRef s)
          (timers s) (nextHandle s).

Definition clearHoverTimeout (s : State) : State :=
  match hoverTimeoutRef s with
  | Some handle =>
      if truthy_handle handle
      then set_hoverTimeoutRef None (clearTimeout handle s)
      else s
  | None => s
  end.

Definition handleHoverComponent (component : option DiagramComponent.t)
    (s : State) : State :=
  let s := clearHoverTimeout s in
  match component with
  | Some c => setHoveredComponent (Some c) s
  | None =>
      let '(handle, s) := setTimeout ClearHovered s in
      set_hoverTimeoutRef (Some handle) s
  end.

(** [prev?.id === component.id ? null : component] *)
Definition togglePinned (component : DiagramComponent.t)
    (prev : option DiagramComponent.t) : option DiagramComponent.t :=
  match prev with
  | Some p =>
      if String.eqb (DiagramComponent.id p) (DiagramComponent.id component)
      then None else Some component
  | None => Some component
  end.

Definition handlePinComponent (component : DiagramComponent.t) (s : State) : State :=
  let s := clearHoverTimeout s in
  setPinnedComponent (togglePinned component) s.

Definition handleClosePane (s : State) : State :=
  setPinnedComponent (fun _ => None) s.

(** [pinnedComponent || hoveredComponent] *)
Definition componentToShow (s : State) : option DiagramComponent.t :=
  match pinnedComponent s with
  | Some c => Some c
  | None => hoveredComponent s
  end.

(** [hoveredComponent?.id] and [pinnedComponent?.id], the props handed
    to the diagram. *)
Definition hoveredComponentId (s : State) : option string :=
  option_map DiagramComponent.id (hoveredComponent s).
Definition pinnedComponentId (s : State) : option string :=
  option_map DiagramComponent.id (pinnedComponent s).
Definition componentToShowId (s : State) : option string :=
  option_map DiagramComponent.id (componentToShow s).

(** The right-hand panel of the render: the code pane of the component
    to show, or the pattern's details when there is none. *)
Inductive Panel : Type :=
| CodePanePanel (component : DiagramComponent.t) (isPinned : bool)
| PatternDetailsPanel (pattern : DesignPattern.t).

Definition panel (pattern : DesignPattern.t) (s : State) : Panel :=
  match componentToShow s with
  | Some c =>
      CodePanePanel c
        match pinnedComponent s with
        | Some p => String.eqb (DiagramComponent.id c) (DiagramComponent.id p)
        | None => false
        end
  | None => PatternDetailsPanel pattern
  end.

(** A pending timer comes due: the window drops it from its map and
    runs its callback. A handle that is not pending does nothing. *)
Definition runCallback (callback : TimerCallback) (s : State) : State :=
  match callback with
  | ClearHovered => setHoveredComponent None s
  end.

Definition timerFires (handle : Z) (s : State) : State :=
  match timers s !! handle with
  | Some callback => runCallback callback (clearTimeout handle s)
  | None => s
  end.

(** What can happen to the component: the diagram reports a hover
    ([onHoverComponent], [null] when the pointer leaves a component) or
    a click ([onPinComponent]); the pane is closed ([onClose]), entered
    ([onMouseEnter], bound to [clearHoverTimeout]) or left
    ([onMouseLeave], bound to [handleHoverComponent(null)]); a timer
    comes due. Timers fire in any order and at any moment, which
    covers every choice of delays. *)
Inductive Event : Type :=
| HoverComponent (component : option DiagramComponent.t)
| PinComponent (component : DiagramComponent.t)
| ClosePane
| PaneMouseEnter
| PaneMouseLeave
| TimerFires (handle : Z).

Definition step (s : State) (ev : Event) : State :=
  match ev with
  | HoverComponent c => handleHoverComponent c s
  | PinComponent c => handlePinComponent c s
  | ClosePane => handleClosePane s
  | PaneMouseEnter => clearHoverTimeout s
  | PaneMouseLeave => handleHoverComponent None s
  | TimerFires h => timerFires h s
  end.

Definition run (s : State) (evs : list Event) : State := fold_left step evs s.

(** The timer discipline of the component: every pending timer is the
    one [hoverTimeoutRef.current] names, and handles are positive and
    below the next one the window hands out. *)
Definition single_slot (s : State) : Prop :=
  0 < nextHandle s
  /\ forall handle callback,
       timers s !! handle = Some callback ->
       hoverTimeoutRef s = Some handle /\ 0 < handle < nextHandle s.

(** No handle below [bound] is pending or will be handed out. *)
Definition handles_from (bound : Z) (s : State) : Prop :=
  bound <= nextHandle s
  /\ forall handle callback, timers s !! handle = Some callback -> bound <= handle.

(** [id] is among the ids of the pattern's diagram components. *)
Definition inDiagram (pattern : DesignPattern.t) (id : string) : bool :=
  existsb (fun c => String.eqb (DiagramComponent.id c) id)
          (Diagram.components (DesignPattern.diagram pattern)).

End PatternViewer.

(* ===================================================================== *)
(** * CodePane: language tabs and snippet *)
(* ===================================================================== *)

Module CodePane.

(** [Object.keys(code)] *)
Definition Object_keys (code : list (string * string)) : list string :=
  map fst code.

(** [keys.includes(key)] *)
Definition includes (keys : list string) (key : string) : bool :=
  existsb (String.eqb key) keys.

(** [record[key]] among the entries of the record itself, [None] for
    [undefined]. Under a name of [Object.prototype] that the record has
    no entry for, JavaScript finds the inherited member instead: that
    reading is [ObjectPrototype.read], below, which is this one for every
    other key. *)
Fixpoint get (record : list (string * string)) (key : string) : option string :=
  match record with
  | [] => None
  | (k, v) :: rest => if String.eqb k key then Some v else get rest key
  end.

(** [a || b] on strings *)
Definition or_string (a b : string) : string := if truthy_string a then a else b.

(** [String.prototype.trim], on the white space of the ASCII range:
    tab, line feed, vertical tab, form feed, carriage return, space. *)
Definition isWhiteSpace (c : ascii) : bool :=
  let n := nat_of_ascii c in
  ((9 <=? n)%nat && (n <=? 13)%nat || (n =? 32)%nat)%bool.

Fixpoint trimStart (s : string) : string :=
  match s with
  | String c rest => if isWhiteSpace c then trimStart rest else s
  | EmptyString => EmptyString
  end.

Fixpoint reverse (s acc : string) : string :=
  match s with
  | String c rest => reverse rest (String c acc)
  | EmptyString => acc
  end.

Definition trim (s : string) : string :=
  reverse (trimStart (reverse (trimStart s) "")) "".

Definition languageMap : list (string * string) :=
  [("java", "Java"); ("python", "Python"); ("javascript", "JavaScript")]%string.

Definition highlighterLanguageMap : list (string * string) :=
  [("java", "java"); ("python", "python"); ("javascript", "javascript")]%string.

Definition availableLanguages (component : DiagramComponent.t) : list string :=
  Object_keys (DiagramComponent.code component).

(** The initial value of the [selectedLanguage] cell:
    [availableLanguages.includes('java') ? 'java' : availableLanguages[0] || ''] *)
Definition initialSelectedLanguage (component : DiagramComponent.t) : string :=
  let availableLanguages := availableLanguages component in
  if includes availableLanguages "java" then "java"%string
  else match nth_error availableLanguages 0 with
       | Some first => or_string first ""
       | None => ""%string
       end.

(** [availableLanguages.length > 0 && selectedLanguage], as a condition *)
Definition hasCode (component : DiagramComponent.t) (selectedLanguage : string) : bool :=
  ((0 <? length (availableLanguages component))%nat
   && truthy_string selectedLanguage)%bool.

(** A tab button: the language it selects on click, its caption
    [languageMap[lang] || lang], and whether it is drawn as selected. *)
Record Tab : Type := mkTab { lang : string; caption : string; selected : bool }.

Inductive Body : Type :=
| SyntaxHighlighter (language : option string) (children : string)
| NoSnippet (message : string).

(** What the render shows below the title bar: the tab strip, when
    there is one, and the body. *)
Record View : Type := mkView { tabs : option (list Tab); body : Body }.

Definition tab (selectedLanguage lang : string) : Tab :=
  mkTab lang
        (match get languageMap lang with
         | Some name => or_string name lang
         | None => lang
         end)
        (String.eqb selectedLanguage lang).

(** [`// Code for ${languageMap[selectedLanguage]} not available.`] *)
Definition notAvailable (selectedLanguage : string) : string :=
  ("// Code for "
   ++ match get languageMap selectedLanguage with
      | Some name => name
      | None => "undefined"
      end
   ++ " not available.")%string.

Definition render (component : DiagramComponent.t) (selectedLanguage : string) : View :=
  if hasCode component selectedLanguage then
    mkView
      (Some (map (tab selectedLanguage) (availableLanguages component)))
      (SyntaxHighlighter
         (get highlighterLanguageMap selectedLanguage)
         (match get (DiagramComponent.code component) selectedLanguage with
          | Some snippet => trim snippet
          | None => notAvailable selectedLanguage
          end))
  else
    mkView None (NoSnippet "No code snippet available for this component.").

(** The pane as it first shows a component. *)
Definition mount (component : DiagramComponent.t) : View :=
  render component (initialSelectedLanguage component).

(** The language tags the view offers. *)
Definition tags (v : View) : list string :=
  match tabs v with
  | Some ts => map lang ts
  | None => []
  end.

End CodePane.

(* ===================================================================== *)
(** * Reading a record under any key *)
(* ===================================================================== *)

(** The records of the program ([component.code], [languageMap],
    [highlighterLanguageMap]) are plain objects: they inherit from
    [Object.prototype]. *)
Module ObjectPrototype.

(** The property names of [Object.prototype] (ECMAScript, with the
    accessors and methods of its Annex B). *)
Definition names : list string :=
  ["constructor"; "hasOwnProperty"; "isPrototypeOf"; "propertyIsEnumerable";
   "toLocaleString"; "toString"; "valueOf"; "__proto__";
   "__defineGetter__"; "__defineSetter__";
   "__lookupGetter__"; "__lookupSetter__"]%string.

Definition inherits (key : string) : bool := CodePane.includes names key.

(** What [record[key]] evaluates to on a record of strings: the string
    of the record's own entry; else, under a name of [Object.prototype],
    the inherited member, which is a function, or for [__proto__] the
    prototype itself; else [undefined]. *)
Inductive Value : Type :=
| Str (s : string)
| Member
| Undefined.

Definition ofOption (v : option string) : Value :=
  match v with
  | Some s => Str s
  | None => Undefined
  end.

Definition read (record : list (string * string)) (key : string) : Value :=
  match CodePane.get record key with
  | Some s => Str s
  | None => if inherits key then Member else Undefined
  end.

(** A value as a condition: an object or a function is truthy. *)
Definition truthy (v : Value) : bool :=
  match v with
  | Str s => truthy_string s
  | Member => true
  | Undefined => false
  end.

(** [v?.trim() ?? '']. [None]: the call throws a TypeError, a member
    of [Object.prototype] having no [trim] to call. *)
Definition trimmed (v : Value) : option string :=
  match v with
  | Str s => Some (CodePane.trim s)
  | Member => None
  | Undefined => Some ""%string
  end.

End ObjectPrototype.

(* ===================================================================== *)
(** * InteractiveDiagram: what is drawn *)
(* ===================================================================== *)

(** The body of the [<svg>] element (InteractiveDiagram.tsx, lines
    74-189): the arrowhead markers of [<defs>] and one group per
    component, with its mouse handlers. *)
Module DiagramRender.

Definition isArrow (c : DiagramComponent.t) : bool :=
  match DiagramComponent.type c with
  | type_arrow => true
  | _ => false
  end.

(** [hoveredComponentId === component.id], [id] being [undefined] when
    nothing is hovered; the same for the pinned id. *)
Definition sameId (id : option string) (component : DiagramComponent.t) : bool :=
  match id with
  | Some i => String.eqb i (DiagramComponent.id component)
  | None => false
  end.

(** [component.points] as a condition *)
Definition hasPoints (component : DiagramComponent.t) : bool :=
  match DiagramComponent.points component with
  | Some points => truthy_string points
  | None => false
  end.

(** [`arrowhead-dep-${component.id}`] and [`arrowhead-impl-${component.id}`] *)
Definition depMarker (component : DiagramComponent.t) : string :=
  ("arrowhead-dep-" ++ DiagramComponent.id component)%string.
Definition implMarker (component : DiagramComponent.t) : string :=
  ("arrowhead-impl-" ++ DiagramComponent.id component)%string.

(** The ids of the markers of [<defs>]: two for each component of type
    ['arrow']. *)
Definition markerIds (diagram : Diagram.t) : list string :=
  flat_map (fun component => [depMarker component; implMarker component])
           (List.filter isArrow (Diagram.components diagram)).

(** [`url(#${id})`] *)
Definition url (id : string) : string := ("url(#" ++ id ++ ")")%string.

(** A group of the drawing: a box (class or interface) or the path of an
    arrow, with what the render computes for it. Each has the three
    handlers [onMouseEnter], [onMouseLeave] and [onClick]. *)
Inductive Element : Type :=
| Box (component : DiagramComponent.t) (isActive : bool)
| ArrowPath (component : DiagramComponent.t) (isActive isDependency : bool)
            (markerEnd : string).

Definition componentOf (el : Element) : DiagramComponent.t :=
  match el with
  | Box c _ => c
  | ArrowPath c _ _ _ => c
  end.

Definition isActive (el : Element) : bool :=
  match el with
  | Box _ a => a
  | ArrowPath _ a _ _ => a
  end.

(** The callback of [diagram.components.map]; [None] is [return null]. *)
Definition renderComponent (diagram : Diagram.t)
    (hoveredComponentId pinnedComponentId : option string)
    (component : DiagramComponent.t) : option Element :=
  let isHovered := sameId hoveredComponentId component in
  let isPinned := sameId pinnedComponentId component in
  match DiagramComponent.type component with
  | type_class | type_interface => Some (Box component (isHovered || isPinned))
  | type_arrow =>
      if hasPoints component then
        let isDependency :=
          match DiagramComponent.arrowType component with
          | Some dependency => true
          | _ => false
          end in
        let relatedComponent :=
          find (fun c => sameId hoveredComponentId c || sameId pinnedComponentId c)
               (Diagram.components diagram) in
        let isRelated :=
          match relatedComponent with
          | Some related =>
              isArrow related
              && String.eqb (DiagramComponent.id related) (DiagramComponent.id component)
          | None => false
          end in
        Some (ArrowPath component (isHovered || isPinned || isRelated) isDependency
                match DiagramComponent.arrowType component with
                | Some implementation => url (implMarker component)
                | _ => url (depMarker component)
                end)
      else None
  | type_note => None
  end.

Definition render (diagram : Diagram.t)
    (hoveredComponentId pinnedComponentId : option string) : list Element :=
  flat_map (fun component =>
              match renderComponent diagram hoveredComponentId pinnedComponentId component with
              | Some el => [el]
              | None => []
              end)
           (Diagram.components diagram).

(** What the handlers of a group call: [onHoverComponent(component)],
    [onHoverComponent(null)], [onPinComponent(component)]. *)
Definition raises (el : Element) : list PatternViewer.Event :=
  [PatternViewer.HoverComponent (Some (componentOf el));
   PatternViewer.HoverComponent None;
   PatternViewer.PinComponent (componentOf el)].

(** An event of the viewer that carries a component carries one of the
    diagram's. *)
Definition fromDiagram (diagram : Diagram.t) (ev : PatternViewer.Event) : Prop :=
  match ev with
  | PatternViewer.HoverComponent (Some c) => In c (Diagram.components diagram)
  | PatternViewer.PinComponent c => In c (Diagram.components diagram)
  | _ => True
  end.

End DiagramRender.

(* ===================================================================== *)
(** * PatternViewer: full screen and modals *)
(* ===================================================================== *)

(** The three cells of [PatternViewer] that the selection handlers leave
    alone (lines 47-49 of the component), the buttons of the diagram's
    title bar and the two modals. *)
Module ViewerChrome.

(** ['sequence' | 'use-case'] *)
Inductive Modal : Type := sequence | use_case.

Record State : Type := mkState {
  isFullScreen : bool;
  activeModal : option Modal;
  isAllCodeModalOpen : bool
}.

Definition initial : State := mkState false None false.

Inductive Button : Type := CodeButton | UseCaseButton | SequenceButton | FullScreenButton.

Definition truthy_diagram (d : option string) : bool :=
  match d with
  | Some svg => truthy_string svg
  | None => false
  end.

(** The buttons the title bar shows: the two diagram buttons only when
    the pattern has the diagram. *)
Definition buttons (pattern : DesignPattern.t) : list Button :=
  CodeButton
  :: (if truthy_diagram (DesignPattern.useCaseDiagram pattern) then [UseCaseButton] else [])
  ++ (if truthy_diagram (DesignPattern.sequenceDiagram pattern) then [SequenceButton] else [])
  ++ [FullScreenButton].

Definition click (b : Button) (s : State) : State :=
  match b with
  | CodeButton => mkState (isFullScreen s) (activeModal s) true
  | UseCaseButton => mkState (isFullScreen s) (Some use_case) (isAllCodeModalOpen s)
  | SequenceButton => mkState (isFullScreen s) (Some sequence) (isAllCodeModalOpen s)
  | FullScreenButton => mkState (negb (isFullScreen s)) (activeModal s) (isAllCodeModalOpen s)
  end.

(** [onClose] of the two modals *)
Definition closeAllCode (s : State) : State :=
  mkState (isFullScreen s) (activeModal s) false.
Definition closeModal (s : State) : State :=
  mkState (isFullScreen s) None (isAllCodeModalOpen s).

Inductive Event : Type :=
| Click (b : Button)
| CloseAllCode
| CloseModal.

Definition step (s : State) (ev : Event) : State :=
  match ev with
  | Click b => click b s
  | CloseAllCode => closeAllCode s
  | CloseModal => closeModal s
  end.

Definition run (s : State) (evs : list Event) : State := fold_left step evs s.

(** Only a button that is shown can be clicked. *)
Definition possible (pattern : DesignPattern.t) (ev : Event) : Prop :=
  match ev with
  | Click b => In b (buttons pattern)
  | _ => True
  end.

(** The props of [DiagramModal] when it is rendered: the title and
    [svgContent], [None] standing for [undefined]. *)
Definition diagramModal (pattern : DesignPattern.t) (s : State)
    : option (string * option string) :=
  match activeModal s with
  | Some sequence => Some ("Sequence Diagram"%string, DesignPattern.sequenceDiagram pattern)
  | Some use_case => Some ("Use Case Diagram"%string, DesignPattern.useCaseDiagram pattern)
  | None => None
  end.

(** The modal that is open has its diagram. *)
Definition modalHasDiagram (pattern : DesignPattern.t) (s : State) : Prop :=
  match activeModal s with
  | Some sequence => truthy_diagram (DesignPattern.sequenceDiagram pattern) = true
  | Some use_case => truthy_diagram (DesignPattern.useCaseDiagram pattern) = true
  | None => True
  end.

End ViewerChrome.

(* ===================================================================== *)
(** * AllCodeModal: the snippets of a pattern in one language *)
(* ===================================================================== *)

(** components/AllCodeModal.tsx (src/unnamed/part_005). *)
Module AllCodeModal.

(** [langSet.add(lang)]: a [Set] keeps its members in insertion order,
    each once. *)
Definition add (langSet : list string) (lang : string) : list string :=
  if CodePane.includes langSet lang then langSet else langSet ++ [lang].

(** [Array.prototype.sort] without a comparator on strings that differ
    from each other: ascending order of the code units. *)
Fixpoint insert (lang : string) (sorted : list string) : list string :=
  match sorted with
  | [] => [lang]
  | first :: rest =>
      if String.leb lang first then lang :: sorted else first :: insert lang rest
  end.

Definition sort (langs : list string) : list string := fold_right insert [] langs.

(** The set after the [forEach] over the components. [c.code] is an
    object, hence truthy. *)
Definition langSet (pattern : DesignPattern.t) : list string :=
  fold_left (fun langSet c =>
               fold_left add (CodePane.Object_keys (DiagramComponent.code c)) langSet)
            (Diagram.components (DesignPattern.diagram pattern)) [].

Definition availableLanguages (pattern : DesignPattern.t) : list string :=
  sort (langSet pattern).

(** The initial value of the [selectedLanguage] cell. *)
Definition initialSelectedLanguage (pattern : DesignPattern.t) : string :=
  let availableLanguages := availableLanguages pattern in
  if CodePane.includes availableLanguages "java" then "java"%string
  else match nth_error availableLanguages 0 with
       | Some first => CodePane.or_string first ""
       | None => ""%string
       end.

(** An entry of [codeSnippets]; [code] is [c.code[selectedLanguage]]. *)
Record Snippet : Type :=
  mkSnippet { id : string; label : string; code : ObjectPrototype.Value }.

(** [c.code && c.code[selectedLanguage]] as a condition: [c.code] is an
    object, hence truthy; the lookup is truthy for a snippet that is not
    the empty string, and for an inherited member. *)
Definition hasSnippet (selectedLanguage : string) (c : DiagramComponent.t) : bool :=
  ObjectPrototype.truthy (ObjectPrototype.read (DiagramComponent.code c) selectedLanguage).

Definition snippetOf (selectedLanguage : string) (c : DiagramComponent.t) : Snippet :=
  mkSnippet (DiagramComponent.id c) (DiagramComponent.label c)
            (ObjectPrototype.read (DiagramComponent.code c) selectedLanguage).

Definition codeSnippets (pattern : DesignPattern.t) (selectedLanguage : string)
    : list Snippet :=
  map (snippetOf selectedLanguage)
      (List.filter (hasSnippet selectedLanguage)
                   (Diagram.components (DesignPattern.diagram pattern))).

(** A card of the tab panel: the heading, the [language] handed to the
    highlighter, [highlighterLanguageMap[selectedLanguage]], and the
    text, [snippet.code?.trim() ?? '']. *)
Record Card : Type :=
  mkCard { heading : string; language : ObjectPrototype.Value; text : string }.

(** [codeSnippets.map(snippet => ...)]; [None] when building a card
    throws. *)
Fixpoint cardsOf (language : ObjectPrototype.Value) (snippets : list Snippet)
    : option (list Card) :=
  match snippets with
  | [] => Some []
  | snippet :: rest =>
      match ObjectPrototype.trimmed (code snippet) with
      | None => None
      | Some text =>
          match cardsOf language rest with
          | None => None
          | Some cards => Some (mkCard (label snippet) language text :: cards)
          end
      end
  end.

(** What the tab panel evaluates to. [TypeError]: the expression
    throws, and with it the render of the modal. *)
Inductive Panel : Type :=
| Cards (cards : list Card)
| NoSnippets (message : string)
| TypeError.

Record View : Type := mkView { tabs : list CodePane.Tab; panel : Panel }.

Definition render (pattern : DesignPattern.t) (selectedLanguage : string) : View :=
  mkView
    (map (CodePane.tab selectedLanguage) (availableLanguages pattern))
    (match codeSnippets pattern selectedLanguage with
     | [] => NoSnippets "No code snippets available for this language."
     | snippets =>
         match cardsOf (ObjectPrototype.read CodePane.highlighterLanguageMap selectedLanguage)
                       snippets with
         | Some cards => Cards cards
         | None => TypeError
         end
     end).

(** Each string is at most the next, in the order of [String.leb]. *)
Fixpoint ascending (langs : list string) : bool :=
  match langs with
  | a :: ((b :: _) as rest) => String.leb a b && ascending rest
  | _ => true
  end.

(** [handleEsc]: the Escape key closes the modal, no other key does. *)
Definition handleEsc (key : string) : bool := String.eqb key "Escape".

End AllCodeModal.

(* ===================================================================== *)
(** * Sidebar: the patterns by category *)
(* ===================================================================== *)

(** components/Sidebar.tsx (src/unnamed/part_008). *)
Module Sidebar.

Definition category_eqb (a b : PatternCategory) : bool :=
  match a, b with
  | Creational, Creational | Structural, Structural | Behavioral, Behavioral => true
  | _, _ => false
  end.

Definition categories : list PatternCategory := [Creational; Structural; Behavioral].

(** [Record<PatternCategory, boolean>] *)
Record Expanded : Type := mkExpanded {
  creational : bool;
  structural : bool;
  behavioral : bool
}.

(** [expandedCategories[category]] *)
Definition get (e : Expanded) (category : PatternCategory) : bool :=
  match category with
  | Creational => creational e
  | Structural => structural e
  | Behavioral => behavioral e
  end.

(** [{ ...prev, [category]: value }] *)
Definition set (e : Expanded) (category : PatternCategory) (value : bool) : Expanded :=
  match category with
  | Creational => mkExpanded value (structural e) (behavioral e)
  | Structural => mkExpanded (creational e) value (behavioral e)
  | Behavioral => mkExpanded (creational e) (structural e) value
  end.

Definition initial : Expanded := mkExpanded false false false.

Definition toggleCategory (category : PatternCategory) (prev : Expanded) : Expanded :=
  set prev category (negb (get prev category)).

(** [groupedPatterns[category]] *)
Definition groupedPatterns (patterns : list DesignPattern.t) (category : PatternCategory)
    : list DesignPattern.t :=
  List.filter (fun p => category_eqb (DesignPattern.category p) category) patterns.

(** The pattern buttons the navigation shows, top to bottom: under each
    category that is expanded, its patterns. *)
Definition shown (patterns : list DesignPattern.t) (e : Expanded) : list DesignPattern.t :=
  flat_map (fun category => if get e category then groupedPatterns patterns category else [])
           categories.

End Sidebar.

(* ===================================================================== *)
(** * PatternDetails: the comparison text *)
(* ===================================================================== *)

(** components/PatternDetails.tsx (src/components/InteractiveDiagram.tsx,
    lines 196-270): the 'compare' tab splits the comparison text into
    paragraphs and each paragraph into plain and bold parts. Strings are
    read as sequences of ASCII characters. *)
Module PatternDetails.

Definition isNewline (c : ascii) : bool := (nat_of_ascii c =? 10)%nat.

(** The line terminators, which [.] does not match. *)
Definition isLineTerminator (c : ascii) : bool :=
  ((nat_of_ascii c =? 10)%nat || (nat_of_ascii c =? 13)%nat)%bool.

Definition isStar (c : ascii) : bool := (nat_of_ascii c =? 42)%nat.

(** [text.split('\n\n')]: the pieces between the occurrences of two
    line feeds, found from the left. *)
Fixpoint splitParagraphs (text : string) : list string :=
  match text with
  | EmptyString => [EmptyString]
  | String c rest =>
      let extend :=
        match splitParagraphs rest with
        | first :: others => String c first :: others
        | [] => [String c EmptyString]
        end in
      if isNewline c then
        match rest with
        | String c' rest' =>
            if isNewline c' then EmptyString :: splitParagraphs rest' else extend
        | EmptyString => extend
        end
      else extend
  end.

(** The lazy run and the closing stars, from the start of [s]: the
    shortest run of characters that are no line terminators up to two
    stars, and what follows the stars. *)
Fixpoint lazyInner (s : string) : option (string * string) :=
  match s with
  | EmptyString => None
  | String c rest =>
      let further :=
        if isLineTerminator c then None
        else match lazyInner rest with
             | Some (inner, after) => Some (String c inner, after)
             | None => None
             end in
      if isStar c then
        match rest with
        | String c' after => if isStar c' then Some (EmptyString, after) else further
        | EmptyString => further
        end
      else further
  end.

(** The regular expression of the source, two stars, a lazy run of
    [.], two stars, matched at the start of [s]: the match and the
    rest. *)
Definition matchBold (s : string) : option (string * string) :=
  match s with
  | String c (String c' rest) =>
      if (isStar c && isStar c')%bool then
        match lazyInner rest with
        | Some (inner, after) => Some (("**" ++ inner ++ "**")%string, after)
        | None => None
        end
      else None
  | _ => None
  end.

(** [paragraph.split] on the regular expression above, captured: plain
    text and matches in turn, from a plain part to a plain part; a plain
    part may be empty.
    The search resumes after each match, so [fuel] need not exceed the
    length of the paragraph. *)
Fixpoint splitBoldFrom (fuel : nat) (s : string) : list string :=
  match fuel with
  | O => [s]
  | S fuel =>
      match matchBold s with
      | Some (bold, after) => EmptyString :: bold :: splitBoldFrom fuel after
      | None =>
          match s with
          | EmptyString => [EmptyString]
          | String c rest =>
              match splitBoldFrom fuel rest with
              | first :: others => String c first :: others
              | [] => [String c EmptyString]
              end
          end
      end
  end.

Definition splitBold (paragraph : string) : list string :=
  splitBoldFrom (String.length paragraph) paragraph.

(** [part.startsWith('**') && part.endsWith('**')] *)
Definition startsWithStars (part : string) : bool := String.prefix "**" part.
Definition endsWithStars (part : string) : bool :=
  String.prefix "**" (CodePane.reverse part "").

(** [part.slice(2, -2)] *)
Definition slice_2 (part : string) : string :=
  String.substring 2 (String.length part - 4) part.

Inductive Part : Type :=
| Strong (text : string)
| Plain (text : string).

Definition renderPart (part : string) : Part :=
  if (startsWithStars part && endsWithStars part)%bool then Strong (slice_2 part)
  else Plain part.

(** The paragraphs of the 'compare' tab. *)
Definition renderComparison (comparison : string) : list (list Part) :=
  map (fun paragraph => map renderPart (splitBold paragraph))
      (splitParagraphs (CodePane.trim comparison)).

(** The matches among the parts of a split: every second part. *)
Fixpoint matchesOf (parts : list string) : list string :=
  match parts with
  | _ :: bold :: rest => bold :: matchesOf rest
  | _ => []
  end.

(** Whether two stars in a row, or a line terminator, occur in [s]. *)
Fixpoint hasStars (s : string) : bool :=
  match s with
  | String c ((String c' _) as rest) => (isStar c && isStar c') || hasStars rest
  | _ => false
  end.

Fixpoint hasLineTerminator (s : string) : bool :=
  match s with
  | String c rest => isLineTerminator c || hasLineTerminator rest
  | EmptyString => false
  end.

(** Whether the regular expression matches nowhere in [s]. *)
Fixpoint noMatch (s : string) : bool :=
  match matchBold s with
  | Some _ => false
  | None =>
      match s with
      | String _ rest => noMatch rest
      | EmptyString => true
      end
  end.

(** Whether two line feeds in a row occur in [s]. *)
Fixpoint hasBlankLine (s : string) : bool :=
  match s with
  | String c ((String c' _) as rest) => (isNewline c && isNewline c') || hasBlankLine rest
  | _ => false
  end.

End PatternDetails.

(** Kinds of events, to tell traces apart. *)
Module TraceKinds.

Definition isWheel {num : Type} (ev : InteractiveDiagram.Event num) : bool :=
  match ev with
  | InteractiveDiagram.Wheel _ _ => true
  | _ => false
  end.

(** The two events whose handlers call [setPinnedComponent]. *)
Definition changesPin (ev : PatternViewer.Event) : bool :=
  match ev with
  | PatternViewer.PinComponent _ | PatternViewer.ClosePane => true
  | _ => false
  end.

(** The hovered and the pinned component, when set, are among
    [components]. *)
Definition within (components : list DiagramComponent.t) (s : PatternViewer.State) : Prop :=
  (forall c, PatternViewer.hoveredComponent s = Some c -> In c components)
  /\ (forall c, PatternViewer.pinnedComponent s = Some c -> In c components).

End TraceKinds.

(* ===================================================================== *)
(** * binary64: comparison and rounding *)
(* ===================================================================== *)

(** Facts on the specification of binary64 operations that the zoom
    bounds rest on: comparing two numbers the other way round gives the
    opposite result, and a product of two finite numbers is a number. *)
Module Binary64.

Lemma SFcompare_antisym x y c :
  SFcompare x y = Some c -> SFcompare y x = Some (CompOpp c).
Proof.
  destruct x as [sx|sx| |sx mx ex], y as [sy|sy| |sy my ey]; simpl;
    try discriminate; intros [= <-]; f_equal;
    try (destruct sx; reflexivity);
    try (destruct sy; reflexivity);
    try (destruct sx, sy; reflexivity).
  destruct sx, sy; try reflexivity;
    rewrite (Z.compare_antisym ex ey);
    destruct (ex ?= ey); simpl; try reflexivity;
    rewrite (ZC4 my mx); destruct (Pos.compare_cont Eq mx my); reflexivity.
Qed.

Lemma SFcompare_numbers x y :
  x <> S754_nan -> y <> S754_nan -> exists c, SFcompare x y = Some c.
Proof.
  intros Hx Hy.
  destruct x as [sx|sx| |sx mx ex], y as [sy|sy| |sy my ey];
    try congruence; simpl; eauto.
Qed.

Lemma not_ltb_leb x y :
  is_number x -> is_number y -> PrimFloat.ltb x y = false -> PrimFloat.leb y x = true.
Proof.
  unfold is_number. intros Hx Hy.
  rewrite FloatAxioms.ltb_spec, FloatAxioms.leb_spec. unfold SFltb, SFleb.
  destruct (SFcompare_numbers _ _ Hx Hy) as [c Hc].
  rewrite Hc, (SFcompare_antisym _ _ _ Hc).
  destruct c; simpl; congruence.
Qed.

(** Rounding keeps a mantissa that is not negative so. *)
Lemma shr_1_nonneg mrs : 0 <= shr_m mrs -> 0 <= shr_m (shr_1 mrs).
Proof.
  destruct mrs as [m r s]; simpl.
  destruct m as [|p|p]; simpl; try lia; destruct p; simpl; lia.
Qed.

Lemma iter_pos_shr_1_nonneg n : forall mrs,
  0 <= shr_m mrs -> 0 <= shr_m (SpecFloat.iter_pos shr_1 n mrs).
Proof.
  induction n as [n IH|n IH|]; intros mrs Hm; simpl.
  - apply IH, IH, shr_1_nonneg, Hm.
  - apply IH, IH, Hm.
  - apply shr_1_nonneg, Hm.
Qed.

Lemma shr_nonneg mrs e n : 0 <= shr_m mrs -> 0 <= shr_m (fst (shr mrs e n)).
Proof.
  intros Hm. destruct n; simpl; auto using iter_pos_shr_1_nonneg.
Qed.

Lemma shr_record_of_loc_m m l : shr_m (shr_record_of_loc m l) = m.
Proof. destruct l as [|[]]; reflexivity. Qed.

Lemma shr_fexp_nonneg p e m ex l :
  0 <= m -> 0 <= shr_m (fst (shr_fexp p e m ex l)).
Proof.
  intros Hm. unfold shr_fexp. apply shr_nonneg.
  rewrite shr_record_of_loc_m. exact Hm.
Qed.

Lemma round_nearest_even_nonneg m l : 0 <= m -> 0 <= round_nearest_even m l.
Proof.
  intros Hm. destruct l as [|[]]; simpl; try lia.
  destruct (Z.even m); lia.
Qed.

Lemma binary_round_aux_number p e sx mx ex lx :
  0 <= mx -> binary_round_aux p e sx mx ex lx <> S754_nan.
Proof.
  intros Hm. unfold binary_round_aux.
  pose proof (shr_fexp_nonneg p e mx ex lx Hm) as H1.
  destruct (shr_fexp p e mx ex lx) as [mrs' e']. simpl in H1.
  pose proof (shr_fexp_nonneg p e _ e' loc_Exact
                (round_nearest_even_nonneg _ (loc_of_shr_record mrs') H1)) as H2.
  destruct (shr_fexp p e (round_nearest_even (shr_m mrs') (loc_of_shr_record mrs'))
              e' loc_Exact) as [mrs'' e'']. simpl in H2.
  destruct (shr_m mrs'') as [|m|m]; try lia; try discriminate.
  destruct (e'' <=? e - p); discriminate.
Qed.

Lemma mul_is_number x y : is_finite x -> is_finite y -> is_number (PrimFloat.mul x y).
Proof.
  intros (sx & mx & ex & Hx) (sy & my & ey & Hy). unfold is_number.
  rewrite FloatAxioms.mul_spec, Hx, Hy. unfold SF64mul. simpl.
  apply binary_round_aux_number. lia.
Qed.

Lemma between_is_finite lo hi n :
  is_finite lo -> is_finite hi -> between lo hi n = true ->
  PrimFloat.ltb 0 lo = true -> is_finite n.
Proof.
  intros (sl & ml & el & Hlo) (sh & mh & eh & Hhi) Hb Hpos.
  apply andb_prop in Hb as [Hl Hh].
  rewrite FloatAxioms.leb_spec in Hl, Hh. rewrite FloatAxioms.ltb_spec in Hpos.
  rewrite Hlo in Hl, Hpos. rewrite Hhi in Hh.
  unfold SFleb, SFltb in *.
  destruct (Prim2SF n) as [s|s| |s m e] eqn:Hn; simpl in *.
  - destruct sl; discriminate.
  - destruct s; discriminate.
  - discriminate.
  - exists s, m, e. exact Hn.
Qed.

(** The zeros are the numbers equal to [0]. *)
Lemma eqb_0_zero n : PrimFloat.eqb n 0 = true -> n = 0%float \/ n = (-0)%float.
Proof.
  rewrite FloatAxioms.eqb_spec. unfold SFeqb. intros Heq.
  assert (Hz : exists s, Prim2SF n = S754_zero s).
  { destruct (Prim2SF n) as [s|s| |s m e]; simpl in Heq;
      try discriminate; eauto; destruct s; discriminate. }
  destruct Hz as [s Hz]. rewrite <- (SF2Prim_Prim2SF n), Hz.
  destruct s; [right | left]; reflexivity.
Qed.

End Binary64.

(* ===================================================================== *)
(** * binary64: the error of a sum and of a difference *)
(* ===================================================================== *)

(** A sum or a difference of two binary64 numbers that does not overflow
    is the exact one rounded to nearest: it is off by at most [2^-53] of
    its own magnitude. Read off [SpecFloat]'s [SFadd] and [SFsub], which
    the primitive operations are specified by. *)
Module Rounding.

Lemma digits2_pos_bounds p :
  2 ^ (Zpos (digits2_pos p) - 1) <= Zpos p < 2 ^ Zpos (digits2_pos p).
Proof.
  induction p as [p IH|p IH|]; cbn [digits2_pos].
  - rewrite Pos2Z.inj_succ. replace (Z.succ (Zpos (digits2_pos p)) - 1) with (Z.succ (Zpos (digits2_pos p) - 1)) by lia.
    rewrite !Z.pow_succ_r by lia. lia.
  - rewrite Pos2Z.inj_succ. replace (Z.succ (Zpos (digits2_pos p)) - 1) with (Z.succ (Zpos (digits2_pos p) - 1)) by lia.
    rewrite !Z.pow_succ_r by lia. lia.
  - cbn. lia.
Qed.

Lemma digits2_pos_unique p d :
  2 ^ (d - 1) <= Zpos p < 2 ^ d -> Zpos (digits2_pos p) = d.
Proof.
  intros [Hlo Hhi]. pose proof (digits2_pos_bounds p) as [Hlo' Hhi'].
  destruct (Z.lt_trichotomy (Zpos (digits2_pos p)) d) as [Hlt|[Heq|Hgt]]; [|exact Heq|].
  - assert (2 ^ Zpos (digits2_pos p) <= 2 ^ (d - 1)) by (apply Z.pow_le_mono_r; lia). lia.
  - assert (0 <= d \/ d < 0) as [Hd|Hd] by lia.
    + assert (2 ^ d <= 2 ^ (Zpos (digits2_pos p) - 1)) by (apply Z.pow_le_mono_r; lia). lia.
    + rewrite (Z.pow_neg_r 2 d) in Hhi by lia. lia.
Qed.

Lemma shr_1_inv M H mrs : 0 < H -> shr_inv M H mrs -> shr_inv M (2 * H) (shr_1 mrs).
Proof.
  intros HH [Hm (t & Ht & HM & Hs)]. destruct mrs as [m r s]. cbn in *.
  assert (Hstep : forall m' (b : bool), m = 2 * m' + b2z b -> 0 <= m' ->
            shr_inv M (2 * H) (Build_shr_record m' b (r || s))).
  { intros m' b Hm' Hm0. split; [exact Hm0|]. exists (b2z r * H + t). cbn.
    split; [destruct r; cbn; lia|]. split; [rewrite HM, Hm'; ring|].
    rewrite Hs.
    destruct (Z.eqb_spec t 0), (Z.eqb_spec (b2z r * H + t) 0), r; cbn in *;
      try reflexivity; lia. }
  destruct m as [|[p|p|]|p]; try lia.
  - apply (Hstep 0 false); cbn; lia.
  - apply (Hstep (Zpos p) true); cbn; lia.
  - apply (Hstep (Zpos p) false); cbn; lia.
  - apply (Hstep 0 true); cbn; lia.
Qed.

Lemma iter_shr_1_inv M p : forall H mrs,
  0 < H -> shr_inv M H mrs -> shr_inv M (H * 2 ^ Zpos p) (SpecFloat.iter_pos shr_1 p mrs).
Proof.
  induction p as [p IH|p IH|]; intros H mrs HH Hinv; cbn [SpecFloat.iter_pos].
  - assert (Hp : 0 < 2 ^ Zpos p) by (apply Z.pow_pos_nonneg; lia).
    replace (H * 2 ^ Zpos p~1) with (2 * H * 2 ^ Zpos p * 2 ^ Zpos p).
    + apply IH; [nia|]. apply IH; [lia|]. apply shr_1_inv; assumption.
    + replace (Zpos p~1) with (Zpos p + Zpos p + 1) by lia.
      rewrite !Z.pow_add_r, Z.pow_1_r by lia. ring.
  - assert (Hp : 0 < 2 ^ Zpos p) by (apply Z.pow_pos_nonneg; lia).
    replace (H * 2 ^ Zpos p~0) with (H * 2 ^ Zpos p * 2 ^ Zpos p).
    + apply IH; [nia|]. apply IH; assumption.
    + replace (Zpos p~0) with (Zpos p + Zpos p) by lia.
      rewrite !Z.pow_add_r by lia. ring.
  - rewrite Z.pow_1_r. replace (H * 2) with (2 * H) by ring. apply shr_1_inv; assumption.
Qed.

(** Rounding to nearest: off by at most half of the weight shifted out. *)
Lemma round_nearest_even_inv M H mrs :
  0 < H -> shr_inv M H mrs ->
  let m1 := round_nearest_even (shr_m mrs) (loc_of_shr_record mrs) in
  shr_m mrs <= m1 <= shr_m mrs + 1 /\ Z.abs (2 * m1 * H - 2 * M) <= H.
Proof.
  intros HH [Hm (t & Ht & HM & Hs)]. destruct mrs as [m r s]. cbn in *.
  destruct (Z.eqb_spec t 0); subst s; destruct r; cbn in *.
  - destruct (Z.even m); split; try lia; nia.
  - split; lia.
  - split; [lia|]. nia.
  - split; [lia|]. lia.
Qed.

Lemma fexp_eq e : fexp prec emax e = Z.max (e - 53) (-1074).
Proof. reflexivity. Qed.

Lemma shr_nop mrs e n : n <= 0 -> shr mrs e n = (mrs, e).
Proof. destruct n; [reflexivity | lia | reflexivity]. Qed.

Lemma shr_shift mrs e n :
  0 < n -> exists p, n = Zpos p /\ shr mrs e n = (SpecFloat.iter_pos shr_1 p mrs, e + n).
Proof. destruct n as [|p|p]; try lia. intros _. exists p. split; reflexivity. Qed.

(** The result of rounding the number [M * 2^E], in units of 2^-1074. *)
Lemma binary_round_aux_error s M E :
  -1074 <= E ->
  match binary_round_aux prec emax s (Zpos M) E loc_Exact with
  | S754_finite s' m e =>
      s' = s /\ -1074 <= e
      /\ Z.abs (Zpos m * 2 ^ (e + 1074) - Zpos M * 2 ^ (E + 1074)) * 2 ^ 53
         <= Zpos m * 2 ^ (e + 1074)
  | S754_infinity _ => True
  | _ => False
  end.
Proof.
  intros HE. unfold binary_round_aux, shr_fexp.
  cbn [Zdigits2 shr_record_of_loc]. rewrite fexp_eq.
  pose proof (digits2_pos_bounds M) as HM. set (d := Zpos (digits2_pos M)) in *.
  assert (HG : 0 < 2 ^ (E + 1074)) by (apply Z.pow_pos_nonneg; lia).
  destruct (Z_le_gt_dec d 53) as [Hd|Hd].
  - (* nothing is shifted out *)
    rewrite shr_nop by lia. cbn [shr_m loc_of_shr_record round_nearest_even].
    cbn [Zdigits2 shr_record_of_loc]. fold d. rewrite fexp_eq, shr_nop by lia.
    cbn [shr_m]. destruct (E <=? emax - prec); [|exact I].
    split; [reflexivity|]. split; [exact HE|].
    rewrite Z.sub_diag. cbn [Z.abs Z.mul]. lia.
  - (* [d - 53] bits are shifted out *)
    replace (Z.max (d + E - 53) (-1074) - E) with (d - 53) by lia.
    destruct (shr_shift (Build_shr_record (Zpos M) false false) E (d - 53)) as (p & Hp & ->);
      [lia|].
    assert (Hinv : shr_inv (Zpos M) (1 * 2 ^ Zpos p)
                           (SpecFloat.iter_pos shr_1 p (Build_shr_record (Zpos M) false false))).
    { apply iter_shr_1_inv; [lia|]. split; [cbn; lia|]. exists 0. cbn. repeat split; lia. }
    rewrite Z.mul_1_l in Hinv.
    set (mrs' := SpecFloat.iter_pos shr_1 p _) in *.
    assert (HH : 0 < 2 ^ Zpos p) by (apply Z.pow_pos_nonneg; lia).
    pose proof (round_nearest_even_inv _ _ _ HH Hinv) as [Hm1 Herr]. cbn zeta in Hm1, Herr.
    set (m1 := round_nearest_even (shr_m mrs') (loc_of_shr_record mrs')) in *.
    destruct Hinv as [Hm0 (t & Ht & HMt & _)].
    assert (Hpow : 2 ^ (d - 1) = 2 ^ 52 * 2 ^ Zpos p /\ 2 ^ d = 2 ^ 53 * 2 ^ Zpos p).
    { split.
      - replace (d - 1) with (52 + Zpos p) by lia. apply Z.pow_add_r; lia.
      - replace d with (53 + Zpos p) at 1 by lia. apply Z.pow_add_r; lia. }
    destruct Hpow as [Hlo Hhi]. rewrite Hlo, Hhi in HM.
    set (H := 2 ^ Zpos p) in *.
    assert (Hm : 2 ^ 52 <= shr_m mrs' < 2 ^ 53).
    { assert (b2z (shr_r mrs') <= 1) by (destruct (shr_r mrs'); cbn; lia).
      assert (0 <= b2z (shr_r mrs')) by (destruct (shr_r mrs'); cbn; lia).
      split; nia. }
    assert (HGn : 2 ^ (E + (d - 53) + 1074) = H * 2 ^ (E + 1074)).
    { replace (E + (d - 53) + 1074) with (Zpos p + (E + 1074)) by lia.
      apply Z.pow_add_r; lia. }
    destruct m1 as [|q|q] eqn:Hq; try lia.
    destruct (Z_lt_le_dec (Zpos q) (2 ^ 53)) as [Hnorm|Hcarry].
    + (* no carry *)
      cbn [Zdigits2 shr_record_of_loc].
      rewrite (digits2_pos_unique q 53) by (change (53 - 1) with 52; lia).
      rewrite fexp_eq, shr_nop by lia. cbn [shr_m].
      destruct (E + (d - 53) <=? emax - prec); [|exact I].
      split; [reflexivity|]. split; [lia|].
      rewrite HGn. set (G := 2 ^ (E + 1074)) in *.
      replace (Zpos q * (H * G) - Zpos M * G) with ((Zpos q * H - Zpos M) * G) by ring.
      rewrite Z.abs_mul, (Z.abs_eq G) by lia.
      assert (2 * Z.abs (Zpos q * H - Zpos M) <= H) by lia.
      nia.
    + (* the rounding carried to 2^53 *)
      assert (Hq53 : q = 9007199254740992%positive) by lia.
      subst q.
      cbn [Zdigits2 shr_record_of_loc].
      change (Zpos (digits2_pos 9007199254740992)) with 54.
      rewrite fexp_eq.
      replace (Z.max (54 + (E + (d - 53)) - 53) (-1074) - (E + (d - 53))) with 1 by lia.
      cbn [shr SpecFloat.iter_pos shr_1 shr_m].
      destruct (E + (d - 53) + 1 <=? emax - prec); [|exact I].
      split; [reflexivity|]. split; [lia|].
      replace (E + (d - 53) + 1 + 1074) with (1 + (E + (d - 53) + 1074)) by lia.
      rewrite Z.pow_add_r, HGn by lia. set (G := 2 ^ (E + 1074)) in *.
      change (2 ^ 1) with 2.
      replace (4503599627370496 * (2 * (H * G)) - Zpos M * G)
        with ((9007199254740992 * H - Zpos M) * G) by ring.
      rewrite Z.abs_mul, (Z.abs_eq G) by lia.
      assert (2 * Z.abs (9007199254740992 * H - Zpos M) <= H) by lia.
      nia.
Qed.

Lemma iter_xO_value m d : Zpos (Pos.iter xO m d) = Zpos m * 2 ^ Zpos d.
Proof.
  induction d as [|d IH] using Pos.peano_ind.
  - cbn. lia.
  - rewrite Pos.iter_succ, Pos2Z.inj_xO, IH, Pos2Z.inj_succ, Z.pow_succ_r by lia. ring.
Qed.

(** Aligning a mantissa to a smaller exponent keeps the number. *)
Lemma shl_align_value m e e' :
  e' <= e ->
  Zpos (fst (shl_align m e e')) = Zpos m * 2 ^ (e - e')
  /\ snd (shl_align m e e') = e'.
Proof.
  intros Hle. unfold shl_align. destruct (e' - e) as [|d|d] eqn:Hd; try lia.
  - replace (e - e') with 0 by lia. cbn [fst snd]. split; lia.
  - cbn [fst snd]. rewrite iter_xO_value. replace (e - e') with (Zpos d) by lia.
    split; reflexivity.
Qed.

Lemma shl_align_nop m e e' : e <= e' -> shl_align m e e' = (m, e).
Proof. intros Hle. unfold shl_align. destruct (e' - e) eqn:Hd; try reflexivity. lia. Qed.

Lemma binary_round_error s M E :
  -1074 <= E ->
  match binary_round prec emax s M E with
  | S754_finite s' m e =>
      s' = s /\ -1074 <= e
      /\ Z.abs (Zpos m * 2 ^ (e + 1074) - Zpos M * 2 ^ (E + 1074)) * 2 ^ 53
         <= Zpos m * 2 ^ (e + 1074)
  | S754_infinity _ => True
  | _ => False
  end.
Proof.
  intros HE. unfold binary_round. rewrite fexp_eq.
  set (f := Z.max (Zpos (digits2_pos M) + E - 53) (-1074)).
  destruct (Z_le_gt_dec E f) as [Hf|Hf].
  - rewrite shl_align_nop by exact Hf. apply binary_round_aux_error, HE.
  - destruct (shl_align_value M E f) as [Hm He]; [lia|].
    destruct (shl_align M E f) as [mz ez]. cbn [fst snd] in Hm, He. subst ez.
    pose proof (binary_round_aux_error s mz f) as Haux.
    destruct (binary_round_aux prec emax s (Zpos mz) f loc_Exact) as [| | |s' m e];
      try exact (Haux ltac:(lia)).
    replace (Zpos M * 2 ^ (E + 1074)) with (Zpos mz * 2 ^ (f + 1074)); [apply Haux; lia|].
    rewrite Hm. replace (E + 1074) with ((E - f) + (f + 1074)) by lia.
    rewrite (Z.pow_add_r 2 (E - f)) by lia. ring.
Qed.

Lemma valid_exponent s m e : SFvalid (S754_finite s m e) -> -1074 <= e.
Proof.
  unfold SFvalid, valid_binary, bounded, canonical_mantissa. rewrite fexp_eq.
  intros Hv. apply andb_prop in Hv as [Hc _]. apply Z.eqb_eq in Hc. lia.
Qed.

Lemma binary_normalize_error S E :
  -1074 <= E ->
  match binary_normalize prec emax S E false with
  | S754_infinity _ | S754_nan => True
  | r => Z.abs (SFscaled r - S * 2 ^ (E + 1074)) * 2 ^ 53 <= Z.abs (SFscaled r)
  end.
Proof.
  intros HE. destruct S as [|M|M]; cbn [binary_normalize].
  - cbn. lia.
  - pose proof (binary_round_error false M E HE) as Hr.
    destruct (binary_round prec emax false M E) as [| | |s m e]; try exact I; try contradiction.
    destruct Hr as (-> & He & Herr). cbn [SFscaled cond_Zopp].
    assert (0 < 2 ^ (e + 1074)) by (apply Z.pow_pos_nonneg; lia).
    rewrite (Z.abs_eq (Zpos m * _)) by lia. exact Herr.
  - pose proof (binary_round_error true M E HE) as Hr.
    destruct (binary_round prec emax true M E) as [| | |s m e]; try exact I; try contradiction.
    destruct Hr as (-> & He & Herr). cbn [SFscaled cond_Zopp].
    assert (0 < 2 ^ (e + 1074)) by (apply Z.pow_pos_nonneg; lia).
    replace (- (Zpos m * 2 ^ (e + 1074)) - Zneg M * 2 ^ (E + 1074))
      with (- (Zpos m * 2 ^ (e + 1074) - Zpos M * 2 ^ (E + 1074))) by lia.
    rewrite !Z.abs_opp, (Z.abs_eq (Zpos m * _)) by lia. exact Herr.
Qed.

(** The two mantissas of a sum, aligned to the smaller exponent. *)
Lemma aligned_value sx mx ex ez :
  -1074 <= ez -> ez <= ex ->
  cond_Zopp sx (Zpos (fst (shl_align mx ex ez))) * 2 ^ (ez + 1074)
  = SFscaled (S754_finite sx mx ex).
Proof.
  intros Hz Hle. destruct (shl_align_value mx ex ez Hle) as [-> _].
  cbn [SFscaled]. replace (ex + 1074) with ((ex - ez) + (ez + 1074)) by lia.
  rewrite (Z.pow_add_r 2 (ex - ez)) by lia. destruct sx; cbn [cond_Zopp]; ring.
Qed.

Lemma SFadd_error x y :
  SFvalid x -> SFvalid y -> SFfinite (SFadd prec emax x y) = true ->
  Z.abs (SFscaled (SFadd prec emax x y) - (SFscaled x + SFscaled y)) * 2 ^ 53
  <= Z.abs (SFscaled (SFadd prec emax x y)).
Proof.
  intros Hx Hy Hfin.
  destruct x as [sx|sx| |sx mx ex], y as [sy|sy| |sy my ey];
    try discriminate Hfin;
    try (destruct sx, sy; cbn in *; try discriminate; lia);
    try (cbn [SFadd SFscaled]; rewrite ?Z.add_0_l, ?Z.add_0_r, Z.sub_diag; cbn; lia).
  apply valid_exponent in Hx, Hy. cbn [SFadd] in *.
  set (ez := Z.min ex ey) in *.
  pose proof (binary_normalize_error
                (cond_Zopp sx (Zpos (fst (shl_align mx ex ez)))
                 + cond_Zopp sy (Zpos (fst (shl_align my ey ez)))) ez ltac:(lia)) as Hn.
  rewrite Z.mul_add_distr_r, !aligned_value in Hn by lia.
  destruct (binary_normalize _ _ _ _ _); try discriminate Hfin; exact Hn.
Qed.

Lemma SFsub_error x y :
  SFvalid x -> SFvalid y -> SFfinite (SFsub prec emax x y) = true ->
  Z.abs (SFscaled (SFsub prec emax x y) - (SFscaled x - SFscaled y)) * 2 ^ 53
  <= Z.abs (SFscaled (SFsub prec emax x y)).
Proof.
  intros Hx Hy Hfin.
  destruct x as [sx|sx| |sx mx ex], y as [sy|sy| |sy my ey];
    try discriminate Hfin;
    try (destruct sx, sy; cbn in *; try discriminate; lia);
    try (cbn [SFsub SFscaled]; rewrite ?Z.sub_0_r, Z.sub_diag; cbn; lia).
  apply valid_exponent in Hx, Hy. cbn [SFsub] in *.
  set (ez := Z.min ex ey) in *.
  pose proof (binary_normalize_error
                (cond_Zopp sx (Zpos (fst (shl_align mx ex ez)))
                 - cond_Zopp sy (Zpos (fst (shl_align my ey ez)))) ez ltac:(lia)) as Hn.
  rewrite Z.mul_sub_distr_r, !aligned_value in Hn by lia.
  destruct (binary_normalize _ _ _ _ _); try discriminate Hfin; exact Hn.
Qed.

Lemma SFadd_finite x y :
  SFfinite (SFadd prec emax x y) = true -> SFfinite x = true /\ SFfinite y = true.
Proof.
  destruct x as [sx|sx| |sx mx ex], y as [sy|sy| |sy my ey]; cbn;
    try (split; reflexivity); try discriminate;
    try (destruct sx, sy; cbn; discriminate).
Qed.

Lemma SFsub_finite x y :
  SFfinite (SFsub prec emax x y) = true -> SFfinite x = true /\ SFfinite y = true.
Proof.
  destruct x as [sx|sx| |sx mx ex], y as [sy|sy| |sy my ey]; cbn;
    try (split; reflexivity); try discriminate;
    try (destruct sx, sy; cbn; discriminate).
Qed.

Lemma isFinite_add a b :
  isFinite (a + b)%float = true -> isFinite a = true /\ isFinite b = true.
Proof. unfold isFinite. rewrite add_spec. apply SFadd_finite. Qed.

Lemma isFinite_sub a b :
  isFinite (a - b)%float = true -> isFinite a = true /\ isFinite b = true.
Proof. unfold isFinite. rewrite sub_spec. apply SFsub_finite. Qed.

(** A sum that does not overflow is off by at most 2^-53 of itself. *)
Lemma add_error (a b : float) :
  isFinite (a + b)%float = true ->
  Z.abs (scaled (a + b)%float - (scaled a + scaled b)) * 2 ^ 53
  <= Z.abs (scaled (a + b)%float).
Proof.
  unfold isFinite, scaled. rewrite add_spec. intros Hfin.
  apply SFadd_error; [apply Prim2SF_valid | apply Prim2SF_valid | exact Hfin].
Qed.

Lemma sub_error (a b : float) :
  isFinite (a - b)%float = true ->
  Z.abs (scaled (a - b)%float - (scaled a - scaled b)) * 2 ^ 53
  <= Z.abs (scaled (a - b)%float).
Proof.
  unfold isFinite, scaled. rewrite sub_spec. intros Hfin.
  apply SFsub_error; [apply Prim2SF_valid | apply Prim2SF_valid | exact Hfin].
Qed.

Local Open Scope Q_scope.

Lemma Qmake_minus (x y : Z) (D : positive) : (x # D) - (y # D) == (x - y) # D.
Proof. unfold Qeq. cbn. rewrite Pos2Z.inj_mul. ring. Qed.

Lemma Qmake_plus (x y : Z) (D : positive) : (x # D) + (y # D) == (x + y) # D.
Proof. unfold Qeq. cbn. rewrite Pos2Z.inj_mul. ring. Qed.

Lemma Q_tolerance (z c : Z) (D : positive) :
  (Z.abs z * 2 ^ 53 <= c)%Z -> Qabs (z # D) <= (1 # 2 ^ 53) * (c # D).
Proof.
  intros Hz. unfold Qle. cbn [Qabs Qmult Qnum Qden].
  rewrite Pos2Z.inj_mul. change (Zpos (2 ^ 53)) with (2 ^ 53)%Z.
  pose proof (Pos2Z.is_pos D). nia.
Qed.

(** [value] on some numbers: 0.1 is the fraction nearest to a tenth. *)
Example value_samples :
  value 1 == 1
  /\ value 0.5 == 1 # 2
  /\ value (-10) == -10
  /\ value 0.1 == 3602879701896397 # 2 ^ 55
  /\ value 0 == 0
  /\ value 5e-324 == 1 # 2 ^ 1074.
Proof. repeat split; vm_compute; reflexivity. Qed.

Lemma value_minus a b : value a - value b == (scaled a - scaled b) # (2 ^ 1074).
Proof. apply Qmake_minus. Qed.

Lemma value_abs_plus a b :
  Qabs (value a) + Qabs (value b) == (Z.abs (scaled a) + Z.abs (scaled b)) # (2 ^ 1074).
Proof. apply Qmake_plus. Qed.

Lemma Q_tolerance_4 (a b c d w x y z : Z) (D : positive) :
  (Z.abs ((a - b) - (c - d)) * 2 ^ 53 <= Z.abs w + Z.abs x + Z.abs y + Z.abs z)%Z ->
  Qabs (((a # D) - (b # D)) - ((c # D) - (d # D)))
  <= (1 # 2 ^ 53) * (Qabs (w # D) + Qabs (x # D) + Qabs (y # D) + Qabs (z # D)).
Proof.
  intros Hz.
  assert (Hdiff : ((a # D) - (b # D)) - ((c # D) - (d # D)) == ((a - b) - (c - d)) # D)
    by (rewrite !Qmake_minus; reflexivity).
  assert (Hsum : Qabs (w # D) + Qabs (x # D) + Qabs (y # D) + Qabs (z # D)
                 == (Z.abs w + Z.abs x + Z.abs y + Z.abs z) # D)
    by (cbn [Qabs]; rewrite !Qmake_plus; reflexivity).
  rewrite Hdiff, Hsum. apply Q_tolerance, Hz.
Qed.

(** Taking [q] off [p] and putting it back: the result is off [p] by at
    most [2^-53] of the difference and of the result. *)
Lemma round_trip_error (p q : float) :
  isFinite ((p - q) + q)%float = true ->
  Qabs (value ((p - q) + q)%float - value p)
  <= (1 # 2 ^ 53) * (Qabs (value (p - q)%float) + Qabs (value ((p - q) + q)%float)).
Proof.
  intros Hfin. pose proof (add_error _ _ Hfin) as Hadd.
  destruct (isFinite_add _ _ Hfin) as [Hdiff _].
  pose proof (sub_error _ _ Hdiff) as Hsub.
  rewrite value_minus, value_abs_plus. apply Q_tolerance. lia.
Qed.

Lemma round_trip_finite (p q : float) :
  isFinite ((p - q) + q)%float = true ->
  isFinite p = true /\ isFinite (p - q)%float = true.
Proof.
  intros Hfin. destruct (isFinite_add _ _ Hfin) as [Hdiff _].
  destruct (isFinite_sub _ _ Hdiff) as [Hp _]. split; assumption.
Qed.

Lemma drag_finite (x0 e0 e a : float) :
  isFinite ((e - (e0 - x0)) + a)%float = true ->
  isFinite e = true /\ isFinite e0 = true.
Proof.
  intros Hfin. destruct (isFinite_add _ _ Hfin) as [Hx1 _].
  destruct (isFinite_sub _ _ Hx1) as [He Hsp].
  destruct (isFinite_sub _ _ Hsp) as [He0 _]. split; assumption.
Qed.

(** A translation [x0] moved by a drag from [e0] to [e], and a
    coordinate [a] drawn with the translation before and after. *)
Lemma drag_error (x0 e0 e a : float) :
  let sp := (e0 - x0)%float in
  let x1 := (e - sp)%float in
  isFinite (x0 + a)%float = true ->
  isFinite (x1 + a)%float = true ->
  Qabs ((value (x1 + a)%float - value (x0 + a)%float) - (value e - value e0))
  <= (1 # 2 ^ 53)
     * (Qabs (value sp) + Qabs (value x1)
        + Qabs (value (x1 + a)%float) + Qabs (value (x0 + a)%float)).
Proof.
  intros sp x1 Hfin0 Hfin1.
  pose proof (add_error _ _ Hfin0) as Hadd0.
  pose proof (add_error _ _ Hfin1) as Hadd1.
  destruct (isFinite_add _ _ Hfin1) as [Hx1 _].
  pose proof (sub_error _ _ Hx1) as Hsub1.
  destruct (isFinite_sub _ _ Hx1) as [_ Hsp].
  pose proof (sub_error _ _ Hsp) as Hsub0.
  fold sp in Hsub0, Hsub1. fold x1 in Hsub1, Hadd1.
  unfold value. apply Q_tolerance_4. lia.
Qed.

Local Close Scope Q_scope.

End Rounding.

(* ===================================================================== *)
(** * Properties of InteractiveDiagram *)
(* ===================================================================== *)

Module Viewport.
Import InteractiveDiagram.

(** ** Panning *)

Section Pan.
Context {num : Type} `{Number num}.

Lemma handleMouseMove_idle (e : MouseEvent.t num) s :
  isPanning s = false -> handleMouseMove e s = s.
Proof. intros Hidle. unfold handleMouseMove. rewrite Hidle. reflexivity. Qed.

Lemma viewport_run_cons (s : State num) ev evs : run s (ev :: evs) = run (step s ev) evs.
Proof. reflexivity. Qed.

Lemma moves_idle (es : list (MouseEvent.t num)) : forall s : State num,
  isPanning s = false -> run s (map MouseMove es) = s.
Proof.
  induction es as [|e es IH]; intros s Hidle; [reflexivity|].
  cbn [map]. rewrite viewport_run_cons. cbn [step].
  rewrite handleMouseMove_idle by assumption. apply IH, Hidle.
Qed.

Lemma step_stays_idle (s : State num) ev :
  isPanning s = false -> beginsPan ev = false -> isPanning (step s ev) = false.
Proof.
  intros Hidle Hev. destruct ev as [e|e| | |svg e]; simpl in *.
  - unfold handleMouseDown. rewrite Hev. exact Hidle.
  - rewrite handleMouseMove_idle; assumption.
  - reflexivity.
  - reflexivity.
  - unfold handleWheel. destruct svg as [rect|]; [|exact Hidle].
    destruct (outOfBounds (newScale e s)); exact Hidle.
Qed.

(** While no pan is under way and none begins, the mouse-moves of a
    trace can be struck out of it. *)
Lemma moves_ignored_while_idle evs : forall s : State num,
  isPanning s = false -> existsb beginsPan evs = false ->
  run s evs = run s (filter (fun ev => negb (isMouseMove ev)) evs).
Proof.
  induction evs as [|ev evs IH]; intros s Hidle Hevs; [reflexivity|].
  cbn [existsb] in Hevs. apply orb_false_elim in Hevs as [Hev Hevs].
  rewrite viewport_run_cons.
  rewrite IH by (try apply step_stays_idle; assumption).
  destruct ev as [e|e| | |svg e]; cbn [filter isMouseMove negb];
    rewrite ?viewport_run_cons; try reflexivity.
  cbn [step]. rewrite handleMouseMove_idle by assumption. reflexivity.
Qed.

(** C9: [handleMouseUp] (endPan) twice is [handleMouseUp] once and
    leaves the transform alone; after it, any run of mouse-moves
    (continuePan) gives back the very state, and in a trace where no
    pan begins the mouse-moves can be struck out, whatever wheel and
    mouse-up events surround them. *)
Theorem endPan_idempotent_moves_ignored (s : State num) :
  handleMouseUp (handleMouseUp s) = handleMouseUp s
  /\ transform (handleMouseUp s) = transform s
  /\ (forall es : list (MouseEvent.t num),
        run (handleMouseUp s) (map MouseMove es) = handleMouseUp s)
  /\ (forall evs : list (Event num),
        existsb beginsPan evs = false ->
        run (handleMouseUp s) evs
        = run (handleMouseUp s) (filter (fun ev => negb (isMouseMove ev)) evs)).
Proof.
  repeat split.
  - intros es. apply moves_idle. reflexivity.
  - intros evs Hevs. apply moves_ignored_while_idle; [reflexivity | exact Hevs].
Qed.

End Pan.

(** On binary64: a pan is under way at (40, 25); after the mouse-up the
    moves that follow, around a zoom-in, leave no trace. *)
Lemma endPan_idempotent_moves_ignored_witness :
  let s := mkState (Transform.mk 40 25 1)%float true (Point.mk 10 5)%float in
  let move := MouseMove (MouseEvent.mk 300 200 (EventTarget.mk true []))%float in
  let zoomIn := Wheel (Some (DOMRect.mk 8 16)%float) (WheelEvent.mk 108 116 (-120))%float in
  run (handleMouseUp s) [move; zoomIn; move; MouseLeave; move]
  = run (handleMouseUp s) [zoomIn; MouseLeave].
Proof.
  intros s move zoomIn.
  apply (proj2 (proj2 (proj2 (endPan_idempotent_moves_ignored s)))
           [move; zoomIn; move; MouseLeave; move]).
  reflexivity.
Defined.

(** ** Zoom bounds, on binary64 *)

(** The factor [1 - Math.sign(deltaY) * scaleAmount] is one of
    [1], [1.1] and [0.9] when [deltaY] is a number. *)
Lemma zoom_factor (dy : float) :
  PrimFloat.is_nan dy = false ->
  let factor := (1 - float_sign dy * 0.1)%float in
  factor = 1%float \/ factor = (1 - -1 * 0.1)%float \/ factor = (1 - 1 * 0.1)%float.
Proof.
  intros Hnan. unfold float_sign. rewrite Hnan. cbn [orb].
  destruct (PrimFloat.eqb dy 0) eqn:Hzero.
  - left. destruct (Binary64.eqb_0_zero _ Hzero) as [-> | ->]; reflexivity.
  - destruct (PrimFloat.ltb dy 0); [right; left | right; right]; reflexivity.
Qed.

Lemma zoom_factor_finite (dy : float) :
  PrimFloat.is_nan dy = false -> is_finite (1 - float_sign dy * 0.1)%float.
Proof.
  intros Hnan.
  destruct (zoom_factor dy Hnan) as [-> | [-> | ->]];
    eexists _, _, _; vm_compute; reflexivity.
Qed.

(** A candidate that passes the guard of [handleWheel] is in bounds. *)
Lemma accepted_scale_in_bounds (e : WheelEvent.t float) (s : State float) :
  PrimFloat.is_nan (WheelEvent.deltaY e) = false ->
  scaleInBounds s = true ->
  outOfBounds (newScale e s) = false ->
  between minScale maxScale (newScale e s) = true.
Proof.
  intros Hnan Hin Hguard.
  assert (Hnum : is_number (newScale e s)).
  { apply Binary64.mul_is_number.
    - apply (Binary64.between_is_finite minScale maxScale); [| | exact Hin |];
        [eexists _, _, _; vm_compute; reflexivity ..| reflexivity].
    - apply zoom_factor_finite, Hnan. }
  apply orb_false_elim in Hguard as [Hlo Hhi].
  unfold between. apply andb_true_intro. split.
  - apply Binary64.not_ltb_leb; [exact Hnum | discriminate | exact Hlo].
  - apply Binary64.not_ltb_leb; [discriminate | exact Hnum | exact Hhi].
Qed.

Lemma step_keeps_scale_in_bounds (s : State float) ev :
  deltaY_is_number ev -> scaleInBounds s = true -> scaleInBounds (step s ev) = true.
Proof.
  intros Hev Hin. destruct ev as [e|e| | |svg e]; cbn [step].
  - unfold handleMouseDown. destruct (onBackground _); exact Hin.
  - unfold handleMouseMove. destruct (isPanning s); exact Hin.
  - exact Hin.
  - exact Hin.
  - unfold handleWheel. destruct svg as [rect|]; [|exact Hin].
    destruct (outOfBounds (newScale e s)) eqn:Hguard; [exact Hin|].
    apply accepted_scale_in_bounds; assumption.
Qed.

Lemma run_keeps_scale_in_bounds evs : forall s : State float,
  Forall deltaY_is_number evs -> scaleInBounds s = true ->
  scaleInBounds (run s evs) = true.
Proof.
  induction evs as [|ev evs IH]; intros s Hevs Hin; [exact Hin|].
  inversion Hevs as [|? ? Hev Hrest]; subst.
  rewrite viewport_run_cons. apply IH; [exact Hrest|].
  apply step_keeps_scale_in_bounds; assumption.
Qed.

(** A wheel event whose candidate is out of bounds gives back the
    state it was handled in, for any kind of number. *)
Lemma rejected_zoom_is_noop {num : Type} `{Number num}
    (svg : option (DOMRect.t num)) (e : WheelEvent.t num) (s : State num) :
  outOfBounds (newScale e s) = true -> handleWheel svg e s = s.
Proof.
  intros Hguard. unfold handleWheel. destruct svg as [rect|]; [|reflexivity].
  rewrite Hguard. reflexivity.
Qed.

(** C1: after any sequence of events on the diagram that starts from
    the initial state (wheel events whose [deltaY] is a number, mixed
    with any mouse events), [0.5 <= k <= 3] holds of the scale; and a
    wheel event whose candidate scale is below 0.5 or above 3 leaves
    the state, the whole transform with it, as it was: nothing is
    clamped. *)
Theorem zoom_bounds :
  (forall evs : list (Event float),
     Forall deltaY_is_number evs ->
     let k := Transform.k (transform (run initial evs)) in
     PrimFloat.leb 0.5 k = true /\ PrimFloat.leb k 3 = true)
  /\ (forall (svg : option (DOMRect.t float)) (e : WheelEvent.t float) (s : State float),
        (PrimFloat.ltb (newScale e s) 0.5 = true
         \/ PrimFloat.ltb 3 (newScale e s) = true) ->
        handleWheel svg e s = s).
Proof.
  split.
  - intros evs Hevs k. apply andb_prop.
    apply (run_keeps_scale_in_bounds evs initial Hevs). reflexivity.
  - intros svg e s Hout. apply rejected_zoom_is_noop.
    unfold outOfBounds, num_gt. cbn [num_lt float_Number minScale maxScale lit_0_5 lit_3].
    destruct Hout as [-> | ->]; [reflexivity | apply orb_true_r].
Qed.

Lemma zoom_bounds_witness :
  (let k := Transform.k (transform (run initial
              [Wheel (Some (DOMRect.mk 8 16)) (WheelEvent.mk 108 116 (-120));
               MouseDown (MouseEvent.mk 50 50 (EventTarget.mk true []));
               MouseMove (MouseEvent.mk 70 40 (EventTarget.mk true []));
               Wheel (Some (DOMRect.mk 8 16)) (WheelEvent.mk 30 40 120)]%float)) in
   PrimFloat.leb 0.5 k = true /\ PrimFloat.leb k 3 = true)
  /\ handleWheel (Some (DOMRect.mk 8 16)%float) (WheelEvent.mk 108 116 120)%float
       (mkState (Transform.mk 4 2 0.5)%float false (Point.mk 0 0)%float)
     = mkState (Transform.mk 4 2 0.5)%float false (Point.mk 0 0)%float.
Proof.
  split.
  - apply (proj1 zoom_bounds). repeat constructor.
  - apply (proj2 zoom_bounds). left. reflexivity.
Defined.

(** Twelve zoom-in steps from the initial state: the twelfth would give
    3.138..., is refused, and the scale stays where the eleventh left
    it, below 3. *)
Example zoom_in_is_not_clamped :
  let zoomIn := Wheel (Some (DOMRect.mk 0 0)%float) (WheelEvent.mk 100 100 (-120))%float in
  let s11 := run initial (repeat zoomIn 11) in
  let s12 := run initial (repeat zoomIn 12) in
  newScale (WheelEvent.mk 100 100 (-120))%float s11 = 3.1384283767210035%float
  /\ s12 = s11
  /\ Transform.k (transform s12) = 2.8531167061100029%float.
Proof. vm_compute. repeat split. Qed.

(** ** Zoom to cursor, in exact arithmetic *)

Local Open Scope Q_scope.

Lemma Qltb_false a b : Qltb a b = false -> b <= a.
Proof.
  unfold Qltb. intros Hlt. apply negb_false_iff in Hlt.
  apply Qle_bool_iff, Hlt.
Qed.

(** A candidate that is accepted comes from a scale that is not zero. *)
Lemma accepted_scale_nonzero (e : WheelEvent.t Q) (s : State Q) :
  outOfBounds (newScale e s) = false -> ~ Transform.k (transform s) == 0.
Proof.
  intros Hguard Hk. apply orb_false_elim in Hguard as [Hlo _].
  apply Qltb_false in Hlo.
  unfold newScale in Hlo. cbn [num_mul Q_Number minScale lit_0_5] in Hlo.
  rewrite Hk, Qmult_0_l in Hlo. revert Hlo. apply Qlt_not_le. reflexivity.
Qed.

(** In exact arithmetic, after a wheel event that is accepted, every
    world coordinate that the transform drew at the pointer before is
    drawn at the pointer after, on both axes. This is the identity that
    the binary64 run rounds; what holds of the run is stated below. *)
Lemma zoom_keeps_point_exact
    (rect : DOMRect.t Q) (e : WheelEvent.t Q) (s : State Q) (worldX worldY : Q) :
  outOfBounds (newScale e s) = false ->
  let mouseX := WheelEvent.clientX e - DOMRect.left rect in
  let mouseY := WheelEvent.clientY e - DOMRect.top rect in
  screenX (transform s) worldX == mouseX ->
  screenY (transform s) worldY == mouseY ->
  let s' := handleWheel (Some rect) e s in
  screenX (transform s') worldX == mouseX /\ screenY (transform s') worldY == mouseY.
Proof.
  intros Hguard mouseX mouseY HX HY s'.
  pose proof (accepted_scale_nonzero e s Hguard) as Hk.
  subst s'. unfold handleWheel. rewrite Hguard.
  unfold screenX, screenY in *.
  cbn [transform Transform.x Transform.y Transform.k num_add num_sub num_mul num_div Q_Number] in *.
  fold mouseX mouseY.
  set (k := Transform.k (transform s)) in *.
  set (k' := newScale e s).
  assert (EX : mouseX - Transform.x (transform s) == worldX * k) by (rewrite <- HX; ring).
  assert (EY : mouseY - Transform.y (transform s) == worldY * k) by (rewrite <- HY; ring).
  rewrite EX, EY. split; field; exact Hk.
Qed.

Example zoom_keeps_point_exact_sample :
  let rect := DOMRect.mk 8 16 in
  let e := WheelEvent.mk 108 116 (-120) in
  let s := mkState (Transform.mk 20 (-30) 2) false (Point.mk 0 0) in
  let s' := handleWheel (Some rect) e s in
  screenX (transform s') 40 == 100 /\ screenY (transform s') 65 == 100.
Proof.
  intros rect e s.
  apply (zoom_keeps_point_exact rect e s 40 65); reflexivity.
Qed.

(** The scenario of the specification in exact arithmetic: scale 11/10
    and translation (-10, -10). *)
Lemma zoom_in_scenario_exact :
  let s' := handleWheel (Some (DOMRect.mk 0 0)) (WheelEvent.mk 100 100 (-120)) initial in
  Transform.k (transform s') == 11 # 10
  /\ Transform.x (transform s') == -10
  /\ Transform.y (transform s') == -10
  /\ screenX (transform s') 100 == 100
  /\ screenY (transform s') 100 == 100.
Proof. vm_compute. repeat split. Qed.

Local Close Scope Q_scope.

(** ** Zoom to the cursor, on binary64 *)

Local Open Scope float_scope.

(** C2, as the program computes it. After a wheel event that is
    accepted, take the world coordinate that the handler computes under
    the pointer from the transform before, [(mouse - x) / k], and draw it
    with the transform after. If the result is a finite number, so are
    the pointer's coordinate and the new translation, and the result is
    the pointer's coordinate up to rounding: off by at most [2^-53] of
    the magnitudes of the new translation and of the result, on each
    axis. If it is not, the computation has overflowed and the result is
    an infinity or NaN. *)
Theorem zoom_keeps_point_under_cursor
    (rect : DOMRect.t float) (e : WheelEvent.t float) (s : State float) :
  outOfBounds (newScale e s) = false ->
  let mouseX := WheelEvent.clientX e - DOMRect.left rect in
  let mouseY := WheelEvent.clientY e - DOMRect.top rect in
  let worldX := (mouseX - Transform.x (transform s)) / Transform.k (transform s) in
  let worldY := (mouseY - Transform.y (transform s)) / Transform.k (transform s) in
  let s' := handleWheel (Some rect) e s in
  isFinite (screenX (transform s') worldX) = true ->
  isFinite (screenY (transform s') worldY) = true ->
  (isFinite mouseX = true /\ isFinite (Transform.x (transform s')) = true
   /\ Qabs (value (screenX (transform s') worldX) - value mouseX)
      <= (1 # 2 ^ 53) * (Qabs (value (Transform.x (transform s')))
                         + Qabs (value (screenX (transform s') worldX))))%Q
  /\ (isFinite mouseY = true /\ isFinite (Transform.y (transform s')) = true
      /\ Qabs (value (screenY (transform s') worldY) - value mouseY)
         <= (1 # 2 ^ 53) * (Qabs (value (Transform.y (transform s')))
                            + Qabs (value (screenY (transform s') worldY))))%Q.
Proof.
  intros Hguard mouseX mouseY worldX worldY s' HfinX HfinY.
  subst s'. unfold handleWheel in *. rewrite Hguard in *.
  split.
  - destruct (Rounding.round_trip_finite mouseX (worldX * newScale e s) HfinX)
      as [Hmouse Hnew].
    repeat split; [exact Hmouse | exact Hnew |].
    exact (Rounding.round_trip_error mouseX (worldX * newScale e s) HfinX).
  - destruct (Rounding.round_trip_finite mouseY (worldY * newScale e s) HfinY)
      as [Hmouse Hnew].
    repeat split; [exact Hmouse | exact Hnew |].
    exact (Rounding.round_trip_error mouseY (worldY * newScale e s) HfinY).
Qed.

Lemma zoom_keeps_point_under_cursor_witness :
  let rect := DOMRect.mk 0 0 in
  let e := WheelEvent.mk 7 7 120 in
  let s := mkState (Transform.mk 20 20 1) false (Point.mk 0 0) in
  let world := (7 - 20) / 1 in
  let s' := handleWheel (Some rect) e s in
  (isFinite 7 = true /\ isFinite (Transform.x (transform s')) = true
   /\ Qabs (value (screenX (transform s') world) - value 7)
      <= (1 # 2 ^ 53) * (Qabs (value (Transform.x (transform s')))
                         + Qabs (value (screenX (transform s') world))))%Q
  /\ (isFinite 7 = true /\ isFinite (Transform.y (transform s')) = true
      /\ Qabs (value (screenY (transform s') world) - value 7)
         <= (1 # 2 ^ 53) * (Qabs (value (Transform.y (transform s')))
                            + Qabs (value (screenY (transform s') world))))%Q.
Proof.
  intros rect e s world.
  apply (zoom_keeps_point_under_cursor rect e s); reflexivity.
Defined.

(** The round trip is not exact: from the transform (20, 20, 1) a
    zoom-out with the pointer at 7 draws the world coordinate that was
    under the pointer at 7.0000000000000018. *)
Example zoom_round_trip_rounds :
  let e := WheelEvent.mk 7 7 120 in
  let s := mkState (Transform.mk 20 20 1) false (Point.mk 0 0) in
  let s' := handleWheel (Some (DOMRect.mk 0 0)) e s in
  outOfBounds (newScale e s) = false
  /\ screenX (transform s') ((7 - 20) / 1) = 7.0000000000000018
  /\ PrimFloat.eqb (screenX (transform s') ((7 - 20) / 1)) 7 = false.
Proof. vm_compute. repeat split. Qed.

(** Where the round trip is lost: a drag has taken the translation to
    -1.7e308. A zoom-in with the pointer at 7 is accepted; the world
    coordinate under the pointer scaled by 1.1 overflows, the new
    translation is -Infinity, and the world coordinate that was under
    the pointer is drawn at NaN. *)
Lemma zoom_overflow_loses_point :
  let background := EventTarget.mk true [] in
  let far := run initial [MouseDown (MouseEvent.mk 0 0 background);
                          MouseMove (MouseEvent.mk (-1.7e308) 0 background);
                          MouseUp] in
  let e := WheelEvent.mk 7 7 (-120) in
  let worldX := (7 - Transform.x (transform far)) / Transform.k (transform far) in
  let s' := handleWheel (Some (DOMRect.mk 0 0)) e far in
  transform far = Transform.mk (-1.7e308) 0 1
  /\ outOfBounds (newScale e far) = false
  /\ Transform.k (transform s') = 1.1
  /\ Transform.x (transform s') = neg_infinity
  /\ PrimFloat.is_nan (screenX (transform s') worldX) = true
  /\ isFinite (screenX (transform s') worldX) = false.
Proof. vm_compute. repeat split. Qed.

(** ** The zoom-in scenario, on binary64 *)

(** On binary64 the point under the pointer comes back up to rounding.
    From the transform (20, -30, 2) the world point under (100, 100) is
    drawn at (100, 100) again after a zoom-in. Rounding is relative to
    the numbers at hand: with a translation of 1e20 the pointer's 100 is
    below one unit in the last place of the translation, and the world
    point under it is drawn at 0 before and after. *)
Example zoom_keeps_point_binary64 :
  let zoomIn := WheelEvent.mk 100 100 (-120) in
  let near := mkState (Transform.mk 20 (-30) 2) false (Point.mk 0 0) in
  let far := mkState (Transform.mk 1e20 0 1) false (Point.mk 0 0) in
  let near' := handleWheel (Some (DOMRect.mk 0 0)) zoomIn near in
  let far' := handleWheel (Some (DOMRect.mk 0 0)) zoomIn far in
  screenX (transform near') ((100 - 20) / 2) = 100
  /\ screenY (transform near') ((100 - -30) / 2) = 100
  /\ screenX (transform far) ((100 - 1e20) / 1) = 0
  /\ screenX (transform far') ((100 - 1e20) / 1) = 0.
Proof. vm_compute. repeat split. Qed.

(** C8, as the program computes it: from the initial transform, a
    zoom-in step ([Math.sign(deltaY)] is -1) with the pointer at
    (100, 100) of the diagram gives the scale 1.1 and the translation
    (-10.000000000000014, -10.000000000000014), which is what
    [100 - 100 * 1.1] rounds to; the world point (100, 100) is drawn at
    (100, 100) exactly. *)
Theorem zoom_in_scenario (rect : DOMRect.t float) (e : WheelEvent.t float) :
  WheelEvent.clientX e - DOMRect.left rect = 100 ->
  WheelEvent.clientY e - DOMRect.top rect = 100 ->
  float_sign (WheelEvent.deltaY e) = -1 ->
  let s' := handleWheel (Some rect) e initial in
  transform s' = Transform.mk (-10.000000000000014) (-10.000000000000014) 1.1
  /\ screenX (transform s') 100 = 100
  /\ screenY (transform s') 100 = 100.
Proof.
  intros HX HY Hsign s'. subst s'.
  unfold handleWheel, newScale, outOfBounds, num_gt, screenX, screenY.
  cbn [num_add num_sub num_mul num_div num_lt Math_sign float_Number].
  rewrite HX, HY, Hsign. vm_compute. repeat split.
Qed.

Lemma zoom_in_scenario_witness :
  let s' := handleWheel (Some (DOMRect.mk 8 16)) (WheelEvent.mk 108 116 (-120)) initial in
  transform s' = Transform.mk (-10.000000000000014) (-10.000000000000014) 1.1
  /\ screenX (transform s') 100 = 100
  /\ screenY (transform s') 100 = 100.
Proof.
  apply (zoom_in_scenario (DOMRect.mk 8 16) (WheelEvent.mk 108 116 (-120)));
    reflexivity.
Defined.

(** The translation of the scenario is not the number -10: [===] of
    JavaScript, which is [PrimFloat.eqb], tells them apart. *)
Lemma zoom_in_scenario_translation_is_not_minus_10 :
  let s' := handleWheel (Some (DOMRect.mk 0 0)) (WheelEvent.mk 100 100 (-120)) initial in
  Transform.x (transform s') = 100 - 100 * 1.1
  /\ PrimFloat.eqb (Transform.x (transform s')) (-10) = false
  /\ PrimFloat.eqb (Transform.y (transform s')) (-10) = false.
Proof. vm_compute. repeat split. Qed.

Local Close Scope float_scope.

End Viewport.

(* ===================================================================== *)
(** * Properties of PatternViewer *)
(* ===================================================================== *)

Module Selection.
Import PatternViewer.

Lemma selection_run_cons s ev evs : run s (ev :: evs) = run (step s ev) evs.
Proof. reflexivity. Qed.

(** ** The single slot *)

Lemma single_slot_initial : single_slot initial.
Proof.
  split; [reflexivity|]. intros handle callback Hpending.
  cbn in Hpending. rewrite lookup_empty in Hpending. discriminate.
Qed.

(** Under the discipline, [clearHoverTimeout] leaves nothing pending. *)
Lemma clearHoverTimeout_timers s :
  single_slot s -> timers (clearHoverTimeout s) = ∅.
Proof.
  intros [Hnext Hslot]. unfold clearHoverTimeout.
  destruct (hoverTimeoutRef s) as [ref|] eqn:Href.
  - destruct (truthy_handle ref) eqn:Htruthy; cbn.
    + apply map_empty. intros h.
      destruct (decide (h = ref)) as [->|Hne].
      * apply lookup_delete_eq.
      * rewrite lookup_delete_ne by congruence.
        destruct (timers s !! h) as [cb|] eqn:Hh; [|reflexivity].
        destruct (Hslot h cb Hh) as [Heq _]. congruence.
    + apply map_empty. intros h.
      destruct (timers s !! h) as [cb|] eqn:Hh; [|reflexivity].
      destruct (Hslot h cb Hh) as [Heq Hpos].
      assert (ref = h) by congruence. subst ref.
      unfold truthy_handle in Htruthy. apply negb_false_iff, Z.eqb_eq in Htruthy. lia.
  - apply map_empty. intros h.
    destruct (timers s !! h) as [cb|] eqn:Hh; [|reflexivity].
    destruct (Hslot h cb Hh) as [Heq _]. congruence.
Qed.

Lemma clearHoverTimeout_frame s :
  nextHandle (clearHoverTimeout s) = nextHandle s
  /\ hoveredComponent (clearHoverTimeout s) = hoveredComponent s
  /\ pinnedComponent (clearHoverTimeout s) = pinnedComponent s.
Proof.
  unfold clearHoverTimeout.
  destruct (hoverTimeoutRef s) as [ref|]; [destruct (truthy_handle ref)|]; auto.
Qed.

Lemma single_slot_no_timers s :
  0 < nextHandle s -> timers s = ∅ -> single_slot s.
Proof.
  intros Hnext Hnone. split; [exact Hnext|].
  intros h cb Hh. rewrite Hnone, lookup_empty in Hh. discriminate.
Qed.

Lemma step_single_slot s ev : single_slot s -> single_slot (step s ev).
Proof.
  intros Hs. pose proof Hs as [Hnext Hslot].
  pose proof (clearHoverTimeout_timers s Hs) as Hclear.
  destruct (clearHoverTimeout_frame s) as (Hn & _ & _).
  destruct ev as [[c|]|c| | | |h]; cbn [step].
  - apply single_slot_no_timers; cbn; [rewrite Hn|]; assumption.
  - unfold handleHoverComponent. cbn. rewrite Hclear, Hn. split; cbn; [lia|].
    intros h cb Hh. apply lookup_insert_Some in Hh as [[<- _]|[_ Hh]].
    + split; [reflexivity | lia].
    + rewrite lookup_empty in Hh. discriminate.
  - apply single_slot_no_timers; cbn; [rewrite Hn|]; assumption.
  - exact Hs.
  - apply single_slot_no_timers; [rewrite Hn|]; assumption.
  - unfold handleHoverComponent. cbn. rewrite Hclear, Hn. split; cbn; [lia|].
    intros h cb Hh. apply lookup_insert_Some in Hh as [[<- _]|[_ Hh]].
    + split; [reflexivity | lia].
    + rewrite lookup_empty in Hh. discriminate.
  - unfold timerFires. destruct (timers s !! h) as [cb|] eqn:Hh; [|exact Hs].
    destruct cb. split; cbn; [exact Hnext|].
    intros h' cb' Hh'. apply lookup_delete_Some in Hh' as [_ Hh'].
    apply (Hslot h' cb' Hh').
Qed.

Lemma run_single_slot evs : forall s, single_slot s -> single_slot (run s evs).
Proof.
  induction evs as [|ev evs IH]; intros s Hs; [exact Hs|].
  rewrite selection_run_cons. apply IH, step_single_slot, Hs.
Qed.

Lemma single_slot_size s : single_slot s -> (size (timers s) <= 1)%nat.
Proof.
  intros [_ Hslot].
  destruct (hoverTimeoutRef s) as [ref|] eqn:Href.
  - destruct (timers s !! ref) as [cb|] eqn:Hpending.
    + assert (Hone : timers s = {[ref := cb]}).
      { apply map_eq. intros h. destruct (decide (h = ref)) as [->|Hne].
        - rewrite lookup_singleton_eq. exact Hpending.
        - rewrite lookup_singleton_ne by congruence.
          destruct (timers s !! h) as [cb'|] eqn:Hh; [|reflexivity].
          destruct (Hslot h cb' Hh) as [Heq _]. congruence. }
      rewrite Hone, map_size_singleton. lia.
    + assert (Hnone : timers s = ∅).
      { apply map_empty. intros h.
        destruct (timers s !! h) as [cb'|] eqn:Hh; [|reflexivity].
        destruct (Hslot h cb' Hh) as [Heq _]. congruence. }
      rewrite Hnone, map_size_empty. lia.
  - assert (Hnone : timers s = ∅).
    { apply map_empty. intros h.
      destruct (timers s !! h) as [cb'|] eqn:Hh; [|reflexivity].
      destruct (Hslot h cb' Hh) as [Heq _]. congruence. }
    rewrite Hnone, map_size_empty. lia.
Qed.

(** Handles only grow: one that is below the next handle and not
    pending is never pending again. *)
Lemma clearHoverTimeout_handles_from bound s :
  handles_from bound s -> handles_from bound (clearHoverTimeout s).
Proof.
  intros [Hnext Hfrom]. unfold clearHoverTimeout.
  destruct (hoverTimeoutRef s) as [ref|]; [destruct (truthy_handle ref)|];
    split; cbn; try assumption.
  intros h cb Hh. apply lookup_delete_Some in Hh as [_ Hh]. eauto.
Qed.

Lemma arm_handles_from bound s :
  handles_from bound s -> handles_from bound (handleHoverComponent None s).
Proof.
  intros Hs. apply clearHoverTimeout_handles_from in Hs as [Hnext Hfrom].
  unfold handleHoverComponent. split; cbn; [lia|].
  intros h cb Hh. apply lookup_insert_Some in Hh as [[<- _]|[_ Hh]]; eauto.
Qed.

Lemma step_handles_from bound s ev :
  handles_from bound s -> handles_from bound (step s ev).
Proof.
  intros Hs. destruct ev as [[c|]|c| | | |h]; cbn [step].
  - apply clearHoverTimeout_handles_from in Hs. exact Hs.
  - apply arm_handles_from, Hs.
  - apply clearHoverTimeout_handles_from in Hs. exact Hs.
  - exact Hs.
  - apply clearHoverTimeout_handles_from, Hs.
  - apply arm_handles_from, Hs.
  - unfold timerFires. destruct (timers s !! h) as [cb|] eqn:Hh; [|exact Hs].
    destruct cb, Hs as [Hnext Hfrom]. split; cbn; [exact Hnext|].
    intros h' cb' Hh'. apply lookup_delete_Some in Hh' as [_ Hh']. eauto.
Qed.

Lemma run_handles_from bound evs : forall s,
  handles_from bound s -> handles_from bound (run s evs).
Proof.
  induction evs as [|ev evs IH]; intros s Hs; [exact Hs|].
  rewrite selection_run_cons. apply IH, step_handles_from, Hs.
Qed.

Lemma hover_enter_nextHandle c s :
  nextHandle (handleHoverComponent (Some c) s) = nextHandle s.
Proof.
  unfold handleHoverComponent. cbn -[clearHoverTimeout].
  apply clearHoverTimeout_frame.
Qed.

Lemma hover_leave_nextHandle s :
  nextHandle (handleHoverComponent None s) = nextHandle s + 1.
Proof.
  unfold handleHoverComponent. cbn -[clearHoverTimeout].
  destruct (clearHoverTimeout_frame s) as (-> & _ & _). reflexivity.
Qed.

Lemma timerFires_not_pending h s : timers s !! h = None -> timerFires h s = s.
Proof. intros Hh. unfold timerFires. rewrite Hh. reflexivity. Qed.

(** With nothing pending, timers coming due change nothing. *)
Lemma fires_with_none_pending hs : forall s,
  timers s = ∅ -> run s (map TimerFires hs) = s.
Proof.
  induction hs as [|h hs IH]; intros s Hnone; [reflexivity|].
  cbn [map]. rewrite selection_run_cons. cbn [step].
  rewrite timerFires_not_pending by (rewrite Hnone; apply lookup_empty).
  apply IH, Hnone.
Qed.

(** C5: in every state the component reaches, at most one hover-clear
    timer is pending; a hover-leave arms a timer under a new handle and
    that timer is then the only one pending; and a hover-leave followed
    by a hover-enter of [Y], with no timer coming due in between, ends
    with [Y] hovered and nothing pending: whatever timers are later
    said to come due, [Y] stays hovered, and the handle the hover-leave
    armed is never pending again, so that its firing is a no-op in
    every later state. *)
Theorem hover_clear_single_slot (evs : list Event) (Y : DiagramComponent.t) :
  let s := run initial evs in
  let armed := nextHandle s in
  let s1 := handleHoverComponent None s in
  let s2 := handleHoverComponent (Some Y) s1 in
  (size (timers s) <= 1)%nat
  /\ timers s1 = {[armed := ClearHovered]}
  /\ hoveredComponent s2 = Some Y
  /\ timers s2 = ∅
  /\ (forall handles : list Z,
        hoveredComponent (run s2 (map TimerFires handles)) = Some Y)
  /\ (forall later : list Event,
        timers (run s2 later) !! armed = None
        /\ timerFires armed (run s2 later) = run s2 later).
Proof.
  intros s armed s1 s2.
  assert (Hs : single_slot s) by apply run_single_slot, single_slot_initial.
  assert (Hs1 : single_slot s1) by apply (step_single_slot s (HoverComponent None)), Hs.
  assert (Ht1 : timers s1 = {[armed := ClearHovered]}).
  { subst s1 armed. unfold handleHoverComponent. cbn -[clearHoverTimeout].
    rewrite (clearHoverTimeout_timers s Hs).
    destruct (clearHoverTimeout_frame s) as (-> & _ & _). reflexivity. }
  assert (Ht2 : timers s2 = ∅) by apply (clearHoverTimeout_timers s1 Hs1).
  assert (Hn2 : nextHandle s2 = armed + 1).
  { subst s2 s1 armed. rewrite hover_enter_nextHandle, hover_leave_nextHandle.
    reflexivity. }
  assert (Hlater : forall later, timers (run s2 later) !! armed = None).
  { intros later.
    assert (Hfrom : handles_from (armed + 1) (run s2 later)).
    { apply run_handles_from. split; [lia|].
      intros h cb Hh. rewrite Ht2, lookup_empty in Hh. discriminate. }
    destruct (timers (run s2 later) !! armed) as [cb|] eqn:Hh; [|reflexivity].
    destruct Hfrom as [_ Hfrom]. specialize (Hfrom armed cb Hh). lia. }
  repeat split.
  - apply single_slot_size, Hs.
  - exact Ht1.
  - exact Ht2.
  - intros handles. rewrite fires_with_none_pending by exact Ht2. reflexivity.
  - apply Hlater.
  - apply timerFires_not_pending, Hlater.
Qed.

(** ** Precedence of the pin *)

(** C3: the component to show is the pinned one whenever one is
    pinned, whatever is hovered; with none pinned it is the hovered
    one, and there is none when neither is set. The same holds of the
    ids. *)
Theorem pin_takes_precedence (s : State) :
  (forall p, pinnedComponent s = Some p ->
     componentToShow s = Some p
     /\ componentToShowId s = pinnedComponentId s)
  /\ (pinnedComponent s = None ->
        componentToShow s = hoveredComponent s
        /\ componentToShowId s = hoveredComponentId s)
  /\ (pinnedComponent s = None -> hoveredComponent s = None ->
        componentToShow s = None).
Proof.
  unfold componentToShowId, pinnedComponentId, hoveredComponentId, componentToShow.
  repeat split; intros; repeat match goal with H : _ = _ |- _ => rewrite H end;
    reflexivity.
Qed.

(** ** Toggling the pin *)

Lemma handlePinComponent_pinned X s :
  pinnedComponent (handlePinComponent X s) = togglePinned X (pinnedComponent s).
Proof.
  unfold handlePinComponent. cbn -[clearHoverTimeout].
  destruct (clearHoverTimeout_frame s) as (_ & _ & ->). reflexivity.
Qed.

Lemma handlePinComponent_hovered X s :
  hoveredComponent (handlePinComponent X s) = hoveredComponent s.
Proof.
  unfold handlePinComponent. cbn -[clearHoverTimeout].
  apply clearHoverTimeout_frame.
Qed.

Lemma togglePinned_same X p :
  DiagramComponent.id p = DiagramComponent.id X -> togglePinned X (Some p) = None.
Proof. intros Hid. cbn. rewrite Hid, String.eqb_refl. reflexivity. Qed.

Lemma togglePinned_other X prev :
  option_map DiagramComponent.id prev <> Some (DiagramComponent.id X) ->
  togglePinned X prev = Some X.
Proof.
  intros Hid. destruct prev as [p|]; [|reflexivity]. cbn.
  destruct (String.eqb_spec (DiagramComponent.id p) (DiagramComponent.id X)) as [Heq|];
    [|reflexivity].
  cbn in Hid. congruence.
Qed.

(** C4, as the code has it: [handlePinComponent X] clears the pin
    when the pinned component has the id of [X], and pins [X]
    otherwise; done twice in a row it leaves no pin from any state in
    which [X] was not the pinned component, and leaves [X] pinned from a
    state in which it was. *)
Theorem togglePin_twice (X : DiagramComponent.t) (s : State) :
  let X_pinned := pinnedComponentId s = Some (DiagramComponent.id X) in
  (X_pinned -> pinnedComponent (handlePinComponent X s) = None)
  /\ (~ X_pinned -> pinnedComponent (handlePinComponent X s) = Some X)
  /\ (~ X_pinned ->
        pinnedComponent (handlePinComponent X (handlePinComponent X s)) = None)
  /\ (X_pinned ->
        pinnedComponent (handlePinComponent X (handlePinComponent X s)) = Some X).
Proof.
  intros X_pinned. subst X_pinned. unfold pinnedComponentId.
  rewrite !handlePinComponent_pinned.
  repeat split; intros Hpin.
  - destruct (pinnedComponent s) as [p|]; [|discriminate].
    apply togglePinned_same. cbn in Hpin. congruence.
  - apply togglePinned_other, Hpin.
  - rewrite (togglePinned_other X _ Hpin). apply togglePinned_same. reflexivity.
  - destruct (pinnedComponent s) as [p|]; [|discriminate].
    rewrite togglePinned_same by (cbn in Hpin; congruence). reflexivity.
Qed.

(** ** Pinning leaves the hover alone *)

(** An un-pin by a second click shows the hovered component again. *)
Lemma unpin_shows_hovered X s :
  pinnedComponentId s = Some (DiagramComponent.id X) ->
  componentToShow (handlePinComponent X s) = hoveredComponent s.
Proof.
  intros Hpin. unfold componentToShow.
  rewrite handlePinComponent_hovered, handlePinComponent_pinned.
  unfold pinnedComponentId in Hpin.
  destruct (pinnedComponent s) as [p|]; [|discriminate].
  rewrite togglePinned_same by (cbn in Hpin; congruence). reflexivity.
Qed.

(** C10: neither [handlePinComponent] nor [handleClosePane] changes
    the hovered component. Pinning touches the timers only as
    [clearHoverTimeout] does, closing the pane touches none. After an
    un-pin, by closing the pane or by a click on the pinned component,
    the component to show is the hovered one, as it was before. *)
Theorem pin_leaves_hover (X : DiagramComponent.t) (s : State) :
  hoveredComponent (handlePinComponent X s) = hoveredComponent s
  /\ hoveredComponent (handleClosePane s) = hoveredComponent s
  /\ timers (handlePinComponent X s) = timers (clearHoverTimeout s)
  /\ timers (handleClosePane s) = timers s
  /\ componentToShow (handleClosePane s) = hoveredComponent s
  /\ (pinnedComponentId s = Some (DiagramComponent.id X) ->
      componentToShow (handlePinComponent X s) = hoveredComponent s).
Proof.
  split; [apply handlePinComponent_hovered|].
  repeat (split; [reflexivity|]).
  apply unpin_shows_hovered.
Qed.

(** ** Components that are not of the diagram *)

(** C6, as the code has it: a hover or a pin takes the component it
    is given, whether or not its id is one of the current diagram's.
    Hovering [c] makes [c] the hovered component, and the panel shows
    the code pane of the pinned component if there is one, else of
    [c]; pinning [c] toggles the pin as for any other component. The
    panel falls back to the pattern's details exactly when neither a
    pinned nor a hovered component is set. *)
Theorem selection_ignores_diagram
    (pattern : DesignPattern.t) (c : DiagramComponent.t) (s : State) :
  hoveredComponent (handleHoverComponent (Some c) s) = Some c
  /\ componentToShow (handleHoverComponent (Some c) s)
     = Some (match pinnedComponent s with Some p => p | None => c end)
  /\ (exists isPinned,
        panel pattern (handleHoverComponent (Some c) s)
        = CodePanePanel (match pinnedComponent s with Some p => p | None => c end)
                        isPinned)
  /\ pinnedComponent (handlePinComponent c s) = togglePinned c (pinnedComponent s)
  /\ (panel pattern s = PatternDetailsPanel pattern
      <-> pinnedComponent s = None /\ hoveredComponent s = None).
Proof.
  assert (Hshow : componentToShow (handleHoverComponent (Some c) s)
                  = Some (match pinnedComponent s with Some p => p | None => c end)).
  { unfold componentToShow, handleHoverComponent. cbn -[clearHoverTimeout].
    destruct (clearHoverTimeout_frame s) as (_ & _ & ->).
    destruct (pinnedComponent s); reflexivity. }
  split; [reflexivity|]. split; [exact Hshow|]. split; [|split].
  - unfold panel. rewrite Hshow. eauto.
  - apply handlePinComponent_pinned.
  - unfold panel, componentToShow.
    destruct (pinnedComponent s) as [p|]; [|destruct (hoveredComponent s) as [h|]];
      split; try discriminate; try tauto; intros [? ?]; discriminate.
Qed.

(** ** The statements at sample states *)

(** The scenario of the specification: nothing to show at rest; the
    hovered component once one is hovered; the pinned one once another
    is pinned. *)
Lemma pin_takes_precedence_witness :
  let factory := classBox "factory-interface" [] in
  let other := classBox "other-node" [] in
  let hovering := run initial [HoverComponent (Some factory)] in
  let pinning := run initial [HoverComponent (Some factory); PinComponent other] in
  componentToShow initial = None
  /\ (componentToShow hovering = Some factory
      /\ componentToShowId hovering = Some "factory-interface"%string)
  /\ (componentToShow pinning = Some other
      /\ componentToShowId pinning = Some "other-node"%string).
Proof.
  intros factory other hovering pinning.
  refine (conj _ (conj (conj _ _) (conj _ _))).
  - apply (proj2 (proj2 (pin_takes_precedence initial))); reflexivity.
  - apply (proj1 (proj2 (pin_takes_precedence hovering))); reflexivity.
  - apply (proj1 (proj2 (pin_takes_precedence hovering))); reflexivity.
  - apply (proj1 (pin_takes_precedence pinning) other); reflexivity.
  - apply (proj1 (pin_takes_precedence pinning) other); reflexivity.
Defined.

Lemma togglePin_twice_witness :
  let X := classBox "x" [] in
  let pinned := run initial [PinComponent X] in
  pinnedComponent (handlePinComponent X (handlePinComponent X initial)) = None
  /\ pinnedComponent (handlePinComponent X (handlePinComponent X pinned)) = Some X.
Proof.
  intros X pinned. split.
  - apply (proj1 (proj2 (proj2 (togglePin_twice X initial)))). discriminate.
  - apply (proj2 (proj2 (proj2 (togglePin_twice X pinned)))). reflexivity.
Defined.

(** [a] is hovered, [b] is pinned and un-pinned: [a] is shown again. *)
Lemma pin_leaves_hover_witness :
  let a := classBox "a" [] in
  let b := classBox "b" [] in
  let s := run initial [HoverComponent (Some a); PinComponent b] in
  componentToShow s = Some b
  /\ componentToShow (handlePinComponent b s) = Some a.
Proof.
  intros a b s. split; [reflexivity|].
  apply (proj2 (proj2 (proj2 (proj2 (proj2 (pin_leaves_hover b s)))))).
  reflexivity.
Defined.

(** Two clicks on the component that is pinned leave it pinned. *)
Lemma togglePin_twice_on_pinned_keeps_pin :
  let X := classBox "x" [] in
  let pinned := run initial [PinComponent X] in
  pinnedComponent pinned = Some X
  /\ pinnedComponent (handlePinComponent X (handlePinComponent X pinned)) = Some X.
Proof. vm_compute. split; reflexivity. Qed.

(** A component whose id is none of the diagram's is shown all the
    same, hovered or pinned. *)
Lemma component_outside_diagram_is_shown :
  let pattern := patternOf [classBox "subject" []; classBox "observer" []] in
  let ghost := classBox "ghost" [] in
  inDiagram pattern (DiagramComponent.id ghost) = false
  /\ componentToShow (handleHoverComponent (Some ghost) initial) = Some ghost
  /\ panel pattern (handleHoverComponent (Some ghost) initial)
     = CodePanePanel ghost false
  /\ componentToShow (handlePinComponent ghost initial) = Some ghost
  /\ panel pattern (handlePinComponent ghost initial) = CodePanePanel ghost true.
Proof. vm_compute. repeat split. Qed.

(** The pin outlives a change of pattern: a component pinned under one
    pattern is still the one shown when the viewer is rendered with
    another, whose diagram does not have it. *)
Example pin_survives_pattern_switch :
  let subject := classBox "subject" [] in
  let observer := patternOf [subject; classBox "observer" []] in
  let strategy := patternOf [classBox "context" []; classBox "strategy" []] in
  let s := run initial [PinComponent subject] in
  inDiagram observer "subject" = true
  /\ inDiagram strategy "subject" = false
  /\ panel strategy s = CodePanePanel subject true.
Proof. vm_compute. repeat split. Qed.

(** In a trace: the pointer leaves [a], enters [b] before the timer is
    due, and the stale handle is then said to come due. *)
Example leave_then_enter :
  let a := classBox "a" [] in
  let b := classBox "b" [] in
  let s := run initial [HoverComponent (Some a); HoverComponent None;
                        HoverComponent (Some b); TimerFires 1] in
  hoveredComponent s = Some b /\ timers s = ∅.
Proof. vm_compute. split; reflexivity. Qed.

(** Two hover-leaves in a row, from the diagram and from the pane: the
    second timer takes the place of the first. *)
Example leave_twice :
  let a := classBox "a" [] in
  let s := run initial [HoverComponent (Some a); HoverComponent None; PaneMouseLeave] in
  timers s = {[2 := ClearHovered]} /\ hoverTimeoutRef s = Some 2.
Proof. vm_compute. split; reflexivity. Qed.

(** Without the hover-enter the timer clears the hover. *)
Example leave_then_timer :
  let a := classBox "a" [] in
  let s := run initial [HoverComponent (Some a); HoverComponent None; TimerFires 1] in
  hoveredComponent s = None /\ timers s = ∅.
Proof. vm_compute. split; reflexivity. Qed.

End Selection.

(* ===================================================================== *)
(** * Properties of CodePane *)
(* ===================================================================== *)

Module Snippets.
Import CodePane.

Lemma includes_In keys key : includes keys key = true <-> In key keys.
Proof.
  unfold includes. rewrite existsb_exists. split.
  - intros (k & Hin & Heq). apply String.eqb_eq in Heq. subst. exact Hin.
  - intros Hin. exists key. split; [exact Hin | apply String.eqb_refl].
Qed.

(** A key of the record has a value. *)
Lemma get_key record key :
  In key (Object_keys record) -> exists value, get record key = Some value.
Proof.
  induction record as [|[k v] record IH]; intros Hin; [destruct Hin|].
  cbn [get]. destruct (String.eqb_spec k key) as [->|Hne]; [eauto|].
  destruct Hin as [Heq|Hin]; [cbn in Heq; congruence|]. apply IH, Hin.
Qed.

Lemma truthy_string_false s : truthy_string s = false <-> s = ""%string.
Proof.
  unfold truthy_string. rewrite negb_false_iff. apply String.eqb_eq.
Qed.

Lemma tags_tabs selectedLanguage keys :
  map lang (map (tab selectedLanguage) keys) = keys.
Proof.
  induction keys as [|k keys IH]; [reflexivity|]. cbn. rewrite IH. reflexivity.
Qed.







(** The selection is a cell of the pane: it is computed when the pane
    is first shown and kept while the pane stays up. A pane first shown
    for a component without snippets keeps the empty selection when the
    component on display changes, and reports no snippet for one that
    has some. *)
Example selection_outlives_component :
  let arrow := classBox "arrow-uses" [] in
  let strategy := classBox "strategy" [("java", "interface Strategy {}")]%string in
  let selectedLanguage := initialSelectedLanguage arrow in
  selectedLanguage = ""%string
  /\ render strategy selectedLanguage
     = mkView None (NoSnippet "No code snippet available for this component.")
  /\ tags (mount strategy) = ["java"]%string.
Proof. vm_compute. repeat split. Qed.

(** [trim] on a snippet of the catalog's shape. *)
Example trim_snippet :
  trim "
interface Strategy {}
" = "interface Strategy {}"%string.
Proof. reflexivity. Qed.

End Snippets.

(* ===================================================================== *)
(** * More on InteractiveDiagram: dragging *)
(* ===================================================================== *)

Module Drag.
Import InteractiveDiagram.

Section AnyNumber.
Context {num : Type} `{Number num}.
Local Open Scope num_scope.

Lemma drag_run_cons (s : State num) ev evs : run s (ev :: evs) = run (step s ev) evs.
Proof. reflexivity. Qed.

(** While a pan is under way, a move forgets the move before it. *)
Lemma move_after_move (e e' : MouseEvent.t num) (s : State num) :
  isPanning s = true ->
  handleMouseMove e' (handleMouseMove e s) = handleMouseMove e' s.
Proof. intros Hpan. unfold handleMouseMove. cbn. rewrite Hpan. reflexivity. Qed.

Lemma move_keeps_panning (e : MouseEvent.t num) (s : State num) :
  isPanning (handleMouseMove e s) = isPanning s.
Proof. unfold handleMouseMove. destruct (isPanning s) eqn:Hpan; cbn; auto. Qed.

Lemma moves_then_move (es : list (MouseEvent.t num)) : forall (e : MouseEvent.t num) s,
  isPanning s = true ->
  run s (map MouseMove (es ++ [e])) = handleMouseMove e s.
Proof.
  induction es as [|e0 es IH]; intros e s Hpan; [reflexivity|].
  cbn [app map]. rewrite drag_run_cons. cbn [step].
  rewrite IH by (rewrite move_keeps_panning; exact Hpan).
  apply move_after_move, Hpan.
Qed.

(** X1: a drag is absolute. After a mouse-down on the background at
    [e0] and any run of mouse-moves that ends at [e], the translation is
    the pointer's position minus the offset taken at the mouse-down, the
    scale is the one before, and the moves in between have left no
    trace. *)
Theorem drag_ends_at_last_move
    (e0 e : MouseEvent.t num) (es : list (MouseEvent.t num)) (s : State num) :
  onBackground (MouseEvent.target e0) = true ->
  run s (MouseDown e0 :: map MouseMove (es ++ [e]))
  = mkState
      (Transform.mk
         (MouseEvent.clientX e - (MouseEvent.clientX e0 - Transform.x (transform s)))
         (MouseEvent.clientY e - (MouseEvent.clientY e0 - Transform.y (transform s)))
         (Transform.k (transform s)))
      true
      (Point.mk (MouseEvent.clientX e0 - Transform.x (transform s))
                (MouseEvent.clientY e0 - Transform.y (transform s))).
Proof.
  intros Hbg. rewrite drag_run_cons. cbn [step].
  assert (Hdown : handleMouseDown e0 s
                  = mkState (transform s) true
                      (Point.mk (MouseEvent.clientX e0 - Transform.x (transform s))
                                (MouseEvent.clientY e0 - Transform.y (transform s)))).
  { unfold handleMouseDown. rewrite Hbg. reflexivity. }
  rewrite Hdown, moves_then_move by reflexivity. reflexivity.
Qed.

(** X2: a zoom made while a pan is under way keeps its scale, but its
    translation is overwritten by the next mouse-move, which takes the
    translation from the pointer and the offset of the mouse-down
    alone. *)
Theorem move_discards_zoom_translation
    (svg : option (DOMRect.t num)) (w : WheelEvent.t num) (e : MouseEvent.t num)
    (s : State num) :
  isPanning s = true ->
  let zoomed := handleWheel svg w s in
  let moved := handleMouseMove e zoomed in
  Transform.x (transform moved) = Transform.x (transform (handleMouseMove e s))
  /\ Transform.y (transform moved) = Transform.y (transform (handleMouseMove e s))
  /\ Transform.k (transform moved) = Transform.k (transform zoomed).
Proof.
  intros Hpan zoomed moved. subst moved zoomed.
  unfold handleMouseMove, handleWheel.
  destruct svg as [rect|]; [destruct (outOfBounds (newScale w s))|];
    cbn; rewrite Hpan; cbn; auto.
Qed.

Lemma step_keeps_scale (s : State num) ev :
  TraceKinds.isWheel ev = false ->
  Transform.k (transform (step s ev)) = Transform.k (transform s).
Proof.
  destruct ev as [e|e| | |svg e]; cbn [step TraceKinds.isWheel]; intros Hev;
    try discriminate; try reflexivity.
  - unfold handleMouseDown. destruct (onBackground _); reflexivity.
  - unfold handleMouseMove. destruct (isPanning s); reflexivity.
Qed.

(** X3: mouse events never change the scale: over any trace without a
    wheel event the scale is the one at the start. *)
Theorem mouse_events_keep_scale (evs : list (Event num)) (s : State num) :
  existsb TraceKinds.isWheel evs = false ->
  Transform.k (transform (run s evs)) = Transform.k (transform s).
Proof.
  revert s. induction evs as [|ev evs IH]; intros s Hevs; [reflexivity|].
  cbn [existsb] in Hevs. apply orb_false_elim in Hevs as [Hev Hevs].
  rewrite drag_run_cons, IH by exact Hevs. apply step_keeps_scale, Hev.
Qed.

End AnyNumber.

Lemma drag_ends_at_last_move_witness :
  let bg := EventTarget.mk false ["w-full"; "h-full"; "diagram-bg"]%string in
  let s := mkState (Transform.mk 12 (-43) 2.2)%float false (Point.mk 0 0)%float in
  run s [MouseDown (MouseEvent.mk 150 90 bg)%float;
         MouseMove (MouseEvent.mk 160 95 bg)%float;
         MouseMove (MouseEvent.mk 400 20 bg)%float;
         MouseMove (MouseEvent.mk 175 60 bg)%float]
  = mkState (Transform.mk 37 (-73) 2.2)%float true (Point.mk 138 133)%float.
Proof.
  intros bg s.
  pose proof (drag_ends_at_last_move
                (MouseEvent.mk 150 90 bg)%float (MouseEvent.mk 175 60 bg)%float
                [(MouseEvent.mk 160 95 bg)%float; (MouseEvent.mk 400 20 bg)%float] s
                eq_refl) as Hdrag.
  vm_compute in Hdrag |- *. exact Hdrag.
Defined.

Lemma move_discards_zoom_translation_witness :
  let s := mkState (Transform.mk 12 (-43) 2)%float true (Point.mk 138 133)%float in
  let zoomed := handleWheel (Some (DOMRect.mk 8 16)%float)
                            (WheelEvent.mk 108 116 (-120))%float s in
  let moved := handleMouseMove (MouseEvent.mk 175 60 (EventTarget.mk true []))%float zoomed in
  Transform.x (transform moved) = 37%float
  /\ Transform.y (transform moved) = (-73)%float
  /\ Transform.k (transform moved) = Transform.k (transform zoomed).
Proof.
  intros s.
  pose proof (move_discards_zoom_translation
                (Some (DOMRect.mk 8 16)%float) (WheelEvent.mk 108 116 (-120))%float
                (MouseEvent.mk 175 60 (EventTarget.mk true []))%float s eq_refl) as Hmove.
  vm_compute in Hmove |- *. exact Hmove.
Defined.

Lemma mouse_events_keep_scale_witness :
  let bg := EventTarget.mk true [] in
  let s := mkState (Transform.mk 12 (-43) 2.2)%float false (Point.mk 0 0)%float in
  Transform.k (transform (run s [MouseDown (MouseEvent.mk 150 90 bg)%float;
                                 MouseMove (MouseEvent.mk 160 95 bg)%float;
                                 MouseLeave;
                                 MouseMove (MouseEvent.mk 1 2 bg)%float]))
  = 2.2%float.
Proof.
  intros bg s.
  pose proof (mouse_events_keep_scale
                [MouseDown (MouseEvent.mk 150 90 bg)%float;
                 MouseMove (MouseEvent.mk 160 95 bg)%float;
                 MouseLeave;
                 MouseMove (MouseEvent.mk 1 2 bg)%float] s eq_refl) as Hscale.
  vm_compute in Hscale |- *. exact Hscale.
Defined.

(** ** In exact arithmetic *)

Local Open Scope Q_scope.

(** In exact arithmetic a drag displaces the drawing of every world
    coordinate by the displacement of the pointer, on both axes. This is
    the identity that the binary64 run rounds. *)
Lemma drag_follows_pointer_exact
    (e0 e : MouseEvent.t Q) (s : State Q) (worldX worldY : Q) :
  onBackground (MouseEvent.target e0) = true ->
  let s' := handleMouseMove e (handleMouseDown e0 s) in
  screenX (transform s') worldX - screenX (transform s) worldX
  == MouseEvent.clientX e - MouseEvent.clientX e0
  /\ screenY (transform s') worldY - screenY (transform s) worldY
     == MouseEvent.clientY e - MouseEvent.clientY e0.
Proof.
  intros Hbg s'. subst s'. unfold handleMouseDown. rewrite Hbg.
  unfold handleMouseMove, screenX, screenY. cbn. split; ring.
Qed.

Local Close Scope Q_scope.

(** ** On binary64 *)

(** X4: a drag carries the diagram with the pointer, up to rounding.
    After a mouse-down on the background at [e0] and a mouse-move to
    [e], a world coordinate that is drawn at a finite number before and
    after is displaced by the displacement of the pointer, off by at
    most [2^-53] of the magnitudes of the start point, of the new
    translation and of the two drawn coordinates, on each axis; the
    coordinates of the pointer are then finite numbers. *)
Theorem drag_follows_pointer
    (e0 e : MouseEvent.t float) (s : State float) (worldX worldY : float) :
  onBackground (MouseEvent.target e0) = true ->
  let s' := handleMouseMove e (handleMouseDown e0 s) in
  isFinite (screenX (transform s) worldX) = true ->
  isFinite (screenX (transform s') worldX) = true ->
  isFinite (screenY (transform s) worldY) = true ->
  isFinite (screenY (transform s') worldY) = true ->
  (isFinite (MouseEvent.clientX e) = true /\ isFinite (MouseEvent.clientX e0) = true
   /\ Qabs ((value (screenX (transform s') worldX) - value (screenX (transform s) worldX))
            - (value (MouseEvent.clientX e) - value (MouseEvent.clientX e0)))
      <= (1 # 2 ^ 53)
         * (Qabs (value (Point.x (startPoint s'))) + Qabs (value (Transform.x (transform s')))
            + Qabs (value (screenX (transform s') worldX))
            + Qabs (value (screenX (transform s) worldX))))%Q
  /\ (isFinite (MouseEvent.clientY e) = true /\ isFinite (MouseEvent.clientY e0) = true
      /\ Qabs ((value (screenY (transform s') worldY) - value (screenY (transform s) worldY))
               - (value (MouseEvent.clientY e) - value (MouseEvent.clientY e0)))
         <= (1 # 2 ^ 53)
            * (Qabs (value (Point.y (startPoint s'))) + Qabs (value (Transform.y (transform s')))
               + Qabs (value (screenY (transform s') worldY))
               + Qabs (value (screenY (transform s) worldY))))%Q.
Proof.
  intros Hbg s' HX HX' HY HY'. subst s'.
  unfold handleMouseDown in *. rewrite Hbg in *.
  split.
  - destruct (Rounding.drag_finite
                (Transform.x (transform s)) (MouseEvent.clientX e0) (MouseEvent.clientX e)
                (PrimFloat.mul worldX (Transform.k (transform s))) HX') as [He He0].
    repeat split; [exact He | exact He0 |].
    exact (Rounding.drag_error
             (Transform.x (transform s)) (MouseEvent.clientX e0) (MouseEvent.clientX e)
             (PrimFloat.mul worldX (Transform.k (transform s))) HX HX').
  - destruct (Rounding.drag_finite
                (Transform.y (transform s)) (MouseEvent.clientY e0) (MouseEvent.clientY e)
                (PrimFloat.mul worldY (Transform.k (transform s))) HY') as [He He0].
    repeat split; [exact He | exact He0 |].
    exact (Rounding.drag_error
             (Transform.y (transform s)) (MouseEvent.clientY e0) (MouseEvent.clientY e)
             (PrimFloat.mul worldY (Transform.k (transform s))) HY HY').
Qed.

Lemma drag_follows_pointer_witness :
  let bg := EventTarget.mk true [] in
  let s := mkState (Transform.mk 0.1 0.1 1.1)%float false (Point.mk 0 0)%float in
  let s' := handleMouseMove (MouseEvent.mk 175 60 bg)%float
                            (handleMouseDown (MouseEvent.mk 150 90 bg)%float s) in
  (isFinite 175 = true /\ isFinite 150 = true
   /\ Qabs ((value (screenX (transform s') 40%float) - value (screenX (transform s) 40%float))
            - (value 175 - value 150))
      <= (1 # 2 ^ 53)
         * (Qabs (value (Point.x (startPoint s'))) + Qabs (value (Transform.x (transform s')))
            + Qabs (value (screenX (transform s') 40%float))
            + Qabs (value (screenX (transform s) 40%float))))%Q
  /\ (isFinite 60 = true /\ isFinite 90 = true
      /\ Qabs ((value (screenY (transform s') 65%float) - value (screenY (transform s) 65%float))
               - (value 60 - value 90))
         <= (1 # 2 ^ 53)
            * (Qabs (value (Point.y (startPoint s'))) + Qabs (value (Transform.y (transform s')))
               + Qabs (value (screenY (transform s') 65%float))
               + Qabs (value (screenY (transform s) 65%float))))%Q.
Proof.
  intros bg s.
  apply (drag_follows_pointer (MouseEvent.mk 150 90 bg)%float (MouseEvent.mk 175 60 bg)%float
                              s 40%float 65%float); reflexivity.
Defined.

(** The displacement is not exact: from the translation 0.1 at scale
    1.1, a drag from 150 to 175 moves the drawing of the world
    coordinate 40 by a number that is not 25. *)
Example drag_displacement_rounds :
  let bg := EventTarget.mk true [] in
  let s := mkState (Transform.mk 0.1 0.1 1.1)%float false (Point.mk 0 0)%float in
  let s' := handleMouseMove (MouseEvent.mk 175 60 bg)%float
                            (handleMouseDown (MouseEvent.mk 150 90 bg)%float s) in
  PrimFloat.eqb (PrimFloat.sub (screenX (transform s') 40%float) (screenX (transform s) 40%float))
                25%float
  = false.
Proof. vm_compute. reflexivity. Qed.

End Drag.

(* ===================================================================== *)
(** * Properties of what InteractiveDiagram draws *)
(* ===================================================================== *)

Module Drawing.
Import DiagramRender.

Lemma sameId_same_id id c c' :
  DiagramComponent.id c = DiagramComponent.id c' -> sameId id c = sameId id c'.
Proof. intros Hid. unfold sameId. rewrite Hid. reflexivity. Qed.

(** X5: an element is drawn as active exactly when the id of its
    component is the hovered or the pinned id. For an arrow the third
    condition of the source, that the first component with the hovered
    or pinned id is an arrow with the id of this one, never adds a
    case. *)
Theorem active_iff_hovered_or_pinned
    (diagram : Diagram.t) (hoveredComponentId pinnedComponentId : option string)
    (component : DiagramComponent.t) (el : Element) :
  renderComponent diagram hoveredComponentId pinnedComponentId component = Some el ->
  componentOf el = component
  /\ isActive el
     = (sameId hoveredComponentId component || sameId pinnedComponentId component)%bool.
Proof.
  unfold renderComponent.
  destruct (DiagramComponent.type component); try discriminate;
    try (intros [= <-]; split; reflexivity).
  destruct (hasPoints component); [|discriminate].
  intros [= <-]. split; [reflexivity|]. cbn [isActive].
  destruct (find _ (Diagram.components diagram)) as [related|] eqn:Hfind;
    [|apply orb_false_r].
  destruct (isArrow related
            && String.eqb (DiagramComponent.id related) (DiagramComponent.id component))%bool
    eqn:Hrelated; [|apply orb_false_r].
  apply andb_prop in Hrelated as [_ Hid]. apply String.eqb_eq in Hid.
  apply find_some in Hfind as [_ Hfound].
  rewrite (sameId_same_id _ _ _ Hid), (sameId_same_id pinnedComponentId _ _ Hid) in Hfound.
  rewrite Hfound. reflexivity.
Qed.

Lemma active_iff_hovered_or_pinned_witness :
  let uses := DiagramComponent.mk "arrow-uses" type_arrow "uses" [] 300 200 None None
                                  (Some "300,100 V 300"%string) (Some dependency) in
  let diagram := Diagram.mk [classBox "context" []; uses] "0 0 600 400" in
  isActive (ArrowPath uses true true "url(#arrowhead-dep-arrow-uses)") = true
  /\ renderComponent diagram None (Some "arrow-uses"%string) uses
     = Some (ArrowPath uses true true "url(#arrowhead-dep-arrow-uses)").
Proof.
  intros uses diagram. split; [|reflexivity].
  apply (active_iff_hovered_or_pinned diagram None (Some "arrow-uses"%string) uses).
  reflexivity.
Defined.

Lemma renderComponent_drawn diagram h p h' p' c :
  match renderComponent diagram h p c, renderComponent diagram h' p' c with
  | Some el, Some el' => componentOf el = c /\ componentOf el' = c
  | None, None => True
  | _, _ => False
  end.
Proof.
  unfold renderComponent.
  destruct (DiagramComponent.type c); cbn; auto.
  destruct (hasPoints c); cbn; auto.
Qed.

Lemma drawn_of_list diagram h p h' p' (cs : list DiagramComponent.t) :
  map componentOf
      (flat_map (fun c => match renderComponent diagram h p c with
                          | Some el => [el]
                          | None => []
                          end) cs)
  = map componentOf
        (flat_map (fun c => match renderComponent diagram h' p' c with
                            | Some el => [el]
                            | None => []
                            end) cs).
Proof.
  induction cs as [|c cs IH]; [reflexivity|].
  cbn [flat_map]. rewrite !map_app, IH. f_equal.
  pose proof (renderComponent_drawn diagram h p h' p' c) as Hc.
  destruct (renderComponent diagram h p c), (renderComponent diagram h' p' c);
    try contradiction; [|reflexivity].
  destruct Hc as [Hel Hel']. cbn. congruence.
Qed.

Lemma renderComponent_componentOf diagram h p c el :
  renderComponent diagram h p c = Some el -> componentOf el = c.
Proof.
  unfold renderComponent.
  destruct (DiagramComponent.type c); try discriminate;
    try (intros [= <-]; reflexivity).
  destruct (hasPoints c); [|discriminate]. intros [= <-]. reflexivity.
Qed.

(** An element drawn is that of a class, an interface or an arrow with
    points of the diagram. *)
Lemma drawn_element_kind diagram h p el :
  In el (render diagram h p) ->
  In (componentOf el) (Diagram.components diagram)
  /\ match DiagramComponent.type (componentOf el) with
     | type_class | type_interface => True
     | type_arrow => hasPoints (componentOf el) = true
     | type_note => False
     end.
Proof.
  unfold render. intros Hel.
  apply in_flat_map in Hel as (c & Hin & Hel).
  destruct (renderComponent diagram h p c) as [el'|] eqn:Hrender; [|destruct Hel].
  destruct Hel as [<-|[]].
  rewrite (renderComponent_componentOf _ _ _ _ _ Hrender).
  split; [exact Hin|].
  unfold renderComponent in Hrender.
  destruct (DiagramComponent.type c); try discriminate; auto.
  destruct (hasPoints c); [reflexivity | discriminate].
Qed.

(** X6: hovering and pinning change how components are drawn, never
    which ones nor in which order: the components drawn are those drawn
    with nothing hovered or pinned, each is a component of the diagram,
    and none is a note or an arrow without points. *)
Theorem drawn_components_fixed
    (diagram : Diagram.t) (hoveredComponentId pinnedComponentId : option string) :
  map componentOf (render diagram hoveredComponentId pinnedComponentId)
  = map componentOf (render diagram None None)
  /\ Forall (fun c =>
               In c (Diagram.components diagram)
               /\ match DiagramComponent.type c with
                  | type_class | type_interface => True
                  | type_arrow => hasPoints c = true
                  | type_note => False
                  end)
            (map componentOf (render diagram hoveredComponentId pinnedComponentId)).
Proof.
  split.
  - unfold render. apply drawn_of_list.
  - apply List.Forall_forall. intros c Hc.
    apply in_map_iff in Hc as (el & <- & Hel).
    apply (drawn_element_kind _ _ _ _ Hel).
Qed.

(** X7: the arrowhead an arrow path refers to is defined: its
    [markerEnd] is the url of one of the markers of [<defs>]. *)
Theorem markerEnd_is_defined
    (diagram : Diagram.t) (hoveredComponentId pinnedComponentId : option string)
    (c : DiagramComponent.t) (isActive isDependency : bool) (markerEnd : string) :
  In (ArrowPath c isActive isDependency markerEnd)
     (render diagram hoveredComponentId pinnedComponentId) ->
  exists id, In id (markerIds diagram) /\ markerEnd = url id.
Proof.
  intros Hel. unfold render in Hel.
  apply in_flat_map in Hel as (c' & Hin & Hel).
  destruct (renderComponent diagram hoveredComponentId pinnedComponentId c') as [el|]
    eqn:Hrender; [|destruct Hel].
  destruct Hel as [->|[]].
  unfold renderComponent in Hrender.
  destruct (DiagramComponent.type c') eqn:Htype; try discriminate.
  destruct (hasPoints c'); [|discriminate].
  injection Hrender as <- _ _ <-.
  assert (Harrow : In c' (List.filter isArrow (Diagram.components diagram))).
  { apply filter_In. split; [exact Hin|]. unfold isArrow. rewrite Htype. reflexivity. }
  destruct (DiagramComponent.arrowType c') as [[]|].
  - exists (implMarker c'). split; [|reflexivity].
    unfold markerIds. apply in_flat_map. exists c'. split; [exact Harrow|].
    right. left. reflexivity.
  - exists (depMarker c'). split; [|reflexivity].
    unfold markerIds. apply in_flat_map. exists c'. split; [exact Harrow|].
    left. reflexivity.
  - exists (depMarker c'). split; [|reflexivity].
    unfold markerIds. apply in_flat_map. exists c'. split; [exact Harrow|].
    left. reflexivity.
Qed.

Lemma markerEnd_is_defined_witness :
  let extends := DiagramComponent.mk "arrow-impl" type_arrow "" [] 210 115 None None
                                     (Some "120,150 V 80 H 300"%string)
                                     (Some implementation) in
  let diagram := Diagram.mk [classBox "command" []; extends] "0 0 600 400" in
  exists id, In id (markerIds diagram) /\ "url(#arrowhead-impl-arrow-impl)"%string = url id.
Proof.
  intros extends diagram.
  apply (markerEnd_is_defined diagram (Some "command"%string) None extends false false).
  right. left. reflexivity.
Defined.

(** X8: the handlers of the elements drawn hand the viewer components
    of the diagram only. *)
Theorem handlers_raise_diagram_components
    (diagram : Diagram.t) (hoveredComponentId pinnedComponentId : option string)
    (el : Element) (ev : PatternViewer.Event) :
  In el (render diagram hoveredComponentId pinnedComponentId) ->
  In ev (raises el) ->
  fromDiagram diagram ev.
Proof.
  intros Hel Hev.
  destruct (drawn_element_kind _ _ _ _ Hel) as [Hc _].
  destruct Hev as [<-|[<-|[<-|[]]]]; cbn; auto.
Qed.

Lemma handlers_raise_diagram_components_witness :
  let context := classBox "context" [] in
  let diagram := Diagram.mk [context; classBox "strategy" []] "0 0 600 400" in
  fromDiagram diagram (PatternViewer.PinComponent context).
Proof.
  intros context diagram.
  apply (handlers_raise_diagram_components diagram None None (Box context false)).
  - left. reflexivity.
  - right. right. left. reflexivity.
Defined.

End Drawing.

(* ===================================================================== *)
(** * More on PatternViewer *)
(* ===================================================================== *)

Module SelectionMore.
Import PatternViewer.

Lemma hover_leave_frame s :
  hoveredComponent (handleHoverComponent None s) = hoveredComponent s
  /\ pinnedComponent (handleHoverComponent None s) = pinnedComponent s.
Proof.
  unfold handleHoverComponent. cbn -[clearHoverTimeout].
  destruct (Selection.clearHoverTimeout_frame s) as (_ & -> & ->). auto.
Qed.

Lemma hover_enter_frame c s :
  hoveredComponent (handleHoverComponent (Some c) s) = Some c
  /\ pinnedComponent (handleHoverComponent (Some c) s) = pinnedComponent s.
Proof.
  unfold handleHoverComponent. cbn -[clearHoverTimeout].
  destruct (Selection.clearHoverTimeout_frame s) as (_ & _ & ->). auto.
Qed.

Lemma timerFires_frame h s :
  pinnedComponent (timerFires h s) = pinnedComponent s
  /\ (hoveredComponent (timerFires h s) = hoveredComponent s
      \/ hoveredComponent (timerFires h s) = None).
Proof.
  unfold timerFires. destruct (timers s !! h) as [[]|]; cbn; auto.
Qed.

Lemma step_within diagram s ev :
  DiagramRender.fromDiagram diagram ev ->
  TraceKinds.within (Diagram.components diagram) s ->
  TraceKinds.within (Diagram.components diagram) (step s ev).
Proof.
  intros Hev [Hhov Hpin].
  destruct (Selection.clearHoverTimeout_frame s) as (_ & Hh & Hp).
  unfold TraceKinds.within.
  destruct ev as [[c|]|c| | | |h]; cbn [step].
  - destruct (hover_enter_frame c s) as [-> ->]. split; [|exact Hpin].
    intros c' [= <-]. exact Hev.
  - destruct (hover_leave_frame s) as [-> ->]. split; assumption.
  - rewrite Selection.handlePinComponent_hovered, Selection.handlePinComponent_pinned.
    split; [exact Hhov|]. intros c' Hc'. unfold togglePinned in Hc'.
    destruct (pinnedComponent s) as [p|];
      [destruct (String.eqb _ _); [discriminate|]|];
      injection Hc' as <-; exact Hev.
  - split; [exact Hhov|]. intros c' Hc'. discriminate.
  - rewrite Hh, Hp. split; assumption.
  - destruct (hover_leave_frame s) as [-> ->]. split; assumption.
  - destruct (timerFires_frame h s) as [-> [->| ->]]; split; try assumption.
    intros c' Hc'. discriminate.
Qed.

(** X9: with the handlers called the way the diagram calls them, the
    component shown is a component of the diagram: after any trace of
    hovers and clicks that carry components of the diagram, of pane
    events and of timers coming due, the hovered and the pinned
    component, and so the component to show, are among the diagram's. *)
Theorem shown_component_is_of_diagram
    (diagram : Diagram.t) (evs : list Event) (c : DiagramComponent.t) :
  Forall (DiagramRender.fromDiagram diagram) evs ->
  componentToShow (run initial evs) = Some c ->
  In c (Diagram.components diagram).
Proof.
  intros Hevs.
  assert (Hwithin : TraceKinds.within (Diagram.components diagram) (run initial evs)).
  { assert (Hinit : TraceKinds.within (Diagram.components diagram) initial)
      by (split; intros c' Hc'; discriminate).
    revert Hinit. generalize initial.
    induction Hevs as [|ev evs Hev _ IH]; intros s Hs; [exact Hs|].
    rewrite Selection.selection_run_cons. apply IH, step_within; assumption. }
  destruct Hwithin as [Hhov Hpin]. unfold componentToShow.
  destruct (pinnedComponent (run initial evs)) as [p|]; [intros [= <-]; auto | auto].
Qed.

Lemma shown_component_is_of_diagram_witness :
  let subject := classBox "subject" [] in
  let observer := classBox "observer" [] in
  In observer [subject; observer].
Proof.
  intros subject observer.
  apply (shown_component_is_of_diagram
           (Diagram.mk [subject; observer] "0 0 600 400")
           [HoverComponent (Some subject); HoverComponent None;
            PinComponent observer; TimerFires 1] observer).
  - repeat apply List.Forall_cons; try apply List.Forall_nil; cbn; auto.
  - reflexivity.
Defined.

(** X10: the code pane is marked as pinned exactly when a component
    is pinned, and it then shows that component; the comparison of ids
    in the source decides nothing. *)
Theorem pane_marked_pinned_iff_pinned
    (pattern : DesignPattern.t) (s : State) (c : DiagramComponent.t) (isPinned : bool) :
  panel pattern s = CodePanePanel c isPinned ->
  componentToShow s = Some c
  /\ match pinnedComponent s with
     | Some p => isPinned = true /\ c = p
     | None => isPinned = false /\ hoveredComponent s = Some c
     end.
Proof.
  unfold panel, componentToShow.
  destruct (pinnedComponent s) as [p|].
  - intros [= <- <-]. rewrite String.eqb_refl. auto.
  - destruct (hoveredComponent s) as [h|]; [|discriminate].
    intros [= <- <-]. auto.
Qed.

Lemma pane_marked_pinned_iff_pinned_witness :
  let a := classBox "a" [] in
  let b := classBox "b" [] in
  let s := run initial [HoverComponent (Some a); PinComponent b] in
  componentToShow s = Some b /\ (true = true /\ b = b).
Proof.
  intros a b s.
  apply (pane_marked_pinned_iff_pinned (patternOf [a; b]) s b true). reflexivity.
Defined.

Lemma step_keeps_pin s ev :
  TraceKinds.changesPin ev = false -> pinnedComponent (step s ev) = pinnedComponent s.
Proof.
  destruct ev as [[c|]|c| | | |h]; cbn [step TraceKinds.changesPin];
    intros Hev; try discriminate.
  - apply hover_enter_frame.
  - apply hover_leave_frame.
  - apply Selection.clearHoverTimeout_frame.
  - apply hover_leave_frame.
  - apply timerFires_frame.
Qed.

(** X11: the pin is sticky: hovers, the pointer entering and leaving
    the pane, and timers coming due never change the pinned component.
    Only a click on a component and closing the pane do. *)
Theorem pin_is_sticky (evs : list Event) (s : State) :
  existsb TraceKinds.changesPin evs = false ->
  pinnedComponent (run s evs) = pinnedComponent s.
Proof.
  revert s. induction evs as [|ev evs IH]; intros s Hevs; [reflexivity|].
  cbn [existsb] in Hevs. apply orb_false_elim in Hevs as [Hev Hevs].
  rewrite Selection.selection_run_cons, IH by exact Hevs. apply step_keeps_pin, Hev.
Qed.

Lemma pin_is_sticky_witness :
  let a := classBox "a" [] in
  let b := classBox "b" [] in
  let s := run initial [PinComponent a] in
  pinnedComponent (run s [HoverComponent (Some b); HoverComponent None; TimerFires 1;
                          PaneMouseEnter; PaneMouseLeave; TimerFires 2])
  = Some a.
Proof.
  intros a b s.
  apply (pin_is_sticky [HoverComponent (Some b); HoverComponent None; TimerFires 1;
                        PaneMouseEnter; PaneMouseLeave; TimerFires 2] s).
  reflexivity.
Defined.

(** X12: the pointer reaching the pane keeps the hover. In every
    state the component reaches, after a hover-leave followed by the
    pointer entering the pane, no timer is pending and the hovered
    component is the one before: whatever timers are then said to come
    due, it stays hovered. *)
Theorem pane_enter_keeps_hover (evs : list Event) (handles : list Z) :
  let s := run initial evs in
  let s' := run s [HoverComponent None; PaneMouseEnter] in
  timers s' = ∅
  /\ hoveredComponent s' = hoveredComponent s
  /\ hoveredComponent (run s' (map TimerFires handles)) = hoveredComponent s.
Proof.
  intros s s'.
  assert (Hs : single_slot s)
    by apply Selection.run_single_slot, Selection.single_slot_initial.
  assert (Hs1 : single_slot (handleHoverComponent None s))
    by apply (Selection.step_single_slot s (HoverComponent None)), Hs.
  assert (Ht : timers s' = ∅) by apply (Selection.clearHoverTimeout_timers _ Hs1).
  assert (Hh : hoveredComponent s' = hoveredComponent s).
  { subst s'. cbn [run fold_left step].
    destruct (Selection.clearHoverTimeout_frame (handleHoverComponent None s))
      as (_ & -> & _).
    apply hover_leave_frame. }
  split; [exact Ht|]. split; [exact Hh|].
  rewrite Selection.fires_with_none_pending by exact Ht. exact Hh.
Qed.

Lemma arm_timers s :
  single_slot s ->
  timers (handleHoverComponent None s) = {[nextHandle s := ClearHovered]}.
Proof.
  intros Hs. unfold handleHoverComponent. cbn -[clearHoverTimeout].
  rewrite (Selection.clearHoverTimeout_timers s Hs).
  destruct (Selection.clearHoverTimeout_frame s) as (-> & _ & _). reflexivity.
Qed.

(** X13: left alone, the debounce does clear the hover. In every state
    the component reaches, when the timer armed by a hover-leave comes
    due, nothing is hovered any more, no timer is pending, the pin is as
    it was and the component to show is the pinned one, if any. *)
Theorem hover_leave_then_timer_clears (evs : list Event) :
  let s := run initial evs in
  let s' := run s [HoverComponent None; TimerFires (nextHandle s)] in
  hoveredComponent s' = None
  /\ timers s' = ∅
  /\ pinnedComponent s' = pinnedComponent s
  /\ componentToShow s' = pinnedComponent s.
Proof.
  intros s s'.
  assert (Hs : single_slot s)
    by apply Selection.run_single_slot, Selection.single_slot_initial.
  pose proof (arm_timers s Hs) as Harmed.
  destruct (hover_leave_frame s) as [_ Hpin].
  subst s'. cbn [run fold_left step]. unfold timerFires.
  rewrite Harmed, lookup_singleton_eq. cbn -[handleHoverComponent].
  rewrite Harmed, delete_singleton_eq, Hpin.
  unfold componentToShow. cbn -[handleHoverComponent]. rewrite Hpin.
  repeat split. destruct (pinnedComponent s); reflexivity.
Qed.

End SelectionMore.

(* ===================================================================== *)
(** * Properties of the viewer's modals *)
(* ===================================================================== *)

Module Modals.
Import ViewerChrome.

Lemma chrome_run_cons s ev evs : run s (ev :: evs) = run (step s ev) evs.
Proof. reflexivity. Qed.

Lemma step_modalHasDiagram pattern s ev :
  possible pattern ev -> modalHasDiagram pattern s -> modalHasDiagram pattern (step s ev).
Proof.
  unfold modalHasDiagram, possible, buttons.
  destruct ev as [[]| |]; cbn; auto; intros Hin Hs.
  - destruct Hin as [Hin|Hin]; [discriminate|].
    destruct (truthy_diagram (DesignPattern.useCaseDiagram pattern)); [reflexivity|].
    exfalso. apply in_app_or in Hin as [[]|Hin].
    apply in_app_or in Hin as [Hin|[Hin|[]]]; [|discriminate].
    destruct (truthy_diagram (DesignPattern.sequenceDiagram pattern));
      [destruct Hin as [Hin|[]]; discriminate | destruct Hin].
  - destruct Hin as [Hin|Hin]; [discriminate|].
    destruct (truthy_diagram (DesignPattern.sequenceDiagram pattern)); [reflexivity|].
    exfalso. apply in_app_or in Hin as [Hin|Hin].
    + destruct (truthy_diagram (DesignPattern.useCaseDiagram pattern));
        [destruct Hin as [Hin|[]]; discriminate | destruct Hin].
    + destruct Hin as [Hin|[]]; discriminate.
Qed.

(** X14: under one pattern, the diagram modal always has something to
    show. After any trace of clicks on buttons that the title bar shows
    and of closings, a diagram modal that is rendered is handed a
    diagram of the pattern that is defined and not empty. *)
Theorem diagram_modal_has_content
    (pattern : DesignPattern.t) (evs : list Event) (title : string)
    (svgContent : option string) :
  Forall (possible pattern) evs ->
  diagramModal pattern (run initial evs) = Some (title, svgContent) ->
  exists svg, svgContent = Some svg /\ svg <> ""%string.
Proof.
  intros Hevs.
  assert (Hinv : modalHasDiagram pattern (run initial evs)).
  { assert (Hinit : modalHasDiagram pattern initial) by exact I.
    revert Hinit. generalize initial.
    induction Hevs as [|ev evs Hev _ IH]; intros s Hs; [exact Hs|].
    rewrite chrome_run_cons. apply IH, step_modalHasDiagram; assumption. }
  unfold diagramModal, modalHasDiagram in *.
  destruct (activeModal (run initial evs)) as [[]|]; [| |discriminate];
    intros [= <- <-]; unfold truthy_diagram in Hinv.
  - destruct (DesignPattern.sequenceDiagram pattern) as [svg|]; [|discriminate].
    exists svg. split; [reflexivity|]. intros ->. discriminate.
  - destruct (DesignPattern.useCaseDiagram pattern) as [svg|]; [|discriminate].
    exists svg. split; [reflexivity|]. intros ->. discriminate.
Qed.

Lemma diagram_modal_has_content_witness :
  exists svg, Some "<svg>sequence</svg>"%string = Some svg /\ svg <> ""%string.
Proof.
  apply (diagram_modal_has_content
           (DesignPattern.mk "sample" "Sample" Behavioral "" [] [] ""
                             (Diagram.mk [] "0 0 600 400")
                             (Some "<svg>sequence</svg>"%string) None)
           [Click FullScreenButton; Click CodeButton; Click SequenceButton; CloseAllCode]
           "Sequence Diagram").
  - repeat apply List.Forall_cons; try apply List.Forall_nil; cbn; auto.
  - reflexivity.
Defined.

End Modals.

(* ===================================================================== *)
(** * More on CodePane: choosing a language *)
(* ===================================================================== *)

Module SnippetsMore.
Import CodePane.

Lemma hasCode_key component language :
  In language (availableLanguages component) -> language <> ""%string ->
  hasCode component language = true.
Proof.
  intros Hin Hne. unfold hasCode. apply andb_true_intro. split.
  - destruct (availableLanguages component); [destruct Hin | reflexivity].
  - destruct (truthy_string language) eqn:Htruthy; [reflexivity|].
    apply Snippets.truthy_string_false in Htruthy. contradiction.
Qed.


Lemma selected_tabs_of_stranger selectedLanguage keys :
  ~ In selectedLanguage keys ->
  List.filter selected (map (tab selectedLanguage) keys) = [].
Proof.
  induction keys as [|k keys IH]; intros Hnot; [reflexivity|].
  cbn [map List.filter tab selected].
  destruct (String.eqb_spec selectedLanguage k) as [->|_].
  - exfalso. apply Hnot. left. reflexivity.
  - apply IH. intros Hin. apply Hnot. right. exact Hin.
Qed.



(** X16: a selection the component has no snippet for. When the
    selected language is not the empty string, no name of
    [Object.prototype] and not a key of a mapping that has keys, the
    lookup [component.code[selectedLanguage]] is [undefined]; the pane
    still offers the keys as tags, with no tab drawn as selected, and
    shows the placeholder [// Code for ... not available.], which names
    the language by its entry in [languageMap] and reads "undefined"
    for a language that has none. *)
Theorem missing_language_placeholder
    (component : DiagramComponent.t) (selectedLanguage : string) :
  availableLanguages component <> [] ->
  selectedLanguage <> ""%string ->
  ObjectPrototype.inherits selectedLanguage = false ->
  ~ In selectedLanguage (availableLanguages component) ->
  let view := render component selectedLanguage in
  ObjectPrototype.read (DiagramComponent.code component) selectedLanguage
  = ObjectPrototype.Undefined
  /\ tags view = availableLanguages component
  /\ (exists ts, tabs view = Some ts /\ List.filter selected ts = [])
  /\ body view
     = SyntaxHighlighter
         (get highlighterLanguageMap selectedLanguage)
         ("// Code for "
          ++ match get languageMap selectedLanguage with
             | Some name => name
             | None => "undefined"
             end
          ++ " not available.")%string.
Proof.
  intros Hkeys Hne Hown Hnot view. subst view. unfold render.
  assert (Hcode : hasCode component selectedLanguage = true).
  { unfold hasCode. apply andb_true_intro. split.
    - destruct (availableLanguages component); [congruence | reflexivity].
    - destruct (truthy_string selectedLanguage) eqn:Htruthy; [reflexivity|].
      apply Snippets.truthy_string_false in Htruthy. contradiction. }
  assert (Hget : get (DiagramComponent.code component) selectedLanguage = None).
  { unfold availableLanguages, Object_keys in Hnot.
    induction (DiagramComponent.code component) as [|[k v] code IH]; [reflexivity|].
    cbn [get]. destruct (String.eqb_spec k selectedLanguage) as [->|_].
    - exfalso. apply Hnot. left. reflexivity.
    - apply IH. intros Hin. apply Hnot. right. exact Hin. }
  rewrite Hcode. split; [|split; [apply Snippets.tags_tabs|split]].
  - unfold ObjectPrototype.read. rewrite Hget, Hown. reflexivity.
  - eexists. split; [reflexivity|]. apply selected_tabs_of_stranger, Hnot.
  - cbn [body]. rewrite Hget. reflexivity.
Qed.

Lemma missing_language_placeholder_witness :
  let arrow := classBox "arrow-uses" [("java", "The Context delegates.")]%string in
  ObjectPrototype.read (DiagramComponent.code arrow) "python" = ObjectPrototype.Undefined
  /\ tags (render arrow "python") = ["java"]%string
  /\ (exists ts, tabs (render arrow "python") = Some ts /\ List.filter selected ts = [])
  /\ body (render arrow "python")
     = SyntaxHighlighter (Some "python"%string) "// Code for Python not available.".
Proof.
  intros arrow.
  apply (missing_language_placeholder arrow "python").
  - discriminate.
  - discriminate.
  - reflexivity.
  - cbn. intuition discriminate.
Defined.

End SnippetsMore.

(* ===================================================================== *)
(** * Properties of AllCodeModal *)
(* ===================================================================== *)

Module AllCode.
Import AllCodeModal.

(** ** The set of languages *)

Lemma add_In langSet lang x : In x (add langSet lang) <-> In x langSet \/ x = lang.
Proof.
  unfold add. destruct (CodePane.includes langSet lang) eqn:Hin.
  - apply Snippets.includes_In in Hin. split; [auto|]. intros [H| ->]; assumption.
  - rewrite in_app_iff. cbn. intuition.
Qed.

Lemma add_NoDup langSet lang : List.NoDup langSet -> List.NoDup (add langSet lang).
Proof.
  intros Hnodup. unfold add. destruct (CodePane.includes langSet lang) eqn:Hin;
    [exact Hnodup|].
  apply List.NoDup_app; [exact Hnodup | repeat constructor; intros [] |].
  intros x Hx [<-|[]]. apply Snippets.includes_In in Hx. congruence.
Qed.

Lemma add_all_In keys : forall langSet x,
  In x (fold_left add keys langSet) <-> In x langSet \/ In x keys.
Proof.
  induction keys as [|k keys IH]; intros langSet x; cbn [fold_left].
  - cbn. intuition.
  - rewrite IH, add_In. cbn. intuition.
Qed.

Lemma add_all_NoDup keys : forall langSet,
  List.NoDup langSet -> List.NoDup (fold_left add keys langSet).
Proof.
  induction keys as [|k keys IH]; intros langSet Hnodup; [exact Hnodup|].
  cbn [fold_left]. apply IH, add_NoDup, Hnodup.
Qed.

Lemma langSet_of_In (components : list DiagramComponent.t) : forall langSet x,
  In x (fold_left (fun langSet c =>
                     fold_left add (CodePane.Object_keys (DiagramComponent.code c)) langSet)
                  components langSet)
  <-> In x langSet
      \/ exists c, In c components /\ In x (CodePane.availableLanguages c).
Proof.
  induction components as [|c components IH]; intros langSet x; cbn [fold_left].
  - split; [auto|]. intros [H|(c & [] & _)]. exact H.
  - rewrite IH, add_all_In. split.
    + intros [[H|H]|(c' & Hc' & Hx)]; [auto| |].
      * right. exists c. split; [left; reflexivity | exact H].
      * right. exists c'. split; [right; exact Hc' | exact Hx].
    + intros [H|(c' & [<-|Hc'] & Hx)]; [auto | auto |].
      right. exists c'. auto.
Qed.

Lemma langSet_of_NoDup (components : list DiagramComponent.t) : forall langSet,
  List.NoDup langSet ->
  List.NoDup (fold_left (fun langSet c =>
                      fold_left add (CodePane.Object_keys (DiagramComponent.code c)) langSet)
                   components langSet).
Proof.
  induction components as [|c components IH]; intros langSet Hnodup; [exact Hnodup|].
  cbn [fold_left]. apply IH, add_all_NoDup, Hnodup.
Qed.

(** ** Sorting *)

Lemma insert_Permutation lang sorted : Permutation (insert lang sorted) (lang :: sorted).
Proof.
  induction sorted as [|first rest IH]; [reflexivity|]. cbn [insert].
  destruct (String.leb lang first); [reflexivity|].
  rewrite IH. apply perm_swap.
Qed.

Lemma sort_Permutation langs : Permutation (sort langs) langs.
Proof.
  induction langs as [|lang langs IH]; [reflexivity|]. cbn [sort fold_right].
  fold (sort langs). rewrite insert_Permutation, IH. reflexivity.
Qed.

Lemma insert_ascending lang sorted :
  ascending sorted = true -> ascending (insert lang sorted) = true.
Proof.
  induction sorted as [|first rest IH]; intros Hsorted; [reflexivity|].
  cbn [insert]. destruct (String.leb lang first) eqn:Hle.
  - cbn [ascending]. rewrite Hle. exact Hsorted.
  - assert (Hge : String.leb first lang = true).
    { destruct (String.leb_total lang first) as [H|H]; [congruence | exact H]. }
    destruct rest as [|second rest].
    + cbn. rewrite Hge. reflexivity.
    + cbn [ascending] in Hsorted. apply andb_prop in Hsorted as [Hfs Hrest].
      specialize (IH Hrest). cbn [insert] in IH |- *.
      destruct (String.leb lang second).
      * cbn [ascending] in IH |- *. rewrite Hge. exact IH.
      * cbn [ascending] in IH |- *. rewrite Hfs. exact IH.
Qed.

Lemma sort_ascending langs : ascending (sort langs) = true.
Proof.
  induction langs as [|lang langs IH]; [reflexivity|]. cbn [sort fold_right].
  apply insert_ascending, IH.
Qed.

(** X17: the language tabs of the modal are the keys of the code
    mappings of the pattern's components: each language that some
    component has a snippet entry for, once, in ascending order. *)
Theorem modal_languages (pattern : DesignPattern.t) :
  let components := Diagram.components (DesignPattern.diagram pattern) in
  (forall lang,
     In lang (availableLanguages pattern)
     <-> exists c, In c components /\ In lang (CodePane.availableLanguages c))
  /\ List.NoDup (availableLanguages pattern)
  /\ ascending (availableLanguages pattern) = true
  /\ map CodePane.lang (tabs (render pattern (initialSelectedLanguage pattern)))
     = availableLanguages pattern.
Proof.
  intros components. unfold availableLanguages. repeat split.
  - intros Hin. apply (Permutation_in _ (sort_Permutation _)) in Hin.
    apply langSet_of_In in Hin as [[]|Hin]. exact Hin.
  - intros Hex. apply (Permutation_in _ (Permutation_sym (sort_Permutation _))).
    apply langSet_of_In. right. exact Hex.
  - apply (Permutation_NoDup (Permutation_sym (sort_Permutation _))).
    apply langSet_of_NoDup. constructor.
  - apply sort_ascending.
  - cbn [render tabs]. apply Snippets.tags_tabs.
Qed.

(** ** The cards *)

Lemma get_Some_In record key value :
  CodePane.get record key = Some value -> In (key, value) record.
Proof.
  induction record as [|[k v] record IH]; [discriminate|]. cbn [CodePane.get].
  destruct (String.eqb_spec k key) as [->|_].
  - intros [= ->]. left. reflexivity.
  - intros Hget. right. apply IH, Hget.
Qed.

Lemma get_Some_key record key value :
  CodePane.get record key = Some value -> In key (CodePane.Object_keys record).
Proof.
  intros Hget. apply get_Some_In in Hget.
  apply (in_map fst) in Hget. exact Hget.
Qed.

(** Off the names of [Object.prototype], reading a record is looking up
    its own entries. *)
Lemma read_not_inherited record key :
  ObjectPrototype.inherits key = false ->
  ObjectPrototype.read record key = ObjectPrototype.ofOption (CodePane.get record key).
Proof.
  intros Hkey. unfold ObjectPrototype.read. rewrite Hkey.
  destruct (CodePane.get record key); reflexivity.
Qed.

(** A member is found exactly under an inherited name that the record
    has no entry for. *)
Lemma read_Member record key :
  ObjectPrototype.read record key = ObjectPrototype.Member
  <-> ObjectPrototype.inherits key = true /\ CodePane.get record key = None.
Proof.
  unfold ObjectPrototype.read.
  destruct (CodePane.get record key), (ObjectPrototype.inherits key);
    split; try discriminate; try (intros [? ?]; discriminate); auto.
Qed.

Lemma hasSnippet_own language c :
  ObjectPrototype.inherits language = false ->
  hasSnippet language c = true ->
  exists snippet,
    CodePane.get (DiagramComponent.code c) language = Some snippet
    /\ truthy_string snippet = true.
Proof.
  intros Hkey. unfold hasSnippet. rewrite (read_not_inherited _ _ Hkey).
  destruct (CodePane.get (DiagramComponent.code c) language) as [snippet|];
    [|discriminate].
  intros Htruthy. exists snippet. split; [reflexivity | exact Htruthy].
Qed.

(** The text of the card of a component that has a snippet of its own. *)
Lemma cardsOf_own v language (cs : list DiagramComponent.t) :
  ObjectPrototype.inherits language = false ->
  (forall c, In c cs -> hasSnippet language c = true) ->
  cardsOf v (map (snippetOf language) cs)
  = Some (map (fun c =>
                 mkCard (DiagramComponent.label c) v
                        (CodePane.trim
                           (match CodePane.get (DiagramComponent.code c) language with
                            | Some snippet => snippet
                            | None => ""%string
                            end)))
              cs).
Proof.
  intros Hkey. induction cs as [|c cs IH]; intros Hall; [reflexivity|].
  cbn [map cardsOf snippetOf code label].
  destruct (hasSnippet_own language c Hkey (Hall c (or_introl eq_refl)))
    as (snippet & Hget & _).
  rewrite (read_not_inherited _ _ Hkey), Hget. cbn [ObjectPrototype.ofOption ObjectPrototype.trimmed].
  rewrite IH by (intros c' Hc'; apply Hall; right; exact Hc'). reflexivity.
Qed.

(** Building the cards throws exactly when some snippet is a member of
    [Object.prototype]. *)
Lemma cardsOf_None v snippets :
  cardsOf v snippets = None
  <-> exists snippet, In snippet snippets /\ code snippet = ObjectPrototype.Member.
Proof.
  induction snippets as [|snippet rest IH]; cbn [cardsOf].
  - split; [discriminate | intros (? & [] & _)].
  - destruct (code snippet) as [text| |] eqn:Hcode; cbn [ObjectPrototype.trimmed].
    + destruct (cardsOf v rest) as [cards|].
      * split; [discriminate|]. intros (sn & [<-|Hin] & Hmember); [congruence|].
        apply proj2 in IH. specialize (IH (ex_intro _ sn (conj Hin Hmember))).
        discriminate.
      * split; [|reflexivity]. intros _.
        destruct (proj1 IH eq_refl) as (sn & Hin & Hmember).
        exists sn. split; [right; exact Hin | exact Hmember].
    + split; [|reflexivity]. intros _. exists snippet. split; [left; reflexivity | exact Hcode].
    + destruct (cardsOf v rest) as [cards|].
      * split; [discriminate|]. intros (sn & [<-|Hin] & Hmember); [congruence|].
        apply proj2 in IH. specialize (IH (ex_intro _ sn (conj Hin Hmember))).
        discriminate.
      * split; [|reflexivity]. intros _.
        destruct (proj1 IH eq_refl) as (sn & Hin & Hmember).
        exists sn. split; [right; exact Hin | exact Hmember].
Qed.

Lemma cardsOf_headings v snippets : forall cards,
  cardsOf v snippets = Some cards -> map heading cards = map label snippets.
Proof.
  induction snippets as [|snippet rest IH]; intros cards; cbn [cardsOf].
  - intros [= <-]. reflexivity.
  - destruct (ObjectPrototype.trimmed (code snippet)) as [text|]; [|discriminate].
    destruct (cardsOf v rest) as [cards'|]; [|discriminate].
    intros [= <-]. cbn [map heading]. rewrite (IH cards' eq_refl). reflexivity.
Qed.

Lemma panel_of_snippets pattern language :
  panel (render pattern language)
  = match codeSnippets pattern language with
    | [] => NoSnippets "No code snippets available for this language."
    | snippets =>
        match cardsOf (ObjectPrototype.read CodePane.highlighterLanguageMap language)
                      snippets with
        | Some cards => Cards cards
        | None => TypeError
        end
    end.
Proof. reflexivity. Qed.

(** The panel for a language that is no name of [Object.prototype],
    when some component has a snippet in it. *)
Lemma panel_of_own pattern language :
  ObjectPrototype.inherits language = false ->
  List.filter (hasSnippet language) (Diagram.components (DesignPattern.diagram pattern)) <> [] ->
  panel (render pattern language)
  = Cards (map (fun c =>
                  mkCard (DiagramComponent.label c)
                         (ObjectPrototype.ofOption
                            (CodePane.get CodePane.highlighterLanguageMap language))
                         (CodePane.trim
                            (match CodePane.get (DiagramComponent.code c) language with
                             | Some snippet => snippet
                             | None => ""%string
                             end)))
               (List.filter (hasSnippet language)
                            (Diagram.components (DesignPattern.diagram pattern)))).
Proof.
  intros Hkey Hsome. rewrite panel_of_snippets. unfold codeSnippets.
  rewrite (read_not_inherited _ _ Hkey).
  pose proof (cardsOf_own
                (ObjectPrototype.ofOption
                   (CodePane.get CodePane.highlighterLanguageMap language))
                language
                (List.filter (hasSnippet language)
                             (Diagram.components (DesignPattern.diagram pattern)))
                Hkey) as Hcards.
  assert (Hall : forall c,
            In c (List.filter (hasSnippet language)
                              (Diagram.components (DesignPattern.diagram pattern))) ->
            hasSnippet language c = true)
    by (intros c Hc; apply filter_In in Hc; apply Hc).
  specialize (Hcards Hall). clear Hall.
  destruct (List.filter (hasSnippet language)
                        (Diagram.components (DesignPattern.diagram pattern)))
    as [|first others]; [congruence|].
  cbn [map] in Hcards |- *. rewrite Hcards. reflexivity.
Qed.

(** X18: the modal and the code pane agree. For a language that is
    not the empty string and no name of [Object.prototype], and a
    component of the pattern that has a snippet in it which is not
    empty, the modal shows a card headed by the component's label whose
    highlighter language and text are the very ones the code pane shows
    for that component in that language. *)
Theorem modal_card_matches_pane
    (pattern : DesignPattern.t) (language : string) (c : DiagramComponent.t) :
  language <> ""%string ->
  ObjectPrototype.inherits language = false ->
  In c (Diagram.components (DesignPattern.diagram pattern)) ->
  hasSnippet language c = true ->
  exists text cards,
    CodePane.body (CodePane.render c language)
    = CodePane.SyntaxHighlighter
        (CodePane.get CodePane.highlighterLanguageMap language) text
    /\ panel (render pattern language) = Cards cards
    /\ In (mkCard (DiagramComponent.label c)
                  (ObjectPrototype.ofOption
                     (CodePane.get CodePane.highlighterLanguageMap language))
                  text)
          cards.
Proof.
  intros Hne Hkey Hin Hsnippet.
  destruct (hasSnippet_own language c Hkey Hsnippet) as (snippet & Hget & _).
  exists (CodePane.trim snippet).
  assert (Hkept : In c (List.filter (hasSnippet language)
                          (Diagram.components (DesignPattern.diagram pattern))))
    by (apply filter_In; auto).
  eexists. split; [|split].
  - unfold CodePane.render.
    rewrite (SnippetsMore.hasCode_key c language (get_Some_key _ _ _ Hget) Hne).
    cbn [CodePane.body]. rewrite Hget. reflexivity.
  - apply (panel_of_own pattern language Hkey). intros Hnone.
    rewrite Hnone in Hkept. destruct Hkept.
  - apply in_map_iff. exists c. rewrite Hget. split; [reflexivity | exact Hkept].
Qed.

Lemma modal_card_matches_pane_witness :
  let strategy := classBox "strategy" [("java", "
interface Strategy {}
")]%string in
  let pattern := patternOf [classBox "context" [("python", "pass")]%string; strategy] in
  exists text cards,
    CodePane.body (CodePane.render strategy "java")
    = CodePane.SyntaxHighlighter (Some "java"%string) text
    /\ panel (render pattern "java") = Cards cards
    /\ In (mkCard "strategy" (ObjectPrototype.Str "java") text) cards.
Proof.
  intros strategy pattern.
  apply (modal_card_matches_pane pattern "java" strategy).
  - discriminate.
  - reflexivity.
  - right. left. reflexivity.
  - reflexivity.
Defined.

(** X19: what the tab panel of the modal comes to, for any selected
    language. It reports that no code snippets are available exactly
    when the lookup [c.code[selectedLanguage]] is truthy for no component
    of the pattern. It throws a TypeError exactly when the language is a
    name of [Object.prototype] that some component has no entry for: the
    lookup then finds the inherited member, which has no [trim]. In any
    other case it shows one card for each component whose lookup is
    truthy, headed by its label, in the order of the diagram. *)
Theorem modal_empty_iff_no_snippet (pattern : DesignPattern.t) (language : string) :
  let components := Diagram.components (DesignPattern.diagram pattern) in
  (panel (render pattern language)
   = NoSnippets "No code snippets available for this language."
   <-> forall c, In c components -> hasSnippet language c = false)
  /\ (panel (render pattern language) = TypeError
      <-> ObjectPrototype.inherits language = true
          /\ exists c, In c components
                       /\ CodePane.get (DiagramComponent.code c) language = None)
  /\ (forall cards,
        panel (render pattern language) = Cards cards ->
        map heading cards
        = map DiagramComponent.label (List.filter (hasSnippet language) components)).
Proof.
  intros components. rewrite panel_of_snippets. unfold codeSnippets. fold components.
  set (v := ObjectPrototype.read CodePane.highlighterLanguageMap language).
  split; [|split].
  - split.
    + intros Hpanel c Hc.
      destruct (hasSnippet language c) eqn:Hsnippet; [|reflexivity].
      assert (Hin : In c (List.filter (hasSnippet language) components))
        by (apply filter_In; auto).
      destruct (List.filter (hasSnippet language) components) as [|c' cs];
        [destruct Hin|].
      cbn [map] in Hpanel. destruct (cardsOf v _); discriminate Hpanel.
    + intros Hnone.
      destruct (List.filter (hasSnippet language) components) as [|c cs] eqn:Hf;
        [reflexivity|].
      assert (Hin : In c (List.filter (hasSnippet language) components))
        by (rewrite Hf; left; reflexivity).
      apply filter_In in Hin as [Hc Hsnippet]. rewrite (Hnone c Hc) in Hsnippet.
      discriminate.
  - assert (Hthrows :
              cardsOf v (map (snippetOf language)
                             (List.filter (hasSnippet language) components)) = None
              <-> ObjectPrototype.inherits language = true
                  /\ exists c, In c components
                               /\ CodePane.get (DiagramComponent.code c) language = None).
    { rewrite cardsOf_None. split.
      - intros (snippet & Hin & Hmember).
        apply in_map_iff in Hin as (c & <- & Hc). apply filter_In in Hc as [Hc _].
        cbn [snippetOf code] in Hmember. apply read_Member in Hmember as [Hkey Hget].
        split; [exact Hkey|]. exists c. auto.
      - intros (Hkey & c & Hc & Hget). exists (snippetOf language c).
        assert (Hmember : ObjectPrototype.read (DiagramComponent.code c) language
                          = ObjectPrototype.Member) by (apply read_Member; auto).
        split; [|exact Hmember].
        apply in_map, filter_In. split; [exact Hc|].
        unfold hasSnippet. rewrite Hmember. reflexivity. }
    destruct (List.filter (hasSnippet language) components) as [|c cs] eqn:Hf.
    + split; [discriminate|]. intros Hex. apply Hthrows in Hex. discriminate Hex.
    + cbn [map] in *.
      destruct (cardsOf v (snippetOf language c :: map (snippetOf language) cs)) as [cards|].
      * split; [discriminate|]. intros Hex. apply Hthrows in Hex. discriminate Hex.
      * split; [intros _; apply Hthrows; reflexivity | reflexivity].
  - intros cards.
    destruct (List.filter (hasSnippet language) components) as [|c cs];
      [discriminate|].
    cbn [map].
    destruct (cardsOf v (snippetOf language c :: map (snippetOf language) cs))
      as [cards'|] eqn:Hcards; [|discriminate].
    intros Hpanel. injection Hpanel as <-.
    rewrite (cardsOf_headings _ _ _ Hcards). cbn [map snippetOf label].
    rewrite map_map. reflexivity.
Qed.

(** X20: when no snippet of the pattern is the empty string and no key
    of a code mapping is a name of [Object.prototype], every language
    tab has something to show, and so has the modal as it opens,
    provided some component has a snippet at all. *)
Theorem modal_tabs_have_cards (pattern : DesignPattern.t) :
  (forall c key snippet,
     In c (Diagram.components (DesignPattern.diagram pattern)) ->
     In (key, snippet) (DiagramComponent.code c) ->
     snippet <> ""%string /\ ObjectPrototype.inherits key = false) ->
  (forall language,
     In language (availableLanguages pattern) ->
     exists card cards, panel (render pattern language) = Cards (card :: cards))
  /\ (availableLanguages pattern <> [] ->
      exists card cards,
        panel (render pattern (initialSelectedLanguage pattern)) = Cards (card :: cards)).
Proof.
  intros Hfull.
  assert (Htab : forall language,
            In language (availableLanguages pattern) ->
            exists card cards, panel (render pattern language) = Cards (card :: cards)).
  { intros language Hlang.
    apply (Permutation_in _ (sort_Permutation _)) in Hlang.
    apply langSet_of_In in Hlang as [[]|(c & Hc & Hkey)].
    destruct (Snippets.get_key _ _ Hkey) as [snippet Hget].
    destruct (Hfull c language snippet Hc (get_Some_In _ _ _ Hget)) as [Hsome Hown].
    assert (Hsnippet : hasSnippet language c = true).
    { unfold hasSnippet, ObjectPrototype.read. rewrite Hget. cbn [ObjectPrototype.truthy].
      destruct (truthy_string snippet) eqn:Htruthy; [reflexivity|].
      apply Snippets.truthy_string_false in Htruthy. contradiction. }
    assert (Hin : In c (List.filter (hasSnippet language)
                          (Diagram.components (DesignPattern.diagram pattern))))
      by (apply filter_In; auto).
    rewrite (panel_of_own pattern language Hown)
      by (intros Hnone; rewrite Hnone in Hin; destruct Hin).
    destruct (List.filter (hasSnippet language)
                          (Diagram.components (DesignPattern.diagram pattern)))
      as [|c' cs]; [destruct Hin|].
    cbn [map]. eauto. }
  split; [exact Htab|].
  intros Hlangs. apply Htab. unfold initialSelectedLanguage.
  destruct (CodePane.includes (availableLanguages pattern) "java") eqn:Hjava;
    [apply Snippets.includes_In, Hjava|].
  destruct (availableLanguages pattern) as [|first rest]; [congruence|].
  cbn. unfold CodePane.or_string.
  destruct (truthy_string first) eqn:Hfirst; [left; reflexivity|].
  apply Snippets.truthy_string_false in Hfirst. left. exact Hfirst.
Qed.

Lemma modal_tabs_have_cards_witness :
  let pattern := patternOf [classBox "context" [("python", "pass")]%string;
                            classBox "strategy" [("java", "interface Strategy {}")]%string] in
  exists card cards, panel (render pattern "python") = Cards (card :: cards).
Proof.
  intros pattern.
  apply (proj1 (modal_tabs_have_cards pattern
    ltac:(intros c key snippet [<-|[<-|[]]] [[= <- <-]|[]];
          (split; [discriminate | reflexivity])))).
  right. left. reflexivity.
Defined.

(** A language tab that throws: two components, of which one has a
    snippet under the key [toString]. With that tab selected the lookup
    finds the inherited function on the other component, which is kept
    by the filter, and building its card throws. *)
Example modal_throws_on_inherited_key :
  let pattern := patternOf [classBox "context" [("toString", "x")]%string;
                            classBox "strategy" [("java", "y")]%string] in
  In "toString"%string (availableLanguages pattern)
  /\ panel (render pattern "toString") = TypeError.
Proof. vm_compute. split; [right; left|]; reflexivity. Qed.

End AllCode.

(* ===================================================================== *)
(** * Properties of Sidebar *)
(* ===================================================================== *)

Module Navigation.
Import Sidebar.

Lemma shown_cons (p : DesignPattern.t) patterns e :
  Permutation (shown (p :: patterns) e)
              (if get e (DesignPattern.category p)
               then p :: shown patterns e else shown patterns e).
Proof.
  unfold shown, categories, groupedPatterns. cbn [flat_map List.filter].
  rewrite !app_nil_r.
  destruct e as [cr st be], (DesignPattern.category p); cbn [get category_eqb creational structural behavioral];
    destruct cr, st, be; cbn [app]; try reflexivity;
    try (symmetry; apply Permutation_middle);
    try (rewrite !app_assoc; symmetry; apply Permutation_middle).
Qed.

Lemma shown_Permutation patterns e :
  Permutation (shown patterns e)
              (List.filter (fun p => get e (DesignPattern.category p)) patterns).
Proof.
  induction patterns as [|p patterns IH].
  - destruct e as [[] [] []]; reflexivity.
  - rewrite shown_cons. cbn [List.filter].
    destruct (get e (DesignPattern.category p)); [apply perm_skip|]; exact IH.
Qed.

(** X21: the navigation loses and repeats no pattern. The pattern
    buttons shown are, up to their order, the patterns whose category is
    expanded: each once for each time it is in the catalog. With every
    category expanded they are all the patterns; at first, with none
    expanded, there is none. *)
Theorem sidebar_shows_expanded_patterns (patterns : list DesignPattern.t) (e : Expanded) :
  Permutation (shown patterns e)
              (List.filter (fun p => get e (DesignPattern.category p)) patterns)
  /\ Permutation (shown patterns (mkExpanded true true true)) patterns
  /\ shown patterns initial = [].
Proof.
  split; [apply shown_Permutation|]. split.
  - rewrite shown_Permutation.
    induction patterns as [|p patterns IH]; [reflexivity|]. cbn [List.filter].
    destruct (DesignPattern.category p); cbn [get creational structural behavioral];
      apply perm_skip, IH.
  - unfold shown, categories. cbn. reflexivity.
Qed.

(** X22: expanding and collapsing. Toggling a category flips its flag
    and no other; toggling it twice gives back the state; toggles of two
    categories can be done in either order. A pattern is shown after a
    toggle of the category exactly when it is in the catalog and either
    it is of that category, which was collapsed, or of another one,
    which is expanded. *)
Theorem toggleCategory_flips_one
    (category other : PatternCategory) (e : Expanded)
    (patterns : list DesignPattern.t) (p : DesignPattern.t) :
  get (toggleCategory category e) other
  = (if category_eqb category other then negb (get e other) else get e other)
  /\ toggleCategory category (toggleCategory category e) = e
  /\ toggleCategory category (toggleCategory other e)
     = toggleCategory other (toggleCategory category e)
  /\ (In p (shown patterns (toggleCategory category e))
      <-> In p patterns
          /\ (if category_eqb category (DesignPattern.category p)
              then negb (get e category) else get e (DesignPattern.category p)) = true).
Proof.
  split; [destruct e as [[] [] []], category, other; reflexivity|].
  split; [destruct e as [[] [] []], category; reflexivity|].
  split; [destruct e as [[] [] []], category, other; reflexivity|].
  pose proof (shown_Permutation patterns (toggleCategory category e)) as Hperm.
  split.
  - intros Hin. apply (Permutation_in _ Hperm) in Hin.
    apply filter_In in Hin as [Hin Hget]. split; [exact Hin|].
    destruct e as [[] [] []], category, (DesignPattern.category p); exact Hget.
  - intros [Hin Hget]. apply (Permutation_in _ (Permutation_sym Hperm)).
    apply filter_In. split; [exact Hin|].
    destruct e as [[] [] []], category, (DesignPattern.category p); exact Hget.
Qed.

End Navigation.

(* ===================================================================== *)
(** * Properties of PatternDetails: the comparison text *)
(* ===================================================================== *)

Module Comparison.
Import PatternDetails.
Local Open Scope string_scope.

Lemma ascii_of_code c n : (nat_of_ascii c =? n)%nat = true -> c = ascii_of_nat n.
Proof.
  intros Hc. apply Nat.eqb_eq in Hc. rewrite <- Hc. symmetry. apply ascii_nat_embedding.
Qed.

Lemma isNewline_eq c : isNewline c = true -> c = "010"%char.
Proof. apply ascii_of_code. Qed.

Lemma isStar_eq c : isStar c = true -> c = "*"%char.
Proof. apply ascii_of_code. Qed.

(** ** Paragraphs *)

Lemma concat_cons sep first others c :
  String.concat sep (String c first :: others)
  = String c (String.concat sep (first :: others)).
Proof. destruct others; reflexivity. Qed.

Lemma splitParagraphs_nonempty text : splitParagraphs text <> [].
Proof.
  destruct text as [|c rest]; [discriminate|]. cbn [splitParagraphs].
  destruct (splitParagraphs rest); destruct (isNewline c); try discriminate;
    destruct rest as [|c' rest']; try discriminate; destruct (isNewline c'); discriminate.
Qed.

Lemma splitParagraphs_extend c rest :
  (isNewline c = false
   \/ match rest with String c' _ => isNewline c' = false | EmptyString => True end) ->
  splitParagraphs (String c rest)
  = match splitParagraphs rest with
    | first :: others => String c first :: others
    | [] => [String c EmptyString]
    end.
Proof.
  intros Hc. cbn [splitParagraphs]. destruct (isNewline c); [|reflexivity].
  destruct rest as [|c' rest']; [reflexivity|].
  destruct Hc as [Hc|Hc]; [discriminate|]. rewrite Hc. reflexivity.
Qed.

Lemma splitParagraphs_separator rest :
  splitParagraphs (String "010" (String "010" rest)) = EmptyString :: splitParagraphs rest.
Proof. reflexivity. Qed.

(** The cases of [splitParagraphs] on a text that is not empty. *)
Lemma splitParagraphs_cases c rest :
  (exists rest', c = "010"%char /\ rest = String "010" rest')
  \/ (isNewline c = false
      \/ match rest with String c' _ => isNewline c' = false | EmptyString => True end).
Proof.
  destruct (isNewline c) eqn:Hc; [|auto].
  destruct rest as [|c' rest']; [auto|].
  destruct (isNewline c') eqn:Hc'; [|auto].
  left. exists rest'. rewrite (isNewline_eq _ Hc), (isNewline_eq _ Hc'). auto.
Qed.

Lemma splitParagraphs_join text :
  String.concat "

" (splitParagraphs text) = text
  /\ forall c, String.concat "

" (splitParagraphs (String c text)) = String c text.
Proof.
  induction text as [|c' rest IH].
  - split; [reflexivity|]. intros c. cbn [splitParagraphs].
    destruct (isNewline c); reflexivity.
  - destruct IH as [IHrest IHcons]. split; [apply IHcons|]. intros c.
    destruct (splitParagraphs_cases c (String c' rest)) as [(rest' & -> & Hrest)|Hc].
    + injection Hrest as -> <-. rewrite splitParagraphs_separator.
      pose proof (splitParagraphs_nonempty rest) as Hne.
      destruct (splitParagraphs rest) as [|first others] eqn:Hsplit; [congruence|].
      cbn [String.concat]. rewrite <- IHrest. reflexivity.
    + rewrite (splitParagraphs_extend c (String c' rest) Hc).
      pose proof (splitParagraphs_nonempty (String c' rest)) as Hne.
      destruct (splitParagraphs (String c' rest)) as [|first others] eqn:Hsplit;
        [congruence|].
      rewrite concat_cons. f_equal. rewrite <- Hsplit. apply IHcons.
Qed.

Lemma splitParagraphs_head c rest :
  isNewline c = false ->
  exists first others, splitParagraphs (String c rest) = String c first :: others.
Proof.
  intros Hc. rewrite (splitParagraphs_extend c rest (or_introl Hc)).
  destruct (splitParagraphs rest) as [|first others]; eauto.
Qed.

Lemma splitParagraphs_no_blank text :
  Forall (fun paragraph => hasBlankLine paragraph = false) (splitParagraphs text)
  /\ forall c, Forall (fun paragraph => hasBlankLine paragraph = false)
                      (splitParagraphs (String c text)).
Proof.
  induction text as [|c' rest IH].
  - split; [repeat constructor|]. intros c. cbn [splitParagraphs].
    destruct (isNewline c); repeat constructor.
  - destruct IH as [IHrest IHcons]. split; [apply IHcons|]. intros c.
    destruct (splitParagraphs_cases c (String c' rest)) as [(rest' & -> & Hrest)|Hc].
    + injection Hrest as -> <-. rewrite splitParagraphs_separator.
      constructor; [reflexivity | exact IHrest].
    + rewrite (splitParagraphs_extend c (String c' rest) Hc).
      specialize (IHcons c').
      destruct (splitParagraphs (String c' rest)) as [|first others] eqn:Hsplit;
        [repeat constructor|].
      inversion IHcons as [|? ? Hfirst Hothers]; subst.
      constructor; [|exact Hothers].
      destruct first as [|c0 first']; [reflexivity|].
      change (hasBlankLine (String c (String c0 first')))
        with ((isNewline c && isNewline c0) || hasBlankLine (String c0 first'))%bool.
      rewrite Hfirst, orb_false_r.
      destruct (isNewline c) eqn:Hnl; [|reflexivity].
      destruct Hc as [Hc|Hc]; [discriminate|]. cbn in Hc.
      destruct (splitParagraphs_head c' rest Hc) as (f & o & Hhead).
      rewrite Hhead in Hsplit. injection Hsplit as <- _ _. rewrite Hc. reflexivity.
Qed.

(** X23: splitting the text into paragraphs loses nothing and leaves
    no blank line inside a paragraph: the paragraphs joined by two line
    feeds are the text, there is at least one paragraph, and none has
    two line feeds in a row. *)
Theorem paragraphs_round_trip (text : string) :
  String.concat "

" (splitParagraphs text) = text
  /\ splitParagraphs text <> []
  /\ Forall (fun paragraph => hasBlankLine paragraph = false) (splitParagraphs text).
Proof.
  split; [apply splitParagraphs_join|].
  split; [apply splitParagraphs_nonempty | apply splitParagraphs_no_blank].
Qed.

(** ** Bold parts *)

Lemma append_cons (x : ascii) (a b : string) : String x a ++ b = String x (a ++ b).
Proof. reflexivity. Qed.

Lemma append_nil_l (b : string) : "" ++ b = b.
Proof. reflexivity. Qed.

Lemma append_assoc (a b c : string) : (a ++ b) ++ c = a ++ (b ++ c).
Proof.
  induction a as [|x a IH]; [reflexivity|].
  rewrite !append_cons, IH. reflexivity.
Qed.

Lemma append_empty_r (a : string) : a ++ "" = a.
Proof.
  induction a as [|x a IH]; [reflexivity|]. rewrite append_cons, IH. reflexivity.
Qed.

Lemma length_append (a b : string) :
  String.length (a ++ b) = (String.length a + String.length b)%nat.
Proof.
  induction a as [|x a IH]; [reflexivity|].
  rewrite append_cons. cbn [String.length]. rewrite IH. reflexivity.
Qed.

(** What [lazyInner] finds: the text up to the first two stars in a
    row, which holds no line terminator. *)
Lemma lazyInner_spec s : forall inner after,
  lazyInner s = Some (inner, after) ->
  s = inner ++ "**" ++ after
  /\ hasLineTerminator inner = false
  /\ hasStars (inner ++ "*") = false.
Proof.
  induction s as [|c rest IH]; intros inner after Hlazy; [discriminate|].
  cbn [lazyInner] in Hlazy.
  assert (Hfurther :
            (if isLineTerminator c then None
             else match lazyInner rest with
                  | Some (inner, after) => Some (String c inner, after)
                  | None => None
                  end) = Some (inner, after) ->
            (isStar c = false
             \/ match rest with String c' _ => isStar c' = false | EmptyString => True end) ->
            String c rest = inner ++ "**" ++ after
            /\ hasLineTerminator inner = false
            /\ hasStars (inner ++ "*") = false).
  { intros Hf Hc. destruct (isLineTerminator c) eqn:Hlt; [discriminate|].
    destruct (lazyInner rest) as [[inner' after']|] eqn:Hrest; [|discriminate].
    injection Hf as <- <-. destruct (IH _ _ eq_refl) as (Heq & Hnl & Hst).
    split; [rewrite append_cons, <- Heq; reflexivity|].
    split; [cbn [hasLineTerminator]; rewrite Hlt, Hnl; reflexivity|].
    destruct inner' as [|c0 inner''].
    - rewrite append_nil_l in Heq. subst rest.
      rewrite append_cons, append_nil_l.
      change (hasStars (String c "*")) with ((isStar c && isStar "*") || false)%bool.
      destruct Hc as [Hc|Hc]; [rewrite Hc; reflexivity|].
      rewrite !append_cons in Hc. discriminate.
    - rewrite !append_cons in *.
      change (hasStars (String c (String c0 (inner'' ++ "*"))))
        with ((isStar c && isStar c0) || hasStars (String c0 (inner'' ++ "*")))%bool.
      rewrite Hst, orb_false_r.
      destruct Hc as [Hc|Hc]; [rewrite Hc; reflexivity|].
      subst rest. rewrite Hc. apply andb_false_r. }
  destruct (isStar c) eqn:Hc; [|apply Hfurther; auto].
  destruct rest as [|c' rest']; [apply Hfurther; auto|].
  destruct (isStar c') eqn:Hc'; [|apply Hfurther; auto].
  injection Hlazy as <- <-.
  rewrite (isStar_eq _ Hc), (isStar_eq _ Hc'). repeat split.
Qed.

(** What [matchBold] finds. *)
Lemma matchBold_spec s bold after :
  matchBold s = Some (bold, after) ->
  exists inner,
    bold = "**" ++ inner ++ "**"
    /\ s = bold ++ after
    /\ hasLineTerminator inner = false
    /\ hasStars (inner ++ "*") = false.
Proof.
  unfold matchBold. destruct s as [|c [|c' rest]]; try discriminate.
  destruct (isStar c) eqn:Hc; [|discriminate].
  destruct (isStar c') eqn:Hc'; [|discriminate]. cbn [andb].
  destruct (lazyInner rest) as [[inner after']|] eqn:Hlazy; [|discriminate].
  intros [= <- <-]. exists inner.
  destruct (lazyInner_spec _ _ _ Hlazy) as (-> & Hnl & Hst).
  rewrite (isStar_eq _ Hc), (isStar_eq _ Hc').
  repeat split; [|assumption..].
  rewrite !append_cons, !append_nil_l, !append_assoc. reflexivity.
Qed.

Lemma matchBold_shorter s bold after :
  matchBold s = Some (bold, after) -> (String.length after < String.length s)%nat.
Proof.
  intros Hmatch. destruct (matchBold_spec _ _ _ Hmatch) as (inner & -> & -> & _).
  rewrite !length_append. cbn [String.length]. lia.
Qed.

Lemma concat_next sep a b rest :
  String.concat sep (a :: b :: rest) = a ++ sep ++ String.concat sep (b :: rest).
Proof. reflexivity. Qed.

Lemma splitBoldFrom_nonempty fuel s : splitBoldFrom fuel s <> [].
Proof.
  destruct fuel as [|fuel]; [discriminate|]. cbn [splitBoldFrom].
  destruct (matchBold s) as [[bold after]|]; [discriminate|].
  destruct s as [|c rest]; [discriminate|].
  destruct (splitBoldFrom fuel rest); discriminate.
Qed.

(** Joining the parts gives back the text, whatever the fuel. *)
Lemma splitBoldFrom_join fuel : forall s, String.concat "" (splitBoldFrom fuel s) = s.
Proof.
  induction fuel as [|fuel IH]; intros s; [reflexivity|]. cbn [splitBoldFrom].
  destruct (matchBold s) as [[bold after]|] eqn:Hmatch.
  - destruct (matchBold_spec _ _ _ Hmatch) as (inner & _ & Hs & _).
    pose proof (splitBoldFrom_nonempty fuel after) as Hne.
    specialize (IH after).
    destruct (splitBoldFrom fuel after) as [|first others]; [congruence|].
    rewrite !concat_next, !append_nil_l, IH. symmetry. exact Hs.
  - destruct s as [|c rest]; [reflexivity|].
    pose proof (splitBoldFrom_nonempty fuel rest) as Hne.
    specialize (IH rest).
    destruct (splitBoldFrom fuel rest) as [|first others]; [congruence|].
    rewrite concat_cons, IH. reflexivity.
Qed.

(** Fuel beyond the length of the text changes nothing. *)
Lemma splitBoldFrom_fuel fuel : forall fuel' s,
  (String.length s <= fuel)%nat -> (String.length s <= fuel')%nat ->
  splitBoldFrom fuel s = splitBoldFrom fuel' s.
Proof.
  induction fuel as [|fuel IH]; intros fuel' s Hfuel Hfuel'.
  - destruct s; [|cbn in Hfuel; lia]. destruct fuel'; reflexivity.
  - destruct fuel' as [|fuel'].
    + destruct s; [|cbn in Hfuel'; lia]. reflexivity.
    + cbn [splitBoldFrom].
      destruct (matchBold s) as [[bold after]|] eqn:Hmatch.
      * pose proof (matchBold_shorter _ _ _ Hmatch).
        rewrite (IH fuel' after) by lia. reflexivity.
      * destruct s as [|c rest]; [reflexivity|]. cbn in Hfuel, Hfuel'.
        rewrite (IH fuel' rest) by lia. reflexivity.
Qed.

(** X24: splitting a paragraph into plain and bold parts loses
    nothing: the parts put end to end are the paragraph, and there is an
    odd number of them, a plain part first and last. The search is
    complete: the result is the one for any fuel that is at least the
    length of the paragraph. *)
Theorem bold_split_round_trip (paragraph : string) :
  String.concat "" (splitBold paragraph) = paragraph
  /\ Nat.Odd (List.length (splitBold paragraph))
  /\ forall fuel, (String.length paragraph <= fuel)%nat ->
                  splitBoldFrom fuel paragraph = splitBold paragraph.
Proof.
  split; [apply splitBoldFrom_join|]. split.
  - unfold splitBold. generalize (String.length paragraph) as fuel. intros fuel.
    revert paragraph. induction fuel as [|fuel IH]; intros s; [exists 0%nat; reflexivity|].
    cbn [splitBoldFrom]. destruct (matchBold s) as [[bold after]|].
    + destruct (IH after) as [n Hn]. exists (S n). cbn [List.length]. lia.
    + destruct s as [|c rest]; [exists 0%nat; reflexivity|].
      specialize (IH rest).
      destruct (splitBoldFrom fuel rest); [exists 0%nat; reflexivity | exact IH].
  - intros fuel Hfuel. apply splitBoldFrom_fuel; [exact Hfuel | lia].
Qed.

Lemma bold_split_round_trip_witness :
  splitBoldFrom 100 "**Proxy vs. Adapter:** An Adapter wraps. **x** y"
  = ["" ; "**Proxy vs. Adapter:**"; " An Adapter wraps. "; "**x**"; " y"].
Proof.
  rewrite (proj2 (proj2 (bold_split_round_trip
             "**Proxy vs. Adapter:** An Adapter wraps. **x** y")) 100%nat)
    by (cbn; lia).
  reflexivity.
Defined.

(** ** What is set in bold *)

Lemma reverse_append a : forall b acc,
  CodePane.reverse (a ++ b) acc = CodePane.reverse b (CodePane.reverse a acc).
Proof.
  induction a as [|x a IH]; intros b acc; [reflexivity|].
  rewrite append_cons. cbn [CodePane.reverse]. apply IH.
Qed.

Lemma substring_append a b : String.substring 0 (String.length a) (a ++ b) = a.
Proof.
  induction a as [|x a IH]; [destruct b; reflexivity|].
  rewrite append_cons. cbn [String.length String.substring]. rewrite IH. reflexivity.
Qed.

Lemma prefix_stars rest : String.prefix "**" (String "*" (String "*" rest)) = true.
Proof. destruct rest; reflexivity. Qed.

(** A text between two pairs of stars is set in bold, without the
    stars. *)
Lemma renderPart_starred inner : renderPart ("**" ++ inner ++ "**") = Strong inner.
Proof.
  unfold renderPart, startsWithStars, endsWithStars, slice_2.
  rewrite <- (append_assoc "**" inner "**"), reverse_append.
  rewrite (append_assoc "**" inner "**"), !append_cons, append_nil_l.
  cbn [CodePane.reverse String.length String.substring].
  replace (S (S (String.length (inner ++ "**"))) - 4)%nat with (String.length inner)
    by (rewrite length_append; cbn [String.length]; lia).
  rewrite substring_append, !prefix_stars. reflexivity.
Qed.

Lemma splitBoldFrom_matches fuel : forall s,
  Forall (fun bold => exists inner,
              bold = "**" ++ inner ++ "**"
              /\ hasLineTerminator inner = false
              /\ hasStars (inner ++ "*") = false)
         (matchesOf (splitBoldFrom fuel s)).
Proof.
  induction fuel as [|fuel IH]; intros s; [constructor|]. cbn [splitBoldFrom].
  destruct (matchBold s) as [[bold after]|] eqn:Hmatch.
  - cbn [matchesOf]. constructor; [|apply IH].
    destruct (matchBold_spec _ _ _ Hmatch) as (inner & Hbold & _ & Hnl & Hst).
    exists inner. auto.
  - destruct s as [|c rest]; [constructor|].
    specialize (IH rest).
    destruct (splitBoldFrom fuel rest) as [|first [|bold others]];
      [constructor | constructor | exact IH].
Qed.

(** X25: every match the split of a paragraph yields is a text
    between two pairs of stars, on one line, whose closing pair is the
    first pair of stars after the opening one; it is set in bold with
    both pairs of stars taken off. *)
Theorem bold_parts_are_starred (paragraph : string) :
  Forall (fun bold => exists inner,
              bold = "**" ++ inner ++ "**"
              /\ hasLineTerminator inner = false
              /\ hasStars (inner ++ "*") = false
              /\ renderPart bold = Strong inner)
         (matchesOf (splitBold paragraph)).
Proof.
  eapply List.Forall_impl; [|apply (splitBoldFrom_matches (String.length paragraph))].
  intros bold (inner & -> & Hnl & Hst). exists inner.
  repeat split; [assumption.. | apply renderPart_starred].
Qed.

Lemma hasStars_tail c rest : hasStars (String c rest) = false -> hasStars rest = false.
Proof.
  destruct rest as [|c' rest']; [reflexivity|].
  change (hasStars (String c (String c' rest')))
    with ((isStar c && isStar c') || hasStars (String c' rest'))%bool.
  intros H. apply orb_false_iff in H. apply H.
Qed.

Lemma hasStars_head c c' rest :
  hasStars (String c (String c' rest)) = false -> (isStar c && isStar c')%bool = false.
Proof.
  change (hasStars (String c (String c' rest)))
    with ((isStar c && isStar c') || hasStars (String c' rest))%bool.
  intros H. apply orb_false_iff in H. apply H.
Qed.

Lemma matchBold_stars s : matchBold s <> None -> startsWithStars s = true.
Proof.
  unfold matchBold, startsWithStars. destruct s as [|c [|c' rest]]; try congruence.
  destruct (isStar c) eqn:Hc; [|cbn [andb]; congruence].
  destruct (isStar c') eqn:Hc'; [|cbn [andb]; congruence].
  rewrite (isStar_eq _ Hc), (isStar_eq _ Hc'). intros _. apply prefix_stars.
Qed.

Lemma startsWithStars_hasStars s : startsWithStars s = true -> hasStars s = true.
Proof.
  unfold startsWithStars. destruct s as [|c [|c' rest]]; cbn [String.prefix].
  - discriminate.
  - destruct (ascii_dec "*" c); discriminate.
  - destruct (ascii_dec "*" c) as [<-|]; [|discriminate].
    destruct (ascii_dec "*" c') as [<-|]; [|discriminate].
    reflexivity.
Qed.

Lemma noMatch_without_stars s : hasStars s = false -> noMatch s = true.
Proof.
  induction s as [|c rest IH]; intros Hs; [reflexivity|].
  cbn [noMatch].
  destruct (matchBold (String c rest)) as [m|] eqn:Hmatch.
  - assert (Hstars : startsWithStars (String c rest) = true)
      by (apply matchBold_stars; congruence).
    apply startsWithStars_hasStars in Hstars. congruence.
  - apply IH. exact (hasStars_tail _ _ Hs).
Qed.

Lemma splitBoldFrom_noMatch fuel : forall s,
  noMatch s = true -> splitBoldFrom fuel s = [s].
Proof.
  induction fuel as [|fuel IH]; intros s Hs; [reflexivity|].
  cbn [splitBoldFrom]. destruct s as [|c rest].
  - reflexivity.
  - cbn [noMatch] in Hs.
    destruct (matchBold (String c rest)); [discriminate|].
    rewrite (IH rest Hs). reflexivity.
Qed.

(** X26: a paragraph without two stars in a row is shown as it is,
    in one plain part. *)
Theorem plain_paragraph_unchanged (paragraph : string) :
  hasStars paragraph = false ->
  map renderPart (splitBold paragraph) = [Plain paragraph].
Proof.
  intros Hs. unfold splitBold.
  rewrite (splitBoldFrom_noMatch _ _ (noMatch_without_stars _ Hs)).
  cbn [map]. unfold renderPart.
  destruct (startsWithStars paragraph) eqn:Hstart; [|reflexivity].
  apply startsWithStars_hasStars in Hstart. congruence.
Qed.

Lemma plain_paragraph_unchanged_witness :
  map renderPart (splitBold "Use a * b, not a*b.") = [Plain "Use a * b, not a*b."].
Proof. apply plain_paragraph_unchanged. reflexivity. Defined.

Lemma lazyInner_line_break inner :
  hasLineTerminator inner = true -> hasStars (inner ++ "*") = false ->
  lazyInner (inner ++ "**") = None.
Proof.
  induction inner as [|c inner IH]; intros Hlt Hst; [discriminate|].
  rewrite append_cons in *. cbn [lazyInner].
  cbn [hasLineTerminator] in Hlt.
  assert (Hfurther :
            (if isLineTerminator c then None
             else match lazyInner (inner ++ "**") with
                  | Some (inner0, after) => Some (String c inner0, after)
                  | None => None
                  end) = @None (string * string)).
  { destruct (isLineTerminator c); [reflexivity|]. cbn [orb] in Hlt.
    rewrite IH; [reflexivity | exact Hlt | exact (hasStars_tail _ _ Hst)]. }
  destruct (isStar c) eqn:Hc; [|exact Hfurther].
  destruct inner as [|c' inner'].
  - rewrite append_nil_l in Hst. cbn in Hst. rewrite Hc in Hst. discriminate.
  - rewrite append_cons in *. apply hasStars_head in Hst.
    rewrite Hc in Hst. cbn [andb] in Hst. rewrite Hst. exact Hfurther.
Qed.

Lemma noMatch_tail inner :
  hasStars (inner ++ "*") = false -> noMatch (inner ++ "**") = true.
Proof.
  induction inner as [|c inner IH]; intros Hst; [reflexivity|].
  rewrite append_cons in *. cbn [noMatch].
  assert (Hnone : matchBold (String c (inner ++ "**")) = None).
  { unfold matchBold. destruct inner as [|c' inner'].
    - rewrite append_nil_l in *. cbn in Hst.
      destruct (isStar c); [discriminate|reflexivity].
    - rewrite append_cons in *. apply hasStars_head in Hst. rewrite Hst. reflexivity. }
  rewrite Hnone. apply IH. exact (hasStars_tail _ _ Hst).
Qed.

(** X27: what is set in bold is decided by the stars at both ends of
    a part, not by the match: a text between two pairs of stars that
    holds a line break is matched nowhere, stays one part, and is set in
    bold all the same, without its stars. *)
Theorem bold_across_line_break (inner : string) :
  hasLineTerminator inner = true ->
  hasStars (inner ++ "*") = false ->
  noMatch ("**" ++ inner ++ "**") = true
  /\ map renderPart (splitBold ("**" ++ inner ++ "**")) = [Strong inner].
Proof.
  intros Hlt Hst.
  assert (Hno : noMatch ("**" ++ inner ++ "**") = true).
  { rewrite !append_cons, append_nil_l.
    assert (Hwhole : matchBold (String "*" (String "*" (inner ++ "**"))) = None).
    { unfold matchBold. cbn [isStar andb]. rewrite (lazyInner_line_break _ Hlt Hst).
      reflexivity. }
    assert (Hsecond : matchBold (String "*" (inner ++ "**")) = None).
    { destruct inner as [|c inner']; [discriminate|].
      rewrite append_cons. unfold matchBold.
      destruct (isStar c) eqn:Hc; [|reflexivity].
      replace (isStar "*" && true)%bool with true by reflexivity.
      rewrite lazyInner_line_break; [reflexivity| |].
      - cbn [hasLineTerminator] in Hlt.
        assert (Hnot : isLineTerminator c = false)
          by (rewrite (isStar_eq _ Hc); reflexivity).
        rewrite Hnot in Hlt. exact Hlt.
      - rewrite append_cons in Hst. exact (hasStars_tail _ _ Hst). }
    cbn [noMatch]. rewrite Hwhole, Hsecond. apply noMatch_tail. exact Hst. }
  split; [exact Hno|].
  unfold splitBold. rewrite (splitBoldFrom_noMatch _ _ Hno).
  cbn [map]. rewrite renderPart_starred. reflexivity.
Qed.

Lemma bold_across_line_break_witness :
  let inner := String "a" (String (ascii_of_nat 10) "b") in
  noMatch ("**" ++ inner ++ "**") = true
  /\ map renderPart (splitBold ("**" ++ inner ++ "**")) = [Strong inner].
Proof. apply bold_across_line_break; reflexivity. Defined.

(** ** The tab as a whole *)

Lemma splitParagraphs_single text :
  hasBlankLine text = false -> splitParagraphs text = [text].
Proof.
  induction text as [|c rest IH]; intros Hblank; [reflexivity|].
  assert (Hrest : hasBlankLine rest = false).
  { destruct rest as [|c' rest']; [reflexivity|].
    change (hasBlankLine (String c (String c' rest')))
      with ((isNewline c && isNewline c') || hasBlankLine (String c' rest'))%bool in Hblank.
    apply orb_false_iff in Hblank. apply Hblank. }
  cbn [splitParagraphs]. rewrite (IH Hrest).
  destruct (isNewline c) eqn:Hc; [|reflexivity].
  destruct rest as [|c' rest']; [reflexivity|].
  change (hasBlankLine (String c (String c' rest')))
    with ((isNewline c && isNewline c') || hasBlankLine (String c' rest'))%bool in Hblank.
  apply orb_false_iff in Hblank. destruct Hblank as [Hpair _].
  rewrite Hc in Hpair. cbn [andb] in Hpair. rewrite Hpair. reflexivity.
Qed.

(** X28: a comparison without markup. When the text, with the white
    space around it taken off, has no blank line and no two stars in a
    row, the tab shows one paragraph with one plain part: that text. *)
Theorem plain_comparison_one_paragraph (comparison : string) :
  hasBlankLine (CodePane.trim comparison) = false ->
  hasStars (CodePane.trim comparison) = false ->
  renderComparison comparison = [[Plain (CodePane.trim comparison)]].
Proof.
  intros Hblank Hstars. unfold renderComparison.
  rewrite (splitParagraphs_single _ Hblank). cbn [map]. unfold splitBold.
  rewrite (splitBoldFrom_noMatch _ _ (noMatch_without_stars _ Hstars)).
  cbn [map]. unfold renderPart.
  destruct (startsWithStars (CodePane.trim comparison)) eqn:Hstart; [|reflexivity].
  apply startsWithStars_hasStars in Hstart. congruence.
Qed.

Lemma plain_comparison_one_paragraph_witness :
  renderComparison (String (ascii_of_nat 10) "  Decorator adds duties; Proxy controls access.  ")
  = [[Plain "Decorator adds duties; Proxy controls access."]].
Proof. apply plain_comparison_one_paragraph; reflexivity. Defined.

End Comparison.
